(** * Sigsum library: Merkle verification, proof bundles and wire encodings

    A shallow embedding of the verification core of the sigsum Go library
    (packages [merkle], [proof], [requests] and [checkpoint], and the
    serialisation helpers they rely on), together with the properties
    stated about it.

    Conventions.
    - A Go [uint64] is an [N] below [2^64]; every operation that can leave
      that range is written with its wrap-around ([add64], [sub64], ...).
    - A [crypto.Hash], [crypto.Signature] and [crypto.PublicKey] is a list
      of bytes; the array length (32, 64, 32) is a well-formedness predicate.
    - Text read from or written to an [io.Reader]/[io.Writer] is a list of
      characters.
    - A Go function returning [error] returns a [result]; a run-time panic
      (index out of range, explicit [panic]) is the separate outcome
      [Panic]. *)

From Stdlib Require Import PeanoNat NArith Lia Bool Ascii String.
From Stdlib.Strings Require Import Byte.
From Stdlib Require Import DecimalString DecimalN.
From Stdlib Require Import List.
Import ListNotations.

Local Open Scope N_scope.

(* ================================================================= *)
(** ** Machine integers and [math/bits] *)

Definition wrap64 (x : N) : N := x mod 2 ^ 64.

(** [a + b] on [uint64]. *)
Definition add64 (a b : N) : N := wrap64 (a + b).

(** [a - b] on [uint64], for [a], [b] below [2^64]. *)
Definition sub64 (a b : N) : N := wrap64 (a + 2 ^ 64 - b).

(** [-a] on [uint64]. *)
Definition neg64 (a : N) : N := wrap64 (2 ^ 64 - a).

(** [a << k] on [uint64]. *)
Definition shl64 (a k : N) : N := wrap64 (N.shiftl a k).

(** [bits.Len64]: the number of bits needed to represent [x]. *)
Definition Len64 (x : N) : N := N.size x.

Fixpoint pos_ones (p : positive) : N :=
  match p with
  | xH => 1
  | xO q => pos_ones q
  | xI q => 1 + pos_ones q
  end.

(** [bits.OnesCount64]: the number of one bits of [x]. *)
Definition OnesCount64 (x : N) : N :=
  match x with
  | N0 => 0
  | Npos p => pos_ones p
  end.

Fixpoint pos_trailing_zeros (p : positive) : N :=
  match p with
  | xO q => 1 + pos_trailing_zeros q
  | _ => 0
  end.

(** [bits.TrailingZeros64]: 64 for zero. *)
Definition TrailingZeros64 (x : N) : N :=
  match x with
  | N0 => 64
  | Npos p => pos_trailing_zeros p
  end.

(* ================================================================= *)
(** ** Results and errors *)

(** The errors the modelled functions construct with [fmt.Errorf], one
    constructor per message. *)
Inductive error : Type :=
  (* merkle *)
  | ErrEqualSizeNonEmptyPath   (* non-empty consistency path for trees of equal size *)
  | ErrEqualSizeRootsDiffer    (* consistency check failed: same size, but roots differ *)
  | ErrEmptyOldNonEmptyPath    (* non-empty consistency path for empty old tree *)
  | ErrEmptyTreeRoot           (* unexpected root hash for the empty tree *)
  | ErrMalformedPathLength     (* proof input is malformed: path length %d, should be %d *)
  | ErrMalformedIndex          (* proof input is malformed: index out of range *)
  | ErrOldRootMismatch         (* invalid proof: old root mismatch *)
  | ErrNewRootMismatch         (* invalid proof: new root mismatch *)
  | ErrRootMismatch            (* invalid proof: root mismatch *)
  | ErrRangeEmpty              (* range must be non-empty *)
  | ErrRangeExceedsTree        (* end of range exceeds tree size *)
  | ErrInconsistentPaths       (* proof invalid, inconsistent paths *)
  | ErrFirstPathLength         (* proof invalid, wrong inclusion path length for first node *)
  | ErrLastPathLength          (* proof invalid, wrong inclusion path length for last node *)
  | ErrLeafRangeInconsistent   (* unexpected path, inconsistent with leaf range *)
  | ErrTreesNotConsistent      (* start and end trees not consistent *)
  (* proof *)
  | ErrChecksumMismatch        (* checksum doesn't match truncated checksum *)
  | ErrSubmitKeyHash           (* unexpected submit key hash *)
  | ErrLeafSignature           (* leaf signature not valid *)
  | ErrInvalidProofTooFewParts (* invalid proof, too few parts *)
  | ErrTooManyParts            (* too many parts *)
  | ErrTooFewParts             (* too few parts *)
  | ErrUnexpectedVersion (version : N)   (* unexpected version %d, wanted %d *)
  | ErrEmptyTree               (* invalid tree: empty *)
  | ErrChecksumLength          (* unexpected checksum length, expected %d, got %d *)
  | ErrInvalidVersionLine (cause : error)    (* invalid version line: %v *)
  | ErrInvalidLogLine (cause : error)        (* invalid log line: %v *)
  | ErrInvalidChecksum (cause : error)       (* invalid submitter checksum: %v *)
  | ErrInvalidKeyHash (cause : error)        (* invalid submitter key hash: %v *)
  | ErrInvalidLeafSignature (cause : error)  (* invalid leaf signature: %v *)
  (* policy: whatever policy.VerifyCosignedTreeHead reports *)
  | ErrPolicy (reason : N)
  (* signer failure *)
  | ErrSigner
  (* ascii, encoding/hex, strconv *)
  | ErrEOF                     (* io.EOF: no line left *)
  | ErrInvalidLine             (* line without '=' or without terminator *)
  | ErrUnexpectedKey           (* the key on the line is not the one asked for *)
  | ErrSyntax                  (* not a decimal number / not hex *)
  | ErrRange                   (* decimal number out of the uint64 range *)
  | ErrLength                  (* decoded hex has the wrong number of bytes *)
  | ErrValueCount              (* bad number of space-separated values *)
  | ErrGarbage                 (* garbage at end of message *)
  (* requests *)
  | ErrNotEnoughInput          (* not enough input *)
  | ErrOldSizeExceedsSize (oldSize size : N)  (* invalid request, old_size(%d) > size(%d) *)
  (* checkpoint, encoding/base64 *)
  | ErrInvalidSignatureLine    (* invalid signature line %q *)
  | ErrCorruptInput            (* base64.CorruptInputError *)
  | ErrUnwantedSignature.      (* unwanted signature *)

Inductive result (A : Type) : Type :=
  | Ok (a : A)
  | Err (e : error)
  | Panic.

Arguments Ok {A} a.
Arguments Err {A} e.
Arguments Panic {A}.

Definition bind {A B} (r : result A) (k : A -> result B) : result B :=
  match r with
  | Ok a => k a
  | Err e => Err e
  | Panic => Panic
  end.

Notation "'do' x <- r ; k" := (bind r (fun x => k))
  (at level 10, x pattern, r at level 100, k at level 200).

Definition is_ok {A} (r : result A) : bool :=
  match r with Ok _ => true | _ => false end.

Definition is_err {A} (r : result A) : bool :=
  match r with Err _ => true | _ => false end.

(** [fmt.Errorf("...: %v", err)] around a failing call. *)
Definition wrap_err {A} (ctx : error -> error) (r : result A) : result A :=
  match r with
  | Err e => Err (ctx e)
  | _ => r
  end.

(* ================================================================= *)
(** ** Package [crypto]: hashes as byte arrays *)

Definition Hash : Type := list byte.
Definition Signature : Type := list byte.
Definition PublicKey : Type := list byte.

Definition HashSize : nat := 32.
Definition SignatureSize : nat := 64.
Definition PublicKeySize : nat := 32.

Fixpoint bytes_eqb (a b : list byte) : bool :=
  match a, b with
  | [], [] => true
  | x :: a', y :: b' => Byte.eqb x y && bytes_eqb a' b'
  | _, _ => false
  end.

(** [pathEqual]: same length and equal at every index. *)
Fixpoint pathEqual (a b : list Hash) : bool :=
  match a, b with
  | [], [] => true
  | h :: a', g :: b' => bytes_eqb h g && pathEqual a' b'
  | _, _ => false
  end.

Definition isOdd (num : N) : bool := negb (N.land num 1 =? 0).
Definition isEven (num : N) : bool := N.land num 1 =? 0.

(* ================================================================= *)
(** ** Package [merkle] *)

Section Merkle.

(** SHA-256 ([crypto.HashBytes]) is left abstract. *)
Variable HashBytes : list byte -> Hash.

(** Modelled from the spec: [HashInteriorNode] is not in the sources at
    hand; section 4.1 gives [hash_interior_node(left, right) =
    H(0x01 || left || right)]. *)
Definition HashInteriorNode (left right : Hash) : Hash :=
  HashBytes (x01 :: left ++ right).

(** Modelled from the spec: [HashEmptyTree] is not in the sources at hand;
    section 4.1 gives [hash_empty_tree() = H("")]. *)
Definition HashEmptyTree : Hash := HashBytes [].

Definition pathLength (index size : N) : N :=
  let k := Len64 (N.lxor index (sub64 size 1)) in
  k + OnesCount64 (N.shiftr index k).

Definition inclusionPathLength (index size : N) : N :=
  let k := Len64 (N.lxor index (sub64 size 1)) in
  k + OnesCount64 (N.shiftr index k).

(** One iteration of the loop body of [VerifyInclusion]; [None] is the
    index-out-of-range panic of [path[0]] on an empty path. *)
Definition inclusion_step (sn fn : N) (r : Hash) (path : list Hash)
  : option (Hash * list Hash) :=
  if isOdd fn then
    match path with
    | p0 :: path' => Some (HashInteriorNode p0 r, path')
    | [] => None
    end
  else if fn <? sn then
    match path with
    | p0 :: path' => Some (HashInteriorNode r p0, path')
    | [] => None
    end
  else Some (r, path).

(** [for sn > 0 { body; fn, sn = fn>>1, sn>>1 }], entered with
    [sn = Npos p]; the recursion follows the bits of [sn]. *)
Fixpoint inclusion_loop_pos (p : positive) (fn : N) (r : Hash)
  (path : list Hash) {struct p} : option (Hash * list Hash) :=
  match inclusion_step (Npos p) fn r path with
  | None => None
  | Some (r', path') =>
      match p with
      | xH => Some (r', path')
      | xO q | xI q => inclusion_loop_pos q (N.shiftr fn 1) r' path'
      end
  end.

Definition inclusion_loop (sn fn : N) (r : Hash) (path : list Hash)
  : option (Hash * list Hash) :=
  match sn with
  | N0 => Some (r, path)
  | Npos p => inclusion_loop_pos p fn r path
  end.

Definition VerifyInclusion (leaf : Hash) (index size : N) (root : Hash)
  (path : list Hash) : result unit :=
  if size <=? index then Err ErrMalformedIndex
  else if negb (N.of_nat (length path) =? inclusionPathLength index size)
  then Err ErrMalformedPathLength
  else if negb (N.of_nat (length path) =? pathLength index size)
  then Err ErrMalformedPathLength
  else
    match inclusion_loop (sub64 size 1) index leaf path with
    | None => Panic
    | Some (r, rest) =>
        match rest with
        | _ :: _ => Panic
        | [] => if negb (bytes_eqb r root) then Err ErrRootMismatch else Ok tt
        end
    end.

(** One iteration of the loop body of [VerifyConsistency]. *)
Definition consistency_step (sn fn : N) (fr sr : Hash) (path : list Hash)
  : option (Hash * Hash * list Hash) :=
  if isOdd fn then
    match path with
    | p0 :: path' =>
        Some (HashInteriorNode p0 fr, HashInteriorNode p0 sr, path')
    | [] => None
    end
  else if fn <? sn then
    match path with
    | p0 :: path' => Some (fr, HashInteriorNode sr p0, path')
    | [] => None
    end
  else Some (fr, sr, path).

Fixpoint consistency_loop_pos (p : positive) (fn : N) (fr sr : Hash)
  (path : list Hash) {struct p} : option (Hash * Hash * list Hash) :=
  match consistency_step (Npos p) fn fr sr path with
  | None => None
  | Some (fr', sr', path') =>
      match p with
      | xH => Some (fr', sr', path')
      | xO q | xI q => consistency_loop_pos q (N.shiftr fn 1) fr' sr' path'
      end
  end.

Definition consistency_loop (sn fn : N) (fr sr : Hash) (path : list Hash)
  : option (Hash * Hash * list Hash) :=
  match sn with
  | N0 => Some (fr, sr, path)
  | Npos p => consistency_loop_pos p fn fr sr path
  end.

(** [wantLength] of [VerifyConsistency]. *)
Definition consistencyWantLength (oldSize newSize : N) : N :=
  let trimBits := TrailingZeros64 oldSize in
  let fn := N.shiftr (sub64 oldSize 1) trimBits in
  let sn := N.shiftr (sub64 newSize 1) trimBits in
  let wantLength := pathLength fn (add64 sn 1) in
  if 0 <? fn then wantLength + 1 else wantLength.

Definition VerifyConsistency (oldSize newSize : N) (oldRoot newRoot : Hash)
  (path : list Hash) : result unit :=
  if oldSize =? newSize then
    if 0 <? N.of_nat (length path) then Err ErrEqualSizeNonEmptyPath
    else if negb (bytes_eqb oldRoot newRoot) then Err ErrEqualSizeRootsDiffer
    else Ok tt
  else if oldSize =? 0 then
    if 0 <? N.of_nat (length path) then Err ErrEmptyOldNonEmptyPath
    else if negb (bytes_eqb oldRoot HashEmptyTree) then Err ErrEmptyTreeRoot
    else Ok tt
  else
    let trimBits := TrailingZeros64 oldSize in
    let fn := N.shiftr (sub64 oldSize 1) trimBits in
    let sn := N.shiftr (sub64 newSize 1) trimBits in
    if negb (N.of_nat (length path) =? consistencyWantLength oldSize newSize)
    then Err ErrMalformedPathLength
    else
      let start :=
        if fn =? 0 then Some (oldRoot, path)
        else match path with
             | p0 :: path' => Some (p0, path')
             | [] => None
             end in
      match start with
      | None => Panic
      | Some (fr, path1) =>
          match consistency_loop sn fn fr fr path1 with
          | None => Panic
          | Some (fr', sr', rest) =>
              match rest with
              | _ :: _ => Panic
              | [] =>
                  if negb (bytes_eqb fr' oldRoot) then Err ErrOldRootMismatch
                  else if negb (bytes_eqb sr' newRoot)
                  then Err ErrNewRootMismatch
                  else Ok tt
              end
          end
      end.

(** [s[lo:hi]] of a slice whose capacity equals its length; [None] is the
    slice-bounds panic. *)
Definition slice {A} (s : list A) (lo hi : N) : option (list A) :=
  if (lo <=? hi) && (hi <=? N.of_nat (length s))
  then Some (firstn (N.to_nat (hi - lo)) (skipn (N.to_nat lo) s))
  else None.

(** The loop of [extendRange] on the compact range held top first:
    [for s := i+1; len(cr) > 0 && isEven(s); s >>= 1]. *)
Fixpoint extend_stack (makeNode : Hash -> Hash -> Hash) (top_first : list Hash)
  (s : N) (h : Hash) : list Hash :=
  match top_first with
  | top :: below =>
      if isEven s
      then extend_stack makeNode below (N.shiftr s 1) (makeNode top h)
      else h :: top_first
  | [] => [h]
  end.

(** [extendRange]: [cr] is a Go slice, its top is its last element. *)
Definition extendRange (cr : list Hash) (i : N) (h : Hash)
  (makeNode : Hash -> Hash -> Hash) : list Hash :=
  rev (extend_stack makeNode (rev cr) (add64 i 1) h).

(** [for i := 1; i < len(leaves); i++ { cr = extendRange(cr, i, next, mk) }]
    where [rest] lists the leaves in the order the loop visits them. *)
Fixpoint range_loop (makeNode : Hash -> Hash -> Hash) (cr : list Hash)
  (i : N) (rest : list Hash) : list Hash :=
  match rest with
  | [] => cr
  | h :: rest' => range_loop makeNode (extendRange cr i h makeNode) (i + 1) rest'
  end.

(** [makeLeftRange] visits [leaves[len-1]], [leaves[len-2]], ... and swaps
    the arguments of [HashInteriorNode]. *)
Definition makeLeftRange (leaves : list Hash) : list Hash :=
  match rev leaves with
  | [] => []
  | h :: rest =>
      range_loop (fun left right => HashInteriorNode right left) [h] 1 rest
  end.

Definition makeRightRange (leaves : list Hash) : list Hash :=
  match leaves with
  | [] => []
  | h :: rest => range_loop HashInteriorNode [h] 1 rest
  end.

(** [s := &r[len(r)-1]; r = r[:len(r)-1]]: the top of a compact range and
    what is left; [None] on the empty range. *)
Definition pop_last (r : list Hash) : option (Hash * list Hash) :=
  match rev r with
  | [] => None
  | s :: below => Some (s, rev below)
  end.

(** First loop of [VerifyInclusionBatch], [k] iterations left:
    [for i := 0; i < k; startPath, fn, i = startPath[1:], fn>>1, i+1]. *)
Fixpoint batch_start_loop (k : nat) (fn : N) (fr : Hash)
  (startPath leftRange : list Hash)
  : result (N * Hash * list Hash * list Hash) :=
  match k with
  | O => Ok (fn, fr, startPath, leftRange)
  | S k' =>
      if isOdd fn then
        match startPath with
        | [] => Panic
        | p0 :: startPath' =>
            batch_start_loop k' (N.shiftr fn 1) (HashInteriorNode p0 fr)
              startPath' leftRange
        end
      else
        match pop_last leftRange with
        | None => Panic
        | Some (s, leftRange') =>
            match startPath with
            | [] => Panic
            | p0 :: startPath' =>
                if negb (bytes_eqb s p0) then Err ErrLeafRangeInconsistent
                else batch_start_loop k' (N.shiftr fn 1)
                       (HashInteriorNode fr s) startPath' leftRange'
            end
        end
  end.

(** Second loop: [for i := 0; i < k; en, sn, i = en>>1, sn>>1, i+1]. *)
Fixpoint batch_end_loop (k : nat) (en sn : N) (er : Hash)
  (endPath rightRange : list Hash)
  : result (N * N * Hash * list Hash * list Hash) :=
  match k with
  | O => Ok (en, sn, er, endPath, rightRange)
  | S k' =>
      if isOdd en then
        match pop_last rightRange with
        | None => Panic
        | Some (s, rightRange') =>
            match endPath with
            | [] => Panic
            | p0 :: endPath' =>
                if negb (bytes_eqb s p0) then Err ErrLeafRangeInconsistent
                else batch_end_loop k' (N.shiftr en 1) (N.shiftr sn 1)
                       (HashInteriorNode s er) endPath' rightRange'
            end
        end
      else if en <? sn then
        match endPath with
        | [] => Panic
        | p0 :: endPath' =>
            batch_end_loop k' (N.shiftr en 1) (N.shiftr sn 1)
              (HashInteriorNode er p0) endPath' rightRange
        end
      else
        batch_end_loop k' (N.shiftr en 1) (N.shiftr sn 1) er endPath rightRange
  end.

Definition option_panic {A} (o : option A) : result A :=
  match o with
  | Some a => Ok a
  | None => Panic
  end.

Definition VerifyInclusionBatch (leaves : list Hash) (fn size : N)
  (root : Hash) (startPath endPath : list Hash) : result unit :=
  match leaves with
  | [] => Err ErrRangeEmpty
  | leaf0 :: others =>
      let len := wrap64 (N.of_nat (length leaves)) in
      let en := sub64 (add64 fn len) 1 in
      if size <=? en then Err ErrRangeExceedsTree
      else
        match others with
        | [] =>
            if negb (pathEqual startPath endPath) then Err ErrInconsistentPaths
            else VerifyInclusion leaf0 fn size root startPath
        | _ :: _ =>
            if negb (N.of_nat (length startPath) =? inclusionPathLength fn size)
            then Err ErrFirstPathLength
            else if negb (N.of_nat (length endPath) =? inclusionPathLength en size)
            then Err ErrLastPathLength
            else if N.lxor fn en =? 0 then Panic (* shift by k = -1 *)
            else
              let k := Len64 (N.lxor fn en) - 1 in
              let split := N.land en (neg64 (shl64 1 k)) in
              do mid_left <- option_panic (slice leaves 1 (sub64 split fn));
              do mid_right <- option_panic
                   (slice leaves (sub64 split fn) (N.of_nat (length leaves) - 1));
              let leftRange := makeLeftRange mid_left in
              let rightRange := makeRightRange mid_right in
              do (fn1, fr, startPath1, leftRange1) <-
                   batch_start_loop (N.to_nat k) fn leaf0 startPath leftRange;
              do (en1, sn1, er, endPath1, rightRange1) <-
                   batch_end_loop (N.to_nat k) en (sub64 size 1)
                     (last leaves leaf0) endPath rightRange;
              if isOdd fn1 || isEven en1 || negb (add64 fn1 1 =? en1) then Panic
              else if (0 <? N.of_nat (length leftRange1))
                      || (0 <? N.of_nat (length rightRange1)) then Panic
              else
                match startPath1 with
                | [] => Panic
                | s0 :: startRest =>
                    if negb (bytes_eqb s0 er) then Err ErrTreesNotConsistent
                    else
                      match endPath1 with
                      | [] => Panic
                      | e0 :: endRest =>
                          if negb (bytes_eqb e0 fr)
                          then Err ErrTreesNotConsistent
                          else if negb (pathEqual startRest endRest)
                          then Err ErrInconsistentPaths
                          else VerifyInclusion (HashInteriorNode fr er)
                                 (N.shiftr fn1 1) (add64 (N.shiftr sn1 1) 1)
                                 root startRest
                      end
                end
        end
  end.

End Merkle.

(* ================================================================= *)
(** ** Text, [encoding/hex] and [strconv] *)

Definition text : Type := list ascii.

Definition txt (s : string) : text := list_ascii_of_string s.

Definition LF : ascii := "010"%char.
Definition SP : ascii := " "%char.
Definition EQ : ascii := "="%char.

Fixpoint text_eqb (a b : text) : bool :=
  match a, b with
  | [], [] => true
  | x :: a', y :: b' => Ascii.eqb x y && text_eqb a' b'
  | _, _ => false
  end.

(** The byte with value [x mod 256]. *)
Definition byte_of_N (x : N) : byte :=
  match Byte.of_N (x mod 256) with
  | Some b => b
  | None => x00
  end.

(** ["0123456789abcdef"[n]]. *)
Definition hex_digit (n : N) : ascii :=
  ascii_of_N (if n <? 10 then 48 + n else 87 + n).

(** [hex.EncodeToString] and the verb [%x] on a byte slice. *)
Definition EncodeToString (src : list byte) : text :=
  flat_map (fun b => [hex_digit (Byte.to_N b / 16);
                      hex_digit (Byte.to_N b mod 16)]) src.

(** [fromHexChar] of [encoding/hex]: both letter cases are accepted. *)
Definition fromHexChar (c : ascii) : option N :=
  let n := N_of_ascii c in
  if (48 <=? n) && (n <=? 57) then Some (n - 48)
  else if (97 <=? n) && (n <=? 102) then Some (n - 87)
  else if (65 <=? n) && (n <=? 70) then Some (n - 55)
  else None.

(** [hex.DecodeString]: [None] for an odd length or a non-hex character. *)
Fixpoint DecodeString (s : text) : option (list byte) :=
  match s with
  | [] => Some []
  | [_] => None
  | hi :: lo :: s' =>
      match fromHexChar hi, fromHexChar lo, DecodeString s' with
      | Some h, Some l, Some bs => Some (byte_of_N (16 * h + l) :: bs)
      | _, _, _ => None
      end
  end.

(** The verb [%d] on a [uint64]. *)
Definition FormatUint (n : N) : text :=
  list_ascii_of_string (NilEmpty.string_of_uint (N.to_uint n)).

(** [strconv.ParseUint(s, 10, 64)]: a non-empty string of decimal digits
    whose value fits 64 bits. *)
Definition ParseUint (s : text) : result N :=
  match s with
  | [] => Err ErrSyntax
  | _ :: _ =>
      match NilEmpty.uint_of_string (string_of_list_ascii s) with
      | None => Err ErrSyntax
      | Some d =>
          let n := N.of_uint d in
          if n <? 2 ^ 64 then Ok n else Err ErrRange
      end
  end.

Definition cons_head {A} (c : A) (pieces : list (list A)) : list (list A) :=
  match pieces with
  | [] => [[c]]
  | piece :: more => (c :: piece) :: more
  end.

(** [strings.Split(s, sep)] for a one-character separator. *)
Fixpoint split_char (sep : ascii) (s : text) : list text :=
  match s with
  | [] => [[]]
  | c :: s' =>
      if Ascii.eqb c sep then [] :: split_char sep s'
      else cons_head c (split_char sep s')
  end.

(** [bytes.Split(data, []byte{'\n', '\n'})]: the pieces between the
    leftmost non-overlapping blank-line separators. *)
Fixpoint split_blank (s : text) : list text :=
  match s with
  | [] => [[]]
  | c :: s' =>
      match s' with
      | d :: s'' =>
          if Ascii.eqb c LF && Ascii.eqb d LF then [] :: split_blank s''
          else cons_head c (split_blank s')
      | [] => [[c]]
      end
  end.

(** [strings.Index(line, "=")]: the text before and after the first [=]. *)
Fixpoint cut_eq (line : text) : option (text * text) :=
  match line with
  | [] => None
  | c :: line' =>
      if Ascii.eqb c EQ then Some ([], line')
      else match cut_eq line' with
           | Some (key, value) => Some (c :: key, value)
           | None => None
           end
  end.

Fixpoint join (sep : text) (pieces : list text) : text :=
  match pieces with
  | [] => []
  | [piece] => piece
  | piece :: more => piece ++ sep ++ join sep more
  end.

(* ================================================================= *)
(** ** Package [crypto]: decoding keys, hashes and signatures *)

Definition decode_sized (size : nat) (s : text) : result (list byte) :=
  match DecodeString s with
  | None => Err ErrSyntax
  | Some b => if Nat.eqb (length b) size then Ok b else Err ErrLength
  end.

(** Modelled from the spec: [crypto.HashFromHex] is not in the sources at
    hand; by sections 3 and 4.2 a hash is 32 bytes written in hex. *)
Definition HashFromHex (s : text) : result Hash := decode_sized HashSize s.

(** Modelled from the spec: [crypto.SignatureFromHex] is not in the sources
    at hand; by sections 3 and 4.2 a signature is 64 bytes written in hex. *)
Definition SignatureFromHex (s : text) : result Signature :=
  decode_sized SignatureSize s.

(* ================================================================= *)
(** ** Package [ascii]: the line-oriented key/value codec *)

(** A value handed to [WriteLine]: a byte slice is written in hex, an
    integer in decimal. *)
Inductive value : Type :=
  | HexValue (b : list byte)
  | IntValue (n : N).

Definition format_value (v : value) : text :=
  match v with
  | HexValue b => EncodeToString b
  | IntValue n => FormatUint n
  end.

(** Modelled from the spec: package [ascii] is not in the sources at hand.
    Section 4.2: a line is [<key>=<value>\n], values are lowercase hex or
    decimal, several values on a line are separated by one space, and the
    writer adds no other whitespace. *)
Definition WriteLine (key : text) (first : value) (rest : list value) : text :=
  key ++ [EQ] ++ join [SP] (map format_value (first :: rest)) ++ [LF].

(** Modelled from the spec: as [WriteLine], every value a byte slice. *)
Definition WriteLineHex (key : text) (first : list byte)
  (rest : list (list byte)) : text :=
  WriteLine key (HexValue first) (map HexValue rest).

(** Modelled from the spec: one decimal value. *)
Definition WriteInt (key : text) (n : N) : text :=
  WriteLine key (IntValue n) [].

(** Modelled from the spec: one hash in hex. *)
Definition WriteHash (key : text) (h : Hash) : text :=
  WriteLine key (HexValue h) [].

(** Modelled from the spec: one signature in hex. *)
Definition WriteSignature (key : text) (s : Signature) : text :=
  WriteLine key (HexValue s) [].

(** The state of an [ascii.Parser]: the input cut at every line feed.  The
    last piece is what follows the last line feed; it is empty when the
    input is empty or ends with a line feed.  A [Parser] value holds a
    pointer to its scanner, so a copy passed by value reads from and
    advances the same input; the state is threaded through every call. *)
Definition Parser : Type := list text.

Definition NewParser (input : text) : Parser := split_char LF input.

(** The value of one line: the text after the first [=], provided the
    text before it is exactly [name]. *)
Definition line_value (name line : text) : result text :=
  match cut_eq line with
  | None => Err ErrInvalidLine
  | Some (key, v) =>
      if text_eqb key name then Ok v else Err ErrUnexpectedKey
  end.

(** Modelled from the spec: the next line must be [<key>=<value>\n] with
    exactly the key asked for; its value is returned.  No line left is
    [io.EOF]. *)
Definition next (name : text) (p : Parser) : result (text * Parser) :=
  match p with
  | [] => Err ErrEOF
  | [tail] => match tail with
              | [] => Err ErrEOF
              | _ :: _ => Err ErrInvalidLine
              end
  | line :: p' => do v <- line_value name line; Ok (v, p')
  end.

(** Modelled from the spec: a repeated field reads successive lines with
    the same key up to the end of the input; a line with another key is an
    error. *)
Fixpoint GetRepeated {A} (name : text) (decode : text -> result A)
  (p : Parser) : result (list A) :=
  match p with
  | [] => Ok []
  | [tail] => match tail with
              | [] => Ok []
              | _ :: _ => Err ErrInvalidLine
              end
  | line :: p' =>
      do v <- line_value name line;
      do a <- decode v;
      do more <- GetRepeated name decode p';
      Ok (a :: more)
  end.

(** Modelled from the spec: [get_int(key)]. *)
Definition GetInt (name : text) (p : Parser) : result (N * Parser) :=
  do (v, p') <- next name p;
  do n <- ParseUint v;
  Ok (n, p').

(** Modelled from the spec: [get_hash(key)]. *)
Definition GetHash (name : text) (p : Parser) : result (Hash * Parser) :=
  do (v, p') <- next name p;
  do h <- HashFromHex v;
  Ok (h, p').

(** Modelled from the spec: [get_signature(key)]. *)
Definition GetSignature (name : text) (p : Parser)
  : result (Signature * Parser) :=
  do (v, p') <- next name p;
  do s <- SignatureFromHex v;
  Ok (s, p').

(** Modelled from the spec: [get_values(key, n)] splits the value on single
    spaces and wants exactly [n] pieces. *)
Definition GetValues (name : text) (count : nat) (p : Parser)
  : result (list text * Parser) :=
  do (v, p') <- next name p;
  let values := split_char SP v in
  if Nat.eqb (length values) count then Ok (values, p')
  else Err ErrValueCount.

(** Modelled from the spec: [get_eof()] fails when input is left. *)
Definition GetEOF (p : Parser) : result unit :=
  match p with
  | [] => Ok tt
  | [tail] => match tail with
              | [] => Ok tt
              | _ :: _ => Err ErrGarbage
              end
  | _ :: _ :: _ => Err ErrGarbage
  end.

(* ================================================================= *)
(** ** Package [types] *)

Record TreeHead : Type := {
  th_Size : N;
  th_RootHash : Hash
}.

Record SignedTreeHead : Type := {
  sth_TreeHead : TreeHead;
  sth_Signature : Signature
}.

Record Cosignature : Type := {
  cs_KeyHash : Hash;
  cs_Timestamp : N;
  cs_Signature : Signature
}.

Record CosignedTreeHead : Type := {
  cth_SignedTreeHead : SignedTreeHead;
  cth_Cosignatures : list Cosignature
}.

Record InclusionProof : Type := {
  ip_LeafIndex : N;
  ip_TreeSize : N;
  ip_Path : list Hash
}.

Record Leaf : Type := {
  leaf_Checksum : Hash;
  leaf_Signature : Signature;
  leaf_KeyHash : Hash
}.

(** [sp.TreeHead.Size]: the promoted field of the embedded structs. *)
Definition cth_Size (cth : CosignedTreeHead) : N :=
  th_Size (sth_TreeHead (cth_SignedTreeHead cth)).

(** [types.InclusionProof{}]. *)
Definition InclusionProof_zero : InclusionProof :=
  {| ip_LeafIndex := 0; ip_TreeSize := 0; ip_Path := [] |}.

(** Modelled from the spec: [SignedTreeHead.ToASCII] is not in the sources
    at hand; sections 4.4 and 6 give the lines [size], [root_hash],
    [signature]. *)
Definition SignedTreeHead_ToASCII (sth : SignedTreeHead) : text :=
  WriteInt (txt "size") (th_Size (sth_TreeHead sth))
  ++ WriteHash (txt "root_hash") (th_RootHash (sth_TreeHead sth))
  ++ WriteSignature (txt "signature") (sth_Signature sth).

(** Modelled from the spec: one cosignature is the line
    [cosignature=<key_hash> <timestamp> <signature>] (sections 4.4, 6). *)
Definition Cosignature_ToASCII (cs : Cosignature) : text :=
  WriteLine (txt "cosignature") (HexValue (cs_KeyHash cs))
    [IntValue (cs_Timestamp cs); HexValue (cs_Signature cs)].

(** Modelled from the spec: [CosignedTreeHead.ToASCII] is not in the
    sources at hand; the signed tree head lines followed by the
    cosignature lines (sections 4.4, 6). *)
Definition CosignedTreeHead_ToASCII (cth : CosignedTreeHead) : text :=
  SignedTreeHead_ToASCII (cth_SignedTreeHead cth)
  ++ flat_map Cosignature_ToASCII (cth_Cosignatures cth).

(** Modelled from the spec: the three values of a cosignature line. *)
Definition Cosignature_decode (v : text) : result Cosignature :=
  match split_char SP v with
  | [kh; ts; sig] =>
      do keyHash <- HashFromHex kh;
      do timestamp <- ParseUint ts;
      do signature <- SignatureFromHex sig;
      Ok {| cs_KeyHash := keyHash; cs_Timestamp := timestamp;
            cs_Signature := signature |}
  | _ => Err ErrValueCount
  end.

(** Modelled from the spec: [SignedTreeHead.Parse]. *)
Definition SignedTreeHead_Parse (p : Parser) : result (SignedTreeHead * Parser) :=
  do (size, p) <- GetInt (txt "size") p;
  do (rootHash, p) <- GetHash (txt "root_hash") p;
  do (signature, p) <- GetSignature (txt "signature") p;
  Ok ({| sth_TreeHead := {| th_Size := size; th_RootHash := rootHash |};
         sth_Signature := signature |}, p).

(** Modelled from the spec: [CosignedTreeHead.FromASCII]. *)
Definition CosignedTreeHead_FromASCII (r : text) : result CosignedTreeHead :=
  let p := NewParser r in
  do (sth, p) <- SignedTreeHead_Parse p;
  do cosignatures <- GetRepeated (txt "cosignature") Cosignature_decode p;
  Ok {| cth_SignedTreeHead := sth; cth_Cosignatures := cosignatures |}.

(** Modelled from the spec: [InclusionProof.ToASCII] is not in the sources
    at hand; [leaf_index], [tree_size], then one [node_hash] line per path
    element (sections 4.4, 6). *)
Definition InclusionProof_ToASCII (pr : InclusionProof) : text :=
  WriteInt (txt "leaf_index") (ip_LeafIndex pr)
  ++ WriteInt (txt "tree_size") (ip_TreeSize pr)
  ++ flat_map (WriteHash (txt "node_hash")) (ip_Path pr).

(** Modelled from the spec: [InclusionProof.FromASCII]. *)
Definition InclusionProof_FromASCII (r : text) : result InclusionProof :=
  let p := NewParser r in
  do (leafIndex, p) <- GetInt (txt "leaf_index") p;
  do (treeSize, p) <- GetInt (txt "tree_size") p;
  do path <- GetRepeated (txt "node_hash") HashFromHex p;
  Ok {| ip_LeafIndex := leafIndex; ip_TreeSize := treeSize; ip_Path := path |}.

(** Modelled from the spec: [crypto.PublicKeyFromHex] is not in the sources
    at hand; by section 3 a public key is 32 bytes written in hex. *)
Definition PublicKeyFromHex (s : text) : result PublicKey :=
  decode_sized PublicKeySize s.

(** Modelled from the spec: [get_public_key(key)], as [get_hash]. *)
Definition GetPublicKey (name : text) (p : Parser)
  : result (PublicKey * Parser) :=
  do (v, p') <- next name p;
  do k <- PublicKeyFromHex v;
  Ok (k, p').

(** [split[len(split)-2]] and [split[len(split)-1]]; [None] when the slice
    has fewer than two elements. *)
Fixpoint last_two {A} (l : list A) : option (A * A) :=
  match l with
  | [] => None
  | a :: l' =>
      match l' with
      | [] => None
      | [b] => Some (a, b)
      | _ :: _ :: _ => last_two l'
      end
  end.

Definition SLASH : ascii := "/"%char.

(* ================================================================= *)
(** ** Package [requests] *)

Module requests.

Record Cosignature : Type := {
  KeyHash : Hash;
  Signature : list byte
}.

Definition Cosignature_ToASCII (req : Cosignature) : text :=
  WriteLineHex (txt "cosignature") (KeyHash req) [Signature req].


Record Leaf : Type := {
  Leaf_Message : Hash;
  Leaf_Signature : list byte;
  Leaf_PublicKey : PublicKey
}.


Record InclusionProof : Type := {
  Size : N;
  LeafHash : Hash
}.


Definition Leaf_ToASCII (req : Leaf) : text :=
  WriteLineHex (txt "message") (Leaf_Message req) []
  ++ WriteLineHex (txt "signature") (Leaf_Signature req) []
  ++ WriteLineHex (txt "public_key") (Leaf_PublicKey req) [].

Definition Leaf_FromASCII (r : text) : result Leaf :=
  let p := NewParser r in
  do (message, p) <- GetHash (txt "message") p;
  do (signature, p) <- GetSignature (txt "signature") p;
  do (publicKey, p) <- GetPublicKey (txt "public_key") p;
  do _ <- GetEOF p;
  Ok {| Leaf_Message := message; Leaf_Signature := signature;
        Leaf_PublicKey := publicKey |}.


Definition InclusionProof_ToURL (req : InclusionProof) (url : text) : text :=
  url ++ FormatUint (Size req) ++ [SLASH] ++ EncodeToString (LeafHash req).



Definition InclusionProof_FromURL (url : text) : result InclusionProof :=
  match last_two (split_char SLASH url) with
  | None => Err ErrNotEnoughInput
  | Some (treeSize, leafHash) =>
      do size <- ParseUint treeSize;
      do h <- HashFromHex leafHash;
      Ok {| Size := size; LeafHash := h |}
  end.


Section AddTreeHead.

(** [types.ConsistencyProof] and its [Parse] are not in the sources at
    hand; they are parameters. *)
Variable Proof : Type.
Variable Proof_Parse : Parser -> result (Proof * Parser).



End AddTreeHead.

End requests.

(* ================================================================= *)
(** ** Package [proof] *)

Definition SigsumProofVersion : N := 0.
Definition ShortChecksumSize : nat := 2.

Record ShortLeaf : Type := {
  sl_ShortChecksum : list byte;
  sl_Signature : Signature;
  sl_KeyHash : Hash
}.

Record SigsumProof : Type := {
  sp_LogKeyHash : Hash;
  sp_Leaf : ShortLeaf;
  sp_TreeHead : CosignedTreeHead;
  sp_Inclusion : InclusionProof
}.

Definition NewShortLeaf (leaf : Leaf) : ShortLeaf :=
  {| sl_ShortChecksum := firstn ShortChecksumSize (leaf_Checksum leaf);
     sl_Signature := leaf_Signature leaf;
     sl_KeyHash := leaf_KeyHash leaf |}.

Definition ShortLeaf_ToLeaf (l : ShortLeaf) (checksum : Hash) : result Leaf :=
  if negb (bytes_eqb (sl_ShortChecksum l) (firstn ShortChecksumSize checksum))
  then Err ErrChecksumMismatch
  else Ok {| leaf_Checksum := checksum; leaf_Signature := sl_Signature l;
             leaf_KeyHash := sl_KeyHash l |}.

Definition decodeShortChecksum (s : text) : result (list byte) :=
  match DecodeString s with
  | None => Err ErrSyntax
  | Some b =>
      if negb (Nat.eqb (length b) ShortChecksumSize) then Err ErrChecksumLength
      else Ok b
  end.

Definition ShortLeaf_Parse (p : Parser) : result (ShortLeaf * Parser) :=
  do (v, p) <- GetValues (txt "leaf") 3 p;
  match v with
  | [v0; v1; v2] =>
      do shortChecksum <- wrap_err ErrInvalidChecksum (decodeShortChecksum v0);
      do keyHash <- wrap_err ErrInvalidKeyHash (HashFromHex v1);
      do signature <- wrap_err ErrInvalidLeafSignature (SignatureFromHex v2);
      Ok ({| sl_ShortChecksum := shortChecksum; sl_Signature := signature;
             sl_KeyHash := keyHash |}, p)
  | _ => Panic
  end.

Definition ShortLeaf_ToASCII (l : ShortLeaf) : text :=
  WriteLine (txt "leaf") (HexValue (sl_ShortChecksum l))
    [HexValue (sl_KeyHash l); HexValue (sl_Signature l)].

(** [for i := range proofParts[:len-1] { proofParts[i] = append(..., '\n') }] *)
Fixpoint reapply_newline (proofParts : list text) : list text :=
  match proofParts with
  | [] => []
  | [final] => [final]
  | part :: more => (part ++ [LF]) :: reapply_newline more
  end.

Definition SigsumProof_FromASCII (data : text) : result SigsumProof :=
  let proofParts := split_blank data in
  if Nat.ltb (length proofParts) 2 then Err ErrInvalidProofTooFewParts
  else
    let proofParts := reapply_newline proofParts in
    match proofParts with
    | part0 :: part1 :: others =>
        let p := NewParser part0 in
        do (version, p) <- wrap_err ErrInvalidVersionLine
                             (GetInt (txt "version") p);
        if negb (version =? SigsumProofVersion)
        then Err (ErrUnexpectedVersion version)
        else
          do (logKeyHash, p) <- wrap_err ErrInvalidLogLine
                                  (GetHash (txt "log") p);
          do (leaf, p) <- ShortLeaf_Parse p;
          do _ <- GetEOF p;
          do treeHead <- CosignedTreeHead_FromASCII part1;
          if cth_Size treeHead =? 0 then Err ErrEmptyTree
          else if cth_Size treeHead =? 1 then
            if negb (Nat.eqb (length proofParts) 2) then Err ErrTooManyParts
            else Ok {| sp_LogKeyHash := logKeyHash; sp_Leaf := leaf;
                       sp_TreeHead := treeHead;
                       sp_Inclusion := InclusionProof_zero |}
          else if negb (Nat.eqb (length proofParts) 3) then Err ErrTooFewParts
          else
            match others with
            | part2 :: _ =>
                do inclusion <- InclusionProof_FromASCII part2;
                Ok {| sp_LogKeyHash := logKeyHash; sp_Leaf := leaf;
                      sp_TreeHead := treeHead; sp_Inclusion := inclusion |}
            | [] => Panic
            end
    | _ => Panic
    end.

Definition SigsumProof_ToASCII (sp : SigsumProof) : text :=
  WriteInt (txt "version") SigsumProofVersion
  ++ WriteHash (txt "log") (sp_LogKeyHash sp)
  ++ ShortLeaf_ToASCII (sp_Leaf sp)
  ++ [LF]
  ++ CosignedTreeHead_ToASCII (sp_TreeHead sp)
  ++ (if cth_Size (sp_TreeHead sp) <=? 1 then []
      else [LF] ++ InclusionProof_ToASCII (sp_Inclusion sp)).

(** The checks [Verify] makes, for the record of what a run performs. *)
Inductive check : Type :=
  | CheckChecksum
  | CheckKeyHash
  | CheckLeafSignature
  | CheckPolicy
  | CheckInclusion.

(** A computation together with the checks it performed, in order. *)
Definition checked (A : Type) : Type := (list check * result A)%type.

Definition perform {A} (c : check) (r : result A) : checked A := ([c], r).

Definition and_then {A B} (m : checked A) (k : A -> checked B) : checked B :=
  match m with
  | (done, Ok a) => let (later, r) := k a in (done ++ later, r)
  | (done, Err e) => (done, Err e)
  | (done, Panic) => (done, Panic)
  end.

Notation "'check!' x <- m ; k" := (and_then m (fun x => k))
  (at level 10, x pattern, m at level 100, k at level 200).

Section Verify.

Variable HashBytes : list byte -> Hash.

(** [types.Leaf.Verify]: the signature check of a leaf under the
    submitter's key and the namespace [tree-leaf:v0@sigsum.org]; Ed25519 is
    left abstract. *)
Variable Leaf_Verify : Leaf -> PublicKey -> bool.

(** [policy.Policy] and its method [VerifyCosignedTreeHead]. *)
Variable Policy : Type.
Variable VerifyCosignedTreeHead :
  Policy -> Hash -> CosignedTreeHead -> result unit.

(** Modelled from the spec: [types.Leaf.ToHash] is not in the sources at
    hand; section 3 gives [H(0x00 || checksum || signature || key_hash)]. *)
Definition Leaf_ToHash (l : Leaf) : Hash :=
  HashBytes (x00 :: leaf_Checksum l ++ leaf_Signature l ++ leaf_KeyHash l).

(** Modelled from the spec: [types.InclusionProof.Verify] is not in the
    sources at hand; section 4.6 runs [VerifyInclusion] on the leaf hash,
    the proof's index and path, and the size and root of the tree head it
    is handed. *)
Definition InclusionProof_Verify (pr : InclusionProof) (leaf : Hash)
  (th : TreeHead) : result unit :=
  VerifyInclusion HashBytes leaf (ip_LeafIndex pr) (th_Size th)
    (th_RootHash th) (ip_Path pr).

Definition SigsumProof_Verify_checked (sp : SigsumProof) (msg : Hash)
  (submitKey : PublicKey) (policy : Policy) : checked unit :=
  let checksum := HashBytes msg in
  check! leaf <- perform CheckChecksum (ShortLeaf_ToLeaf (sp_Leaf sp) checksum);
  check! _ <- perform CheckKeyHash
    (if negb (bytes_eqb (sl_KeyHash (sp_Leaf sp)) (HashBytes submitKey))
     then Err ErrSubmitKeyHash else Ok tt);
  check! _ <- perform CheckLeafSignature
    (if negb (Leaf_Verify leaf submitKey) then Err ErrLeafSignature else Ok tt);
  check! _ <- perform CheckPolicy
    (VerifyCosignedTreeHead policy (sp_LogKeyHash sp) (sp_TreeHead sp));
  let leafHash := Leaf_ToHash leaf in
  perform CheckInclusion
    (InclusionProof_Verify (sp_Inclusion sp) leafHash
       (sth_TreeHead (cth_SignedTreeHead (sp_TreeHead sp)))).

(** [SigsumProof.Verify]. *)
Definition SigsumProof_Verify (sp : SigsumProof) (msg : Hash)
  (submitKey : PublicKey) (policy : Policy) : result unit :=
  snd (SigsumProof_Verify_checked sp msg submitKey policy).

End Verify.

(* ================================================================= *)
(** ** Tree heads as [tree_head_test.go] has them *)

(** [binary.BigEndian.PutUint64]. *)
Definition PutUint64 (v : N) : list byte :=
  map (fun i => byte_of_N (N.shiftr v (8 * i))) [7; 6; 5; 4; 3; 2; 1; 0].

Module types_test.

(** The tree head the test file constructs: it carries a timestamp. *)
Record TreeHead : Type := {
  Timestamp : N;
  TreeSize : N;
  RootHash : Hash
}.

Record SignedTreeHead : Type := {
  sth_TreeHead : TreeHead;
  sth_Signature : list byte
}.

(** Modelled from the spec: [TreeHead.ToBinary] is not in the sources at
    hand; section 3 gives
    [timestamp(8) || size(8) || root_hash(32) || log_key_hash(32)]. *)
Definition ToBinary (th : TreeHead) (keyHash : Hash) : list byte :=
  PutUint64 (Timestamp th) ++ PutUint64 (TreeSize th)
  ++ RootHash th ++ keyHash.

Definition TreeHeadNamespace : text := txt "signed-tree-head:v0@sigsum.org".

Section Signing.

(** A signer, and signing and verification of a message under a
    namespace; Ed25519 is left abstract. *)
Variable Signer : Type.
Variable sign : Signer -> text -> list byte -> result (list byte).
Variable verify : PublicKey -> text -> list byte -> list byte -> bool.

(** Modelled from the spec: [TreeHead.Sign] is not in the sources at hand;
    sections 3 and 4.4: the byte layout of [ToBinary] is signed under the
    tree head namespace and the signed tree head is returned. *)
Definition Sign (th : TreeHead) (signer : Signer) (keyHash : Hash)
  : result SignedTreeHead :=
  do sig <- sign signer TreeHeadNamespace (ToBinary th keyHash);
  Ok {| sth_TreeHead := th; sth_Signature := sig |}.

(** Modelled from the spec: [SignedTreeHead.Verify] is not in the sources
    at hand; section 4.4: it reconstructs the message and verifies. *)
Definition Verify (sth : SignedTreeHead) (pub : PublicKey) (keyHash : Hash)
  : bool :=
  verify pub TreeHeadNamespace (ToBinary (sth_TreeHead sth) keyHash)
    (sth_Signature sth).

End Signing.

Section Fixtures.

(** The test helpers [newHashBufferInc] and [newSigBufferInc] are not in
    the sources at hand; the buffers they return are parameters. *)
Variable newHashBufferInc : Hash.
Variable newSigBufferInc : list byte.

Definition validTreeHead : TreeHead :=
  {| Timestamp := 72623859790382856; TreeSize := 257;
     RootHash := newHashBufferInc |}.

Definition validTreeHeadBytes (keyHash : Hash) : list byte :=
  [x01; x02; x03; x04; x05; x06; x07; x08]
  ++ [x00; x00; x00; x00; x00; x00; x01; x01]
  ++ newHashBufferInc
  ++ keyHash.


End Fixtures.

End types_test.

(* ================================================================= *)
(** ** The specification's own notions *)

(** The number of bits of [x]: zero for zero, else one more than the
    position of the highest bit set. *)
Definition bit_length (x : N) : N :=
  if x =? 0 then 0 else N.log2 x + 1.

(** The number of bit positions below 64 at which [x] has a one. *)
Definition popcount (x : N) : N :=
  N.of_nat (length (filter (fun i => N.testbit x (N.of_nat i)) (seq 0 64))).

Fixpoint take_while {A} (f : A -> bool) (l : list A) : list A :=
  match l with
  | [] => []
  | a :: l' => if f a then a :: take_while f l' else []
  end.

(** The number of zero bits below the lowest one bit, 64 for zero. *)
Definition trailing_zeros (x : N) : N :=
  N.of_nat (length (take_while (fun i => negb (N.testbit x (N.of_nat i)))
                      (seq 0 64))).

(** Section 4.3:
    [inclusion_path_length(i, n) = len(i ^ (n-1)) + popcount(i >> len(i ^ (n-1)))]. *)
Definition inclusion_path_length (i n : N) : N :=
  let k := bit_length (N.lxor i (n - 1)) in
  k + popcount (N.shiftr i k).

(** Section 4.3: [consistency_path_length(old, new)]. *)
Definition consistency_path_length (old new : N) : N :=
  let t := trailing_zeros old in
  let f := N.shiftr (old - 1) t in
  let s := N.shiftr (new - 1) t in
  inclusion_path_length f (s + 1) + (if 0 <? f then 1 else 0).

(** Section 4.3, the fold of [VerifyInclusion] in the specification's
    words: [fold_path H r fn sn path r'] holds when, starting from [r] at
    index [fn] with last index [sn], consuming [path] bottom-up ends in
    [r'] with [sn] shifted down to zero and the path exhausted. *)
Inductive fold_path (H_int : Hash -> Hash -> Hash)
  : Hash -> N -> N -> list Hash -> Hash -> Prop :=
  | fold_done r fn :
      fold_path H_int r fn 0 [] r
  | fold_left_sibling r fn sn p path r' :
      0 < sn -> N.odd fn = true ->
      fold_path H_int (H_int p r) (N.shiftr fn 1) (N.shiftr sn 1) path r' ->
      fold_path H_int r fn sn (p :: path) r'
  | fold_right_sibling r fn sn p path r' :
      0 < sn -> N.odd fn = false -> fn < sn ->
      fold_path H_int (H_int r p) (N.shiftr fn 1) (N.shiftr sn 1) path r' ->
      fold_path H_int r fn sn (p :: path) r'
  | fold_no_sibling r fn sn path r' :
      0 < sn -> N.odd fn = false -> sn <= fn ->
      fold_path H_int r (N.shiftr fn 1) (N.shiftr sn 1) path r' ->
      fold_path H_int r fn sn path r'.

(** The number of path elements the loops of [VerifyInclusion] and
    [VerifyConsistency] consume from index [fn] with last index [Npos p]. *)
Fixpoint siblings_pos (p : positive) (fn : N) : nat :=
  (if isOdd fn || (fn <? Npos p)%N then 1%nat else 0%nat)
  + match p with
    | xH => 0
    | xO q | xI q => siblings_pos q (N.shiftr fn 1)
    end.

Definition siblings (sn fn : N) : nat :=
  match sn with
  | N0 => 0%nat
  | Npos p => siblings_pos p fn
  end.

(** The path-length formula of [pathLength], on the last index [s] of the
    tree instead of its size. *)
Definition pl (a s : N) : N :=
  let k := Len64 (N.lxor a s) in k + OnesCount64 (N.shiftr a k).

(* ================================================================= *)
(** ** Lines and blocks of the wire format *)

(** The text of a sequence of lines, each closed by a line feed. *)
Definition unlines (ls : list text) : text :=
  flat_map (fun l => l ++ [LF]) ls.

(** The line [WriteLine] writes, without its line feed. *)
Definition line_of (key : text) (values : list value) : text :=
  key ++ [EQ] ++ join [SP] (map format_value values).

Definition no_char (c : ascii) (s : text) : bool :=
  forallb (fun d => negb (Ascii.eqb d c)) s.

(** A non-empty line without a line feed inside. *)
Definition good_line (l : text) : bool :=
  match l with
  | [] => false
  | _ :: _ => no_char LF l
  end.

Definition prepend (l : text) (pieces : list text) : list text :=
  match pieces with
  | [] => [l]
  | piece :: more => (l ++ piece) :: more
  end.


Definition SignedTreeHead_lines (sth : SignedTreeHead) : list text :=
  [line_of (txt "size") [IntValue (th_Size (sth_TreeHead sth))];
   line_of (txt "root_hash") [HexValue (th_RootHash (sth_TreeHead sth))];
   line_of (txt "signature") [HexValue (sth_Signature sth)]].

Definition Cosignature_line (cs : Cosignature) : text :=
  line_of (txt "cosignature")
    [HexValue (cs_KeyHash cs); IntValue (cs_Timestamp cs);
     HexValue (cs_Signature cs)].

Definition CosignedTreeHead_lines (cth : CosignedTreeHead) : list text :=
  SignedTreeHead_lines (cth_SignedTreeHead cth)
  ++ map Cosignature_line (cth_Cosignatures cth).

Definition node_hash_line (h : Hash) : text :=
  line_of (txt "node_hash") [HexValue h].

Definition InclusionProof_lines (pr : InclusionProof) : list text :=
  [line_of (txt "leaf_index") [IntValue (ip_LeafIndex pr)];
   line_of (txt "tree_size") [IntValue (ip_TreeSize pr)]]
  ++ map node_hash_line (ip_Path pr).

(** The lines of the first block of a proof bundle. *)
Definition header_lines (sp : SigsumProof) : list text :=
  [line_of (txt "version") [IntValue SigsumProofVersion];
   line_of (txt "log") [HexValue (sp_LogKeyHash sp)];
   line_of (txt "leaf")
     [HexValue (sl_ShortChecksum (sp_Leaf sp));
      HexValue (sl_KeyHash (sp_Leaf sp));
      HexValue (sl_Signature (sp_Leaf sp))]].

(* ================================================================= *)
(** ** Well-formed values: what the Go types guarantee *)

Definition wf_hash (h : Hash) : Prop := length h = HashSize.
Definition wf_signature (s : Signature) : Prop := length s = SignatureSize.
Definition wf_uint64 (n : N) : Prop := n < 2 ^ 64.

Definition wf_Cosignature (cs : Cosignature) : Prop :=
  wf_hash (cs_KeyHash cs) /\ wf_uint64 (cs_Timestamp cs)
  /\ wf_signature (cs_Signature cs).

Definition wf_CosignedTreeHead (cth : CosignedTreeHead) : Prop :=
  wf_uint64 (cth_Size cth)
  /\ wf_hash (th_RootHash (sth_TreeHead (cth_SignedTreeHead cth)))
  /\ wf_signature (sth_Signature (cth_SignedTreeHead cth))
  /\ Forall wf_Cosignature (cth_Cosignatures cth).

Definition wf_InclusionProof (pr : InclusionProof) : Prop :=
  wf_uint64 (ip_LeafIndex pr) /\ wf_uint64 (ip_TreeSize pr)
  /\ Forall wf_hash (ip_Path pr).

Definition wf_ShortLeaf (l : ShortLeaf) : Prop :=
  length (sl_ShortChecksum l) = ShortChecksumSize
  /\ wf_signature (sl_Signature l) /\ wf_hash (sl_KeyHash l).

Definition wf_SigsumProof (sp : SigsumProof) : Prop :=
  wf_hash (sp_LogKeyHash sp) /\ wf_ShortLeaf (sp_Leaf sp)
  /\ wf_CosignedTreeHead (sp_TreeHead sp)
  /\ wf_InclusionProof (sp_Inclusion sp).


(* ================================================================= *)
(** ** The forms of a cosignature line *)

Definition is_lower_hex (c : ascii) : bool :=
  let n := N_of_ascii c in
  ((48 <=? n) && (n <=? 57)) || ((97 <=? n) && (n <=? 102)).

Definition is_decimal_digit (c : ascii) : bool :=
  let n := N_of_ascii c in (48 <=? n) && (n <=? 57).


Definition decimal_field (s : text) : bool :=
  match s with
  | [] => false
  | _ :: _ => forallb is_decimal_digit s
  end.



(** Big-endian value of a byte sequence. *)
Definition be_value (bs : list byte) : N :=
  fold_left (fun acc b => 256 * acc + Byte.to_N b) bs 0.

(* ================================================================= *)
(** ** [encoding/base64]: the standard encoding with padding *)

Definition PAD : ascii := "="%char.
Definition CR : ascii := "013"%char.

(** The alphabet [A-Z a-z 0-9 + /] of RFC 4648. *)
Definition base64_char (i : N) : ascii :=
  ascii_of_N (if i <? 26 then 65 + i
              else if i <? 52 then 71 + i
              else if i <? 62 then i - 4
              else if i =? 62 then 43 else 47).

Definition base64_value (c : ascii) : option N :=
  let n := N_of_ascii c in
  if (65 <=? n) && (n <=? 90) then Some (n - 65)
  else if (97 <=? n) && (n <=? 122) then Some (n - 71)
  else if (48 <=? n) && (n <=? 57) then Some (n + 4)
  else if n =? 43 then Some 62
  else if n =? 47 then Some 63
  else None.

(** [base64.StdEncoding.EncodeToString]: three bytes give four characters,
    a final group of one or two bytes is padded with [=]. *)
Fixpoint base64_encode (src : list byte) : text :=
  match src with
  | [] => []
  | b1 :: src1 =>
      match src1 with
      | [] =>
          let v := Byte.to_N b1 * 65536 in
          [base64_char (v / 262144); base64_char (v / 4096 mod 64); PAD; PAD]
      | b2 :: src2 =>
          match src2 with
          | [] =>
              let v := Byte.to_N b1 * 65536 + Byte.to_N b2 * 256 in
              [base64_char (v / 262144); base64_char (v / 4096 mod 64);
               base64_char (v / 64 mod 64); PAD]
          | b3 :: rest =>
              let v := Byte.to_N b1 * 65536 + Byte.to_N b2 * 256
                       + Byte.to_N b3 in
              base64_char (v / 262144) :: base64_char (v / 4096 mod 64)
              :: base64_char (v / 64 mod 64) :: base64_char (v mod 64)
              :: base64_encode rest
          end
      end
  end.

(** The groups of four characters of a padded text; padding is accepted
    in the last group only, and the bits of a padded group that do not
    belong to a byte are not looked at. *)
Fixpoint base64_quanta (s : text) : option (list byte) :=
  match s with
  | [] => Some []
  | c1 :: c2 :: c3 :: c4 :: rest =>
      match base64_value c1, base64_value c2 with
      | Some d1, Some d2 =>
          if Ascii.eqb c3 PAD then
            if Ascii.eqb c4 PAD then
              match rest with
              | [] => Some [byte_of_N ((d1 * 64 + d2) / 16)]
              | _ :: _ => None
              end
            else None
          else
            match base64_value c3 with
            | None => None
            | Some d3 =>
                let v3 := (d1 * 64 + d2) * 64 + d3 in
                if Ascii.eqb c4 PAD then
                  match rest with
                  | [] => Some [byte_of_N (v3 / 1024); byte_of_N (v3 / 4)]
                  | _ :: _ => None
                  end
                else
                  match base64_value c4, base64_quanta rest with
                  | Some d4, Some bs =>
                      let v := v3 * 64 + d4 in
                      Some (byte_of_N (v / 65536) :: byte_of_N (v / 256)
                            :: byte_of_N v :: bs)
                  | _, _ => None
                  end
            end
      | _, _ => None
      end
  | _ => None
  end.

(** [base64.StdEncoding.DecodeString]: carriage returns and line feeds are
    skipped. *)
Definition base64_decode (s : text) : option (list byte) :=
  base64_quanta
    (filter (fun c => negb (Ascii.eqb c CR || Ascii.eqb c LF)) s).

(* ================================================================= *)
(** ** Package [checkpoint]: signature lines of signed notes *)

Module checkpoint.

Definition sigTypeEd25519 : byte := x01.
Definition sigTypeCosignature : byte := x04.

(** [KeyId] is [[4]byte]. *)
Definition KeyId : Type := list byte.

(** [[]byte(s)] for a string. *)
Definition bytes_of_text (s : text) : list byte := map byte_of_ascii s.

(** The bytes of ["—"], an em dash in UTF-8. *)
Definition EM_DASH : text := [ascii_of_N 226; ascii_of_N 128; ascii_of_N 148].

Section KeyIds.

Variable HashBytes : list byte -> Hash.

Definition makeKeyId (keyName : text) (sigType : byte)
  (publicKey : PublicKey) : KeyId :=
  firstn 4 (HashBytes (bytes_of_text keyName ++ [x0a; sigType] ++ publicKey)).

Definition NewLogKeyId (keyName : text) (publicKey : PublicKey) : KeyId :=
  makeKeyId keyName sigTypeEd25519 publicKey.

Definition NewWitnessKeyId (keyName : text) (publicKey : PublicKey) : KeyId :=
  makeKeyId keyName sigTypeCosignature publicKey.

End KeyIds.

(** [fmt.Fprintf(w, "— %s %s\n", keyName, base64(keyId || signature))]. *)
Definition writeNoteSignature (keyName : text) (keyId : KeyId)
  (signature : list byte) : text :=
  EM_DASH ++ [SP] ++ keyName ++ [SP] ++ base64_encode (keyId ++ signature)
  ++ [LF].

(** The input is one signature line without its line feed; the result is
    the key name, the key id and the signature blob. *)
Definition parseNoteSignature (line : text) (signatureSize : nat)
  : result (text * KeyId * list byte) :=
  match split_char SP line with
  | [f0; f1; f2] =>
      if negb (text_eqb f0 EM_DASH) then Err ErrInvalidSignatureLine
      else
        match base64_decode f2 with
        | None => Err ErrCorruptInput
        | Some blob =>
            if negb (Nat.eqb (length blob) (4 + signatureSize))
            then Err ErrUnwantedSignature
            else Ok (f1, firstn 4 blob, skipn 4 blob)
        end
  | _ => Err ErrInvalidSignatureLine
  end.

Definition WriteEd25519Signature (origin : text) (keyId : KeyId)
  (signature : Signature) : text :=
  writeNoteSignature origin keyId signature.

Definition ParseEd25519SignatureLine (line keyName : text)
  : result (KeyId * Signature) :=
  do (name, keyId, blob) <- parseNoteSignature line SignatureSize;
  if negb (text_eqb name keyName) then Err ErrUnwantedSignature
  else Ok (keyId, blob).

Definition WriteCosignature (keyName : text) (keyId : KeyId) (timestamp : N)
  (sig : Signature) : text :=
  writeNoteSignature keyName keyId (PutUint64 timestamp ++ sig).

(** [ParseCosignature]; [binary.BigEndian.Uint64] is [be_value] on the
    first eight bytes of the blob. *)
Definition ParseCosignature (HashBytes : list byte -> Hash) (line : text)
  (publicKey : PublicKey) : result Cosignature :=
  do (keyName, keyId, blob) <- parseNoteSignature line (8 + SignatureSize);
  if negb (bytes_eqb keyId
             (makeKeyId HashBytes keyName sigTypeCosignature publicKey))
  then Err ErrUnwantedSignature
  else Ok {| cs_KeyHash := HashBytes publicKey;
             cs_Timestamp := be_value (firstn 8 blob);
             cs_Signature := skipn 8 blob |}.

End checkpoint.

(* ================================================================= *)
(** ** Sample values, for instances of the statements below *)

(** A stand-in for SHA-256: the first 32 bytes of the zero-padded input. *)
Definition sample_hash (bs : list byte) : Hash := firstn 32 (bs ++ repeat x00 32).

Definition sample_leaf_verify (l : Leaf) (k : PublicKey) : bool :=
  bytes_eqb (leaf_Signature l) k.

Definition sample_policy (p : unit) (logKeyHash : Hash)
  (cth : CosignedTreeHead) : result unit :=
  Err (ErrPolicy 1).

Definition sample_proof : SigsumProof :=
  {| sp_LogKeyHash := repeat x00 32;
     sp_Leaf := {| sl_ShortChecksum := [x05; x06];
                   sl_Signature := [x0a];
                   sl_KeyHash := sample_hash [x0a] |};
     sp_TreeHead :=
       {| cth_SignedTreeHead :=
            {| sth_TreeHead := {| th_Size := 1; th_RootHash := repeat x00 32 |};
               sth_Signature := repeat x00 64 |};
          cth_Cosignatures := [] |};
     sp_Inclusion := InclusionProof_zero |}.

Definition sample_cosigned_tree_head (size : N) : CosignedTreeHead :=
  {| cth_SignedTreeHead :=
       {| sth_TreeHead := {| th_Size := size; th_RootHash := repeat xab 32 |};
          sth_Signature := repeat x0f 64 |};
     cth_Cosignatures :=
       [{| cs_KeyHash := repeat x11 32; cs_Timestamp := 1700000000;
           cs_Signature := repeat x22 64 |}] |}.

(** A proof bundle for a tree of [size] leaves with the inclusion proof
    [inclusion]. *)
Definition sample_bundle (size : N) (inclusion : InclusionProof) : SigsumProof :=
  {| sp_LogKeyHash := repeat xcd 32;
     sp_Leaf := {| sl_ShortChecksum := [x01; x02];
                   sl_Signature := repeat x33 64;
                   sl_KeyHash := repeat x44 32 |};
     sp_TreeHead := sample_cosigned_tree_head size;
     sp_Inclusion := inclusion |}.


Definition sample_signer (key : list byte) (namespace : text)
  (msg : list byte) : result (list byte) :=
  Ok (firstn 64 (key ++ msg ++ repeat x00 64)).

Definition sample_verify (pub : PublicKey) (namespace : text)
  (msg sig : list byte) : bool :=
  bytes_eqb sig (firstn 64 (pub ++ msg ++ repeat x00 64)).

(* ================================================================= *)
(** ** A number of iterations of the inclusion loop *)

(** The first [j] iterations of the loop of [VerifyInclusion], without the
    test [sn > 0]. *)
Fixpoint inclusion_steps (HashBytes : list byte -> Hash) (j : nat)
  (sn fn : N) (r : Hash) (path : list Hash) : option (Hash * list Hash) :=
  match j with
  | O => Some (r, path)
  | S j' =>
      match inclusion_step HashBytes sn fn r path with
      | None => None
      | Some (r', path') =>
          inclusion_steps HashBytes j' (N.shiftr sn 1) (N.shiftr fn 1) r' path'
      end
  end.

(** The number of path elements these [j] iterations consume. *)
Fixpoint steps_count (j : nat) (sn fn : N) : nat :=
  match j with
  | O => 0%nat
  | S j' =>
      ((if isOdd fn || (fn <? sn)%N then 1%nat else 0%nat)
       + steps_count j' (N.shiftr sn 1) (N.shiftr fn 1))%nat
  end.

(* ================================================================= *)
(** ** Blank lines, and the errors of the line codec *)

(** Two line feeds in a row somewhere in the text. *)
Fixpoint has_blank_line (s : text) : bool :=
  match s with
  | [] => false
  | c :: s' =>
      match s' with
      | [] => false
      | d :: _ => (Ascii.eqb c LF && Ascii.eqb d LF) || has_blank_line s'
      end
  end.

(** The errors of the line parser and of the decoders of values. *)
Definition is_codec_error (e : error) : bool :=
  match e with
  | ErrEOF | ErrInvalidLine | ErrUnexpectedKey | ErrSyntax | ErrRange
  | ErrLength | ErrValueCount | ErrGarbage => true
  | _ => false
  end.

(* ================================================================= *)
(** ** Characters of values *)

(** A character that is none of line feed, space and equals sign. *)
Definition plain (c : ascii) : bool :=
  negb (Ascii.eqb c LF) && negb (Ascii.eqb c SP) && negb (Ascii.eqb c EQ).

(* ================================================================= *)
(* ================================================================= *)
(** * Properties *)


(* ================================================================= *)
(** * Machine integers *)

Lemma sub64_one (a : N) : 0 < a -> a < 2 ^ 64 -> sub64 a 1 = a - 1.
Proof.
  intros Hpos Hlt. unfold sub64, wrap64.
  replace (a + 2 ^ 64 - 1) with ((a - 1) + 1 * 2 ^ 64) by lia.
  rewrite N.Div0.mod_add. apply N.mod_small. lia.
Qed.

Lemma add64_small (a b : N) : a + b < 2 ^ 64 -> add64 a b = a + b.
Proof. intros H. unfold add64, wrap64. now apply N.mod_small. Qed.

Lemma isOdd_odd (n : N) : isOdd n = N.odd n.
Proof. destruct n as [|[p|p|]]; reflexivity. Qed.

Lemma isEven_even (n : N) : isEven n = negb (N.odd n).
Proof. destruct n as [|[p|p|]]; reflexivity. Qed.

Lemma shiftr1_div2 (n : N) : N.shiftr n 1 = N.div2 n.
Proof. symmetry. apply N.div2_spec. Qed.

Lemma div2_le_mono (a s : N) : a <= s -> N.div2 a <= N.div2 s.
Proof. intros H. rewrite !N.div2_div. apply N.Div0.div_le_mono. lia. Qed.

Lemma Len64_0 : Len64 0 = 0.
Proof. reflexivity. Qed.

Lemma Len64_step (x : N) : x <> 0 -> Len64 x = 1 + Len64 (N.div2 x).
Proof.
  destruct x as [|[p|p|]]; intros H; try easy; unfold Len64;
    cbn [N.div2 N.size Pos.size]; lia.
Qed.

Lemma OnesCount64_step (x : N) :
  OnesCount64 x = N.b2n (N.odd x) + OnesCount64 (N.div2 x).
Proof.
  destruct x as [|[p|p|]];
    cbn [OnesCount64 pos_ones N.div2]; unfold N.odd, N.even;
    cbn [negb N.b2n]; lia.
Qed.

Lemma lxor_div2 (a b : N) : N.div2 (N.lxor a b) = N.lxor (N.div2 a) (N.div2 b).
Proof. rewrite !N.div2_spec. apply N.shiftr_lxor. Qed.

Lemma lxor_odd (a b : N) : N.odd (N.lxor a b) = xorb (N.odd a) (N.odd b).
Proof. rewrite <- !N.bit0_odd. apply N.lxor_spec. Qed.

Lemma shiftr_succ_div2 (a k : N) : N.shiftr a (1 + k) = N.shiftr (N.div2 a) k.
Proof. rewrite N.div2_spec, N.shiftr_shiftr. reflexivity. Qed.

Lemma pl_0 (a : N) : a <= 0 -> pl a 0 = 0.
Proof. intros H. assert (a = 0) by lia. subst. reflexivity. Qed.

Lemma pl_step (a s : N) :
  s <> 0 -> a <= s ->
  pl a s = N.b2n (isOdd a || (a <? s)) + pl (N.div2 a) (N.div2 s).
Proof.
  intros Hs Hle. unfold pl. rewrite isOdd_odd.
  pose proof (lxor_div2 a s) as Hd. pose proof (lxor_odd a s) as Ho.
  pose proof (N.div2_odd a) as Ea. pose proof (N.div2_odd s) as Es.
  destruct (N.eq_dec (N.lxor (N.div2 a) (N.div2 s)) 0) as [Hz|Hnz].
  - rewrite Hz. rewrite Len64_0, N.shiftr_0_r, N.add_0_l.
    apply N.lxor_eq in Hz.
    destruct (N.eq_dec a s) as [Heq|Hne].
    + subst s. rewrite N.lxor_nilpotent, Len64_0, N.shiftr_0_r, N.add_0_l.
      rewrite N.ltb_irrefl, orb_false_r. apply OnesCount64_step.
    + assert (Hodd : N.odd a = false /\ N.odd s = true).
      { destruct (N.odd a), (N.odd s); simpl N.b2n in *; split; try reflexivity; lia. }
      destruct Hodd as [Hoa Hos].
      assert (Hx : N.lxor a s = 1).
      { rewrite (N.div2_odd (N.lxor a s)), Hd, Ho, Hz, N.lxor_nilpotent, Hoa, Hos.
        reflexivity. }
      rewrite Hx. change (Len64 1) with 1. rewrite shiftr1_div2.
      assert (Hlt : (a <? s) = true) by (apply N.ltb_lt; lia).
      rewrite Hlt, Hoa. simpl. reflexivity.
  - assert (Hx : N.lxor a s <> 0).
    { intros Hx. apply Hnz. rewrite <- Hd, Hx. reflexivity. }
    rewrite (Len64_step _ Hx), Hd.
    rewrite shiftr_succ_div2.
    assert (Hlt : (a <? s) = true).
    { apply N.ltb_lt. destruct (N.eq_dec a s) as [->|]; [|lia].
      rewrite N.lxor_nilpotent in Hx. contradiction. }
    rewrite Hlt, orb_true_r. simpl N.b2n. lia.
Qed.

Lemma siblings_step (p : positive) (fn : N) :
  siblings (Npos p) fn
  = ((if isOdd fn || (fn <? Npos p)%N then 1%nat else 0%nat)
     + siblings (N.div2 (Npos p)) (N.div2 fn))%nat.
Proof. destruct p; simpl; rewrite ?shiftr1_div2; try reflexivity. Qed.

Lemma siblings_pl (sn fn : N) :
  fn <= sn -> N.of_nat (siblings sn fn) = pl fn sn.
Proof.
  destruct sn as [|p].
  - intros H. rewrite pl_0 by exact H. reflexivity.
  - revert fn.
    induction p as [q IH|q IH|]; intros fn Hle;
      rewrite pl_step by (try discriminate; exact Hle);
      rewrite siblings_step; rewrite Nat2N.inj_add.
    + simpl N.div2. rewrite IH by (apply (div2_le_mono fn (Npos q~1)); exact Hle).
      destruct (isOdd fn || (fn <? N.pos q~1)); reflexivity.
    + simpl N.div2. rewrite IH by (apply (div2_le_mono fn (Npos q~0)); exact Hle).
      destruct (isOdd fn || (fn <? N.pos q~0)); reflexivity.
    + simpl N.div2. rewrite pl_0 by (apply (div2_le_mono fn 1); exact Hle).
      destruct (isOdd fn || (fn <? 1)); reflexivity.
Qed.

Lemma pathLength_pl (index size : N) :
  0 < size -> size < 2 ^ 64 -> pathLength index size = pl index (size - 1).
Proof. intros H1 H2. unfold pathLength, pl. rewrite sub64_one by assumption. reflexivity. Qed.

Lemma inclusionPathLength_pathLength (index size : N) :
  inclusionPathLength index size = pathLength index size.
Proof. reflexivity. Qed.

(* ================================================================= *)
(** * Equality tests *)

Lemma bytes_eqb_eq (a b : list byte) : bytes_eqb a b = true <-> a = b.
Proof.
  revert b. induction a as [|x a IH]; intros [|y b]; simpl; try easy.
  rewrite andb_true_iff, IH. split.
  - intros [Hxy ->]. apply byte_dec_bl in Hxy. now subst.
  - intros [= -> ->]. split; [apply byte_dec_lb|]; reflexivity.
Qed.

Lemma bytes_eqb_refl (a : list byte) : bytes_eqb a a = true.
Proof. now apply bytes_eqb_eq. Qed.

Lemma pathEqual_eq (a b : list Hash) : pathEqual a b = true <-> a = b.
Proof.
  revert b. induction a as [|h a IH]; intros [|g b]; simpl; try easy.
  rewrite andb_true_iff, IH, bytes_eqb_eq. split.
  - now intros [-> ->].
  - now intros [= -> ->].
Qed.

(* ================================================================= *)
(** * The loops consume exactly [siblings] path elements *)

Section MerkleFacts.

Variable HashBytes : list byte -> Hash.

Let H_int := HashInteriorNode HashBytes.

Lemma inclusion_loop_pos_exact (p : positive) :
  forall fn r path,
    length path = siblings_pos p fn ->
    exists r', inclusion_loop_pos HashBytes p fn r path = Some (r', []).
Proof.
  induction p as [q IH|q IH|]; intros fn r path Hlen; simpl in Hlen |- *;
    unfold inclusion_step;
    destruct (isOdd fn) eqn:Hodd; simpl in Hlen |- *.
  1, 3: destruct path as [|p0 path]; [discriminate|];
        apply IH; simpl in Hlen; lia.
  3: { destruct path as [|p0 [|]]; try discriminate. eauto. }
  3: { destruct (fn <? 1); simpl in Hlen.
       - destruct path as [|p0 [|]]; try discriminate. eauto.
       - destruct path; try discriminate. eauto. }
  - destruct (fn <? N.pos q~1); simpl in Hlen.
    + destruct path as [|p0 path]; [discriminate|]. apply IH. simpl in Hlen. lia.
    + apply IH. lia.
  - destruct (fn <? N.pos q~0); simpl in Hlen.
    + destruct path as [|p0 path]; [discriminate|]. apply IH. simpl in Hlen. lia.
    + apply IH. lia.
Qed.

Lemma inclusion_loop_exact (sn fn : N) (r : Hash) (path : list Hash) :
  length path = siblings sn fn ->
  exists r', inclusion_loop HashBytes sn fn r path = Some (r', []).
Proof.
  destruct sn as [|p]; simpl.
  - destruct path; [eauto|discriminate].
  - apply inclusion_loop_pos_exact.
Qed.

Lemma consistency_loop_pos_exact (p : positive) :
  forall fn fr sr path,
    length path = siblings_pos p fn ->
    exists fr' sr',
      consistency_loop_pos HashBytes p fn fr sr path = Some (fr', sr', []).
Proof.
  induction p as [q IH|q IH|]; intros fn fr sr path Hlen; simpl in Hlen |- *;
    unfold consistency_step;
    destruct (isOdd fn) eqn:Hodd; simpl in Hlen |- *.
  1, 3: destruct path as [|p0 path]; [discriminate|];
        apply IH; simpl in Hlen; lia.
  3: { destruct path as [|p0 [|]]; try discriminate. eauto. }
  3: { destruct (fn <? 1); simpl in Hlen.
       - destruct path as [|p0 [|]]; try discriminate. eauto.
       - destruct path; try discriminate. eauto. }
  - destruct (fn <? N.pos q~1); simpl in Hlen.
    + destruct path as [|p0 path]; [discriminate|]. apply IH. simpl in Hlen. lia.
    + apply IH. lia.
  - destruct (fn <? N.pos q~0); simpl in Hlen.
    + destruct path as [|p0 path]; [discriminate|]. apply IH. simpl in Hlen. lia.
    + apply IH. lia.
Qed.

Lemma consistency_loop_exact (sn fn : N) (fr sr : Hash) (path : list Hash) :
  length path = siblings sn fn ->
  exists fr' sr',
    consistency_loop HashBytes sn fn fr sr path = Some (fr', sr', []).
Proof.
  destruct sn as [|p]; simpl.
  - destruct path; [eauto|discriminate].
  - apply consistency_loop_pos_exact.
Qed.

(** What the loop of [VerifyInclusion] computes is the fold of the
    specification. *)
Lemma inclusion_loop_pos_fold (p : positive) :
  forall fn r path r',
    inclusion_loop_pos HashBytes p fn r path = Some (r', []) ->
    fold_path H_int r fn (Npos p) path r'.
Proof.
  assert (Hstep : forall sn fn r path r1 path1,
            0 < sn ->
            inclusion_step HashBytes sn fn r path = Some (r1, path1) ->
            forall r',
              fold_path H_int r1 (N.shiftr fn 1) (N.shiftr sn 1) path1 r' ->
              fold_path H_int r fn sn path r').
  { intros sn fn r path r1 path1 Hsn Hs r' Hf. unfold inclusion_step in Hs.
    rewrite isOdd_odd in Hs.
    destruct (N.odd fn) eqn:Hodd.
    - destruct path as [|p0 path]; [discriminate|]. injection Hs as <- <-.
      now apply fold_left_sibling.
    - destruct (fn <? sn) eqn:Hlt.
      + destruct path as [|p0 path]; [discriminate|]. injection Hs as <- <-.
        apply fold_right_sibling; try assumption. now apply N.ltb_lt.
      + injection Hs as <- <-.
        apply fold_no_sibling; try assumption. now apply N.ltb_ge. }
  induction p as [q IH|q IH|]; intros fn r path r' Hloop; simpl in Hloop;
    destruct (inclusion_step HashBytes _ fn r path) as [[r1 path1]|] eqn:Hs;
    try discriminate.
  - eapply Hstep; [reflexivity|exact Hs|].
    rewrite shiftr1_div2. apply IH in Hloop. exact Hloop.
  - eapply Hstep; [reflexivity|exact Hs|].
    rewrite shiftr1_div2. apply IH in Hloop. exact Hloop.
  - eapply Hstep; [reflexivity|exact Hs|]. injection Hloop as <- ->.
    apply fold_done.
Qed.

Lemma inclusion_loop_fold (sn fn : N) (r : Hash) (path : list Hash) (r' : Hash) :
  inclusion_loop HashBytes sn fn r path = Some (r', []) ->
  fold_path H_int r fn sn path r'.
Proof.
  destruct sn as [|p]; simpl.
  - intros [= <- ->]. apply fold_done.
  - apply inclusion_loop_pos_fold.
Qed.

(** The fold of the specification is a function of its inputs. *)
Lemma fold_path_functional r fn sn path r1 :
  fold_path H_int r fn sn path r1 ->
  forall r2, fold_path H_int r fn sn path r2 -> r1 = r2.
Proof.
  induction 1 as [r fn|r fn sn p path r' Hsn Hodd _ IH
                 |r fn sn p path r' Hsn Hodd Hlt _ IH
                 |r fn sn path r' Hsn Hodd Hge _ IH];
    intros r2 H2; inversion H2; subst; try lia; try congruence; auto.
Qed.

End MerkleFacts.

(* ================================================================= *)
(** * [math/bits] against the specification's notions *)

Lemma Len64_bit_length (x : N) : Len64 x = bit_length x.
Proof.
  unfold Len64, bit_length. destruct (N.eqb_spec x 0) as [->|Hx].
  - reflexivity.
  - rewrite N.size_log2 by exact Hx. lia.
Qed.

Lemma testbit_succ_div2 (x : N) (i : nat) :
  N.testbit x (N.of_nat (S i)) = N.testbit (N.div2 x) (N.of_nat i).
Proof. rewrite Nat2N.inj_succ. symmetry. apply N.testbit_div2. Qed.

Lemma filter_seq_shift (f : nat -> bool) (start n : nat) :
  length (filter f (seq (S start) n))
  = length (filter (fun i => f (S i)) (seq start n)).
Proof.
  revert start. induction n as [|n IH]; intros start; simpl; [reflexivity|].
  destruct (f (S start)); simpl; rewrite IH; reflexivity.
Qed.

Lemma ones_below (n : nat) :
  forall x, x < 2 ^ N.of_nat n ->
    OnesCount64 x
    = N.of_nat (length (filter (fun i => N.testbit x (N.of_nat i)) (seq 0 n))).
Proof.
  induction n as [|n IH]; intros x Hx.
  - simpl in Hx. assert (x = 0) by lia. subst. reflexivity.
  - rewrite OnesCount64_step.
    cbn [seq filter]. change (N.of_nat 0) with 0. rewrite (N.bit0_odd x).
    assert (Hd : N.div2 x < 2 ^ N.of_nat n).
    { rewrite Nat2N.inj_succ, N.pow_succ_r' in Hx.
      pose proof (N.div2_odd x). destruct (N.odd x); simpl N.b2n in *; lia. }
    rewrite (IH _ Hd).
    assert (Hrest :
      length (filter (fun i => N.testbit x (N.of_nat i)) (seq 1 n))
      = length (filter (fun i => N.testbit (N.div2 x) (N.of_nat i)) (seq 0 n))).
    { rewrite filter_seq_shift. f_equal. apply filter_ext.
      intros i. apply testbit_succ_div2. }
    destruct (N.odd x); cbn [length N.b2n]; rewrite Hrest; lia.
Qed.

Lemma OnesCount64_popcount (x : N) : x < 2 ^ 64 -> OnesCount64 x = popcount x.
Proof. intros Hx. unfold popcount. now apply (ones_below 64). Qed.

Lemma take_while_seq_shift (f : nat -> bool) (start n : nat) :
  length (take_while f (seq (S start) n))
  = length (take_while (fun i => f (S i)) (seq start n)).
Proof.
  revert start. induction n as [|n IH]; intros start; simpl; [reflexivity|].
  destruct (f (S start)); simpl; [rewrite IH|]; reflexivity.
Qed.

Lemma take_while_ext {A} (f g : A -> bool) (l : list A) :
  (forall a, f a = g a) -> take_while f l = take_while g l.
Proof.
  intros Hfg. induction l as [|a l IH]; simpl; [reflexivity|].
  rewrite Hfg, IH. reflexivity.
Qed.

Lemma zeros_below (n : nat) :
  forall x, 0 < x -> x < 2 ^ N.of_nat n ->
    TrailingZeros64 x
    = N.of_nat (length (take_while (fun i => negb (N.testbit x (N.of_nat i)))
                          (seq 0 n))).
Proof.
  induction n as [|n IH]; intros x Hpos Hx.
  - simpl in Hx. lia.
  - cbn [seq take_while]. change (N.of_nat 0) with 0. rewrite (N.bit0_odd x).
    destruct x as [|[p|p|]]; try lia; try reflexivity.
    change (N.odd (N.pos p~0)) with false. cbn [negb length].
    rewrite take_while_seq_shift.
    rewrite (take_while_ext _
               (fun i => negb (N.testbit (N.pos p) (N.of_nat i))))
      by (intros i; f_equal; apply (testbit_succ_div2 (N.pos p~0))).
    rewrite Nat2N.inj_succ, <- IH.
    + cbn [TrailingZeros64 pos_trailing_zeros]. lia.
    + lia.
    + rewrite Nat2N.inj_succ, N.pow_succ_r' in Hx. lia.
Qed.

Lemma TrailingZeros64_trailing_zeros (x : N) :
  x < 2 ^ 64 -> TrailingZeros64 x = trailing_zeros x.
Proof.
  intros Hx. destruct (N.eq_dec x 0) as [->|Hnz].
  - reflexivity.
  - unfold trailing_zeros. apply (zeros_below 64); [lia|exact Hx].
Qed.

Lemma shiftr_lt (x k : N) : x < 2 ^ 64 -> N.shiftr x k < 2 ^ 64.
Proof.
  intros Hx. rewrite N.shiftr_div_pow2.
  apply N.le_lt_trans with x; [|exact Hx].
  apply N.Div0.div_le_upper_bound.
  assert (0 < 2 ^ k) by (apply N.neq_0_lt_0, N.pow_nonzero; discriminate).
  nia.
Qed.

Lemma pl_inclusion_path_length (index size : N) :
  0 < size -> index < 2 ^ 64 ->
  pl index (size - 1) = inclusion_path_length index size.
Proof.
  intros Hs Hi. unfold pl, inclusion_path_length.
  rewrite Len64_bit_length, OnesCount64_popcount; [reflexivity|].
  now apply shiftr_lt.
Qed.

Lemma pathLength_spec (index size : N) :
  0 < size -> size < 2 ^ 64 -> index < 2 ^ 64 ->
  pathLength index size = inclusion_path_length index size.
Proof.
  intros. rewrite pathLength_pl by assumption.
  now apply pl_inclusion_path_length.
Qed.

(* ================================================================= *)
(** * Inclusion proofs *)

Section InclusionTheorems.

Variable HashBytes : list byte -> Hash.

Lemma VerifyInclusion_out_of_range leaf index size root path :
  size <= index ->
  VerifyInclusion HashBytes leaf index size root path = Err ErrMalformedIndex.
Proof.
  intros H. unfold VerifyInclusion.
  apply N.leb_le in H. rewrite H. reflexivity.
Qed.

Lemma VerifyInclusion_wrong_length leaf index size root path :
  index < size ->
  N.of_nat (length path) <> pathLength index size ->
  VerifyInclusion HashBytes leaf index size root path
  = Err ErrMalformedPathLength.
Proof.
  intros Hlt Hlen. unfold VerifyInclusion.
  apply N.leb_gt in Hlt. rewrite Hlt.
  rewrite inclusionPathLength_pathLength.
  apply N.eqb_neq in Hlen. rewrite Hlen. reflexivity.
Qed.

Lemma VerifyInclusion_right_length leaf index size root path :
  index < size -> size < 2 ^ 64 ->
  N.of_nat (length path) = pathLength index size ->
  exists r,
    inclusion_loop HashBytes (size - 1) index leaf path = Some (r, [])
    /\ VerifyInclusion HashBytes leaf index size root path
       = if bytes_eqb r root then Ok tt else Err ErrRootMismatch.
Proof.
  intros Hlt Hsize Hlen. unfold VerifyInclusion.
  pose proof Hlt as Hleb. apply N.leb_gt in Hleb. rewrite Hleb.
  rewrite inclusionPathLength_pathLength.
  pose proof Hlen as Heqb. apply N.eqb_eq in Heqb. rewrite Heqb. simpl.
  rewrite sub64_one by lia.
  rewrite pathLength_pl in Hlen by lia.
  rewrite <- siblings_pl in Hlen by lia. apply Nat2N.inj in Hlen.
  destruct (inclusion_loop_exact HashBytes (size - 1) index leaf path Hlen)
    as [r Hloop].
  exists r. split; [exact Hloop|]. rewrite Hloop.
  destruct (bytes_eqb r root); reflexivity.
Qed.

End InclusionTheorems.

(** C2. [VerifyInclusion] rejects an index outside the tree and a path whose
    length is not [inclusion_path_length index size] as malformed; otherwise
    it folds the path bottom-up from the leaf as section 4.3 describes and
    accepts exactly when the folded hash is the root.  For a tree of one
    leaf the empty path is the only one accepted, and then exactly when the
    leaf equals the root. *)
Theorem VerifyInclusion_correct (HashBytes : list byte -> Hash)
  (leaf : Hash) (index size : N) (root : Hash) (path : list Hash) :
  index < 2 ^ 64 -> size < 2 ^ 64 ->
  (size <= index ->
   VerifyInclusion HashBytes leaf index size root path = Err ErrMalformedIndex)
  /\ (index < size ->
      N.of_nat (length path) <> inclusion_path_length index size ->
      VerifyInclusion HashBytes leaf index size root path
      = Err ErrMalformedPathLength)
  /\ (index < size ->
      N.of_nat (length path) = inclusion_path_length index size ->
      exists r,
        fold_path (HashInteriorNode HashBytes) leaf index (size - 1) path r
        /\ (forall r2,
              fold_path (HashInteriorNode HashBytes) leaf index (size - 1) path r2 ->
              r2 = r)
        /\ (VerifyInclusion HashBytes leaf index size root path = Ok tt
            <-> r = root)
        /\ (r <> root ->
            VerifyInclusion HashBytes leaf index size root path
            = Err ErrRootMismatch))
  /\ (index = 0 -> size = 1 ->
      (VerifyInclusion HashBytes leaf index size root path = Ok tt
       <-> path = [] /\ leaf = root)).
Proof.
  intros Hindex Hsize. repeat split.
  - apply VerifyInclusion_out_of_range.
  - intros Hlt Hlen. apply VerifyInclusion_wrong_length; [exact Hlt|].
    rewrite pathLength_spec by lia. exact Hlen.
  - intros Hlt Hlen. rewrite <- pathLength_spec in Hlen by lia.
    destruct (VerifyInclusion_right_length HashBytes leaf index size root path
                Hlt Hsize Hlen) as [r [Hloop Hres]].
    pose proof (inclusion_loop_fold HashBytes _ _ _ _ _ Hloop) as Hfold.
    exists r. repeat split.
    + exact Hfold.
    + intros r2 H2. exact (fold_path_functional HashBytes _ _ _ _ _ H2 _ Hfold).
    + rewrite Hres. intros Hok. apply bytes_eqb_eq.
      destruct (bytes_eqb r root); [reflexivity|discriminate].
    + intros ->. rewrite Hres, bytes_eqb_refl. reflexivity.
    + intros Hne. rewrite Hres.
      destruct (bytes_eqb r root) eqn:E; [|reflexivity].
      apply bytes_eqb_eq in E. contradiction.
  - subst. unfold VerifyInclusion in H1. simpl in H1.
    destruct path; [reflexivity|discriminate].
  - subst. unfold VerifyInclusion in H1. simpl in H1.
    destruct path; [|discriminate]. simpl in H1. apply bytes_eqb_eq.
    destruct (bytes_eqb leaf root); [reflexivity|discriminate].
  - intros [-> ->]. subst. unfold VerifyInclusion. simpl.
    rewrite bytes_eqb_refl. reflexivity.
Qed.

Lemma VerifyInclusion_correct_witness :
  2 < 2 ^ 64 /\ 3 < 2 ^ 64 /\ 2 < 3
  /\ N.of_nat (length [[x07]]) = inclusion_path_length 2 3
  /\ exists r,
       fold_path (HashInteriorNode sample_hash) [x09] 2 (3 - 1) [[x07]] r
       /\ (VerifyInclusion sample_hash [x09] 2 3 r [[x07]] = Ok tt <-> r = r).
Proof.
  assert (H2 : 2 < 2 ^ 64) by reflexivity.
  assert (H3 : 3 < 2 ^ 64) by reflexivity.
  assert (Hlt : 2 < 3) by reflexivity.
  assert (Hlen : N.of_nat (length [[x07]]) = inclusion_path_length 2 3)
    by reflexivity.
  repeat (split; [assumption|]).
  destruct (VerifyInclusion_correct sample_hash [x09] 2 3 [x09] [[x07]] H2 H3)
    as (_ & _ & Hfold & _).
  destruct (Hfold Hlt Hlen) as (r & Hr & Huniq & _).
  exists r. split; [exact Hr|].
  destruct (VerifyInclusion_correct sample_hash [x09] 2 3 r [[x07]] H2 H3)
    as (_ & _ & Hfold' & _).
  destruct (Hfold' Hlt Hlen) as (r' & Hr' & _ & Hiff & _).
  rewrite (Huniq _ Hr') in Hiff. exact Hiff.
Defined.

(* ================================================================= *)
(** * Consistency proofs *)

(** C3. With equal sizes [VerifyConsistency] accepts exactly the empty path
    between equal roots; with an empty old tree and a non-empty new one it
    accepts exactly the empty path from the root [hash_empty_tree()], the
    hash of the empty input. *)
Theorem VerifyConsistency_trivial_cases (HashBytes : list byte -> Hash)
  (oldRoot newRoot : Hash) (path : list Hash) :
  (forall size : N,
     VerifyConsistency HashBytes size size oldRoot newRoot path = Ok tt
     <-> path = [] /\ oldRoot = newRoot)
  /\ (forall newSize : positive,
        VerifyConsistency HashBytes 0 (Npos newSize) oldRoot newRoot path = Ok tt
        <-> path = [] /\ oldRoot = HashEmptyTree HashBytes)
  /\ HashEmptyTree HashBytes = HashBytes [].
Proof.
  split; [|split].
  - intros size. unfold VerifyConsistency. rewrite N.eqb_refl.
    destruct path as [|p path]; simpl.
    + destruct (bytes_eqb oldRoot newRoot) eqn:E; simpl.
      * apply bytes_eqb_eq in E. now split.
      * split; [discriminate|]. intros [_ Heq]. apply bytes_eqb_eq in Heq.
        congruence.
    + split; [discriminate|]. now intros [? _].
  - intros newSize. unfold VerifyConsistency.
    change (0 =? N.pos newSize) with false. cbn iota. rewrite N.eqb_refl.
    destruct path as [|p path]; simpl.
    + destruct (bytes_eqb oldRoot (HashEmptyTree HashBytes)) eqn:E; simpl.
      * apply bytes_eqb_eq in E. now split.
      * split; [discriminate|]. intros [_ Heq]. apply bytes_eqb_eq in Heq.
        congruence.
    + split; [discriminate|]. now intros [? _].
  - reflexivity.
Qed.

Section ConsistencyTheorems.

Variable HashBytes : list byte -> Hash.

Lemma shiftr_le_mono (a b k : N) : a <= b -> N.shiftr a k <= N.shiftr b k.
Proof.
  intros H. rewrite !N.shiftr_div_pow2. apply N.Div0.div_le_mono. exact H.
Qed.

Lemma shiftr_le (a k : N) : N.shiftr a k <= a.
Proof.
  rewrite N.shiftr_div_pow2. apply N.Div0.div_le_upper_bound.
  assert (0 < 2 ^ k) by (apply N.neq_0_lt_0, N.pow_nonzero; discriminate).
  nia.
Qed.

Lemma consistencyWantLength_siblings (old new : N) :
  0 < old -> old < new -> new < 2 ^ 64 ->
  let t := TrailingZeros64 old in
  let fn := N.shiftr (old - 1) t in
  let sn := N.shiftr (new - 1) t in
  consistencyWantLength old new
  = N.of_nat (siblings sn fn) + (if 0 <? fn then 1 else 0).
Proof.
  intros Hold Hnew Hbound t fn sn. unfold consistencyWantLength.
  rewrite !sub64_one by lia. fold t. fold fn. fold sn.
  assert (Hsn : sn <= new - 1) by apply shiftr_le.
  assert (Hle : fn <= sn) by (apply shiftr_le_mono; lia).
  rewrite add64_small by lia.
  rewrite pathLength_pl by lia.
  replace (sn + 1 - 1) with sn by lia.
  rewrite siblings_pl by exact Hle.
  destruct (0 <? fn); lia.
Qed.

Lemma consistencyWantLength_spec (old new : N) :
  0 < old -> old < new -> new < 2 ^ 64 ->
  consistencyWantLength old new = consistency_path_length old new.
Proof.
  intros Hold Hnew Hbound. unfold consistencyWantLength, consistency_path_length.
  rewrite !sub64_one by lia.
  rewrite TrailingZeros64_trailing_zeros by lia.
  set (t := trailing_zeros old).
  set (fn := N.shiftr (old - 1) t). set (sn := N.shiftr (new - 1) t).
  assert (Hsn : sn <= new - 1) by apply shiftr_le.
  assert (Hfn : fn <= old - 1) by apply shiftr_le.
  rewrite add64_small by lia.
  rewrite pathLength_spec by lia.
  destruct (0 <? fn); lia.
Qed.

End ConsistencyTheorems.

(** C4. For [0 < old < new], [VerifyConsistency] reports a malformed proof
    exactly for the paths whose length is not
    [consistency_path_length old new]; a path of that length is the only
    one that reaches the comparisons with the old and the new root, and
    the traversal consumes all of it. *)
Theorem VerifyConsistency_path_length (HashBytes : list byte -> Hash)
  (old new : N) (oldRoot newRoot : Hash) (path : list Hash) :
  0 < old -> old < new -> new < 2 ^ 64 ->
  let t := trailing_zeros old in
  let fn := N.shiftr (old - 1) t in
  let sn := N.shiftr (new - 1) t in
  (VerifyConsistency HashBytes old new oldRoot newRoot path
   = Err ErrMalformedPathLength
   <-> N.of_nat (length path) <> consistency_path_length old new)
  /\ (N.of_nat (length path) = consistency_path_length old new ->
      exists start rest fr sr,
        (if fn =? 0 then start = oldRoot /\ rest = path
         else path = start :: rest)
        /\ consistency_loop HashBytes sn fn start start rest
           = Some (fr, sr, [])
        /\ VerifyConsistency HashBytes old new oldRoot newRoot path
           = if negb (bytes_eqb fr oldRoot) then Err ErrOldRootMismatch
             else if negb (bytes_eqb sr newRoot) then Err ErrNewRootMismatch
             else Ok tt).
Proof.
  intros Hold Hnew Hbound t fn sn.
  pose proof (consistencyWantLength_spec old new Hold Hnew Hbound) as Hspec.
  pose proof (consistencyWantLength_siblings old new Hold Hnew Hbound) as Hsib.
  cbv zeta in Hsib.
  rewrite TrailingZeros64_trailing_zeros in Hsib by lia.
  fold t in Hsib. fold fn in Hsib. fold sn in Hsib.
  assert (Hright :
    N.of_nat (length path) = consistency_path_length old new ->
    exists start rest fr sr,
      (if fn =? 0 then start = oldRoot /\ rest = path
       else path = start :: rest)
      /\ consistency_loop HashBytes sn fn start start rest = Some (fr, sr, [])
      /\ VerifyConsistency HashBytes old new oldRoot newRoot path
         = if negb (bytes_eqb fr oldRoot) then Err ErrOldRootMismatch
           else if negb (bytes_eqb sr newRoot) then Err ErrNewRootMismatch
           else Ok tt).
  { intros Hlen. unfold VerifyConsistency.
    assert (Hne : (old =? new) = false) by (apply N.eqb_neq; lia).
    assert (Hnz : (old =? 0) = false) by (apply N.eqb_neq; lia).
    rewrite Hne, Hnz. cbv zeta.
    rewrite Hspec. rewrite Hlen, N.eqb_refl. cbn [negb].
    rewrite !sub64_one by lia.
    rewrite TrailingZeros64_trailing_zeros by lia.
    fold t. fold fn. fold sn.
    rewrite <- Hspec, Hsib in Hlen.
    destruct (N.eqb_spec fn 0) as [Hz|Hnzf].
    - assert (Hl : length path = siblings sn fn).
      { rewrite Hz in Hlen. change (0 <? 0) with false in Hlen.
        rewrite <- Hz in Hlen. apply Nat2N.inj. lia. }
      destruct (consistency_loop_exact HashBytes sn fn oldRoot oldRoot path Hl)
        as (fr & sr & Hloop).
      exists oldRoot, path, fr, sr. rewrite Hloop. repeat split; reflexivity.
    - assert (Hpos : (0 <? fn) = true) by (apply N.ltb_lt; lia).
      rewrite Hpos in Hlen.
      destruct path as [|p0 rest]; [simpl in Hlen; lia|].
      assert (Hl : length rest = siblings sn fn).
      { apply Nat2N.inj. cbn [length] in Hlen. lia. }
      destruct (consistency_loop_exact HashBytes sn fn p0 p0 rest Hl)
        as (fr & sr & Hloop).
      exists p0, rest, fr, sr. rewrite Hloop. repeat split; reflexivity. }
  split; [|exact Hright].
  split.
  - intros Hres Hlen.
    destruct (Hright Hlen) as (start & rest & fr & sr & _ & _ & Hv).
    rewrite Hv in Hres.
    destruct (bytes_eqb fr oldRoot), (bytes_eqb sr newRoot); discriminate.
  - intros Hlen. unfold VerifyConsistency.
    assert (Hne : (old =? new) = false) by (apply N.eqb_neq; lia).
    assert (Hnz : (old =? 0) = false) by (apply N.eqb_neq; lia).
    rewrite Hne, Hnz. cbv zeta. rewrite Hspec.
    apply N.eqb_neq in Hlen. rewrite Hlen. reflexivity.
Qed.

Lemma VerifyConsistency_path_length_witness :
  0 < 3 /\ 3 < 7 /\ 7 < 2 ^ 64
  /\ consistency_path_length 3 7 = 4
  /\ (VerifyConsistency sample_hash 3 7 [x01] [x02] [[x03]; [x04]; [x05]]
      = Err ErrMalformedPathLength)
  /\ exists start rest fr sr,
       [[x03]; [x04]; [x05]; [x06]] = start :: rest
       /\ consistency_loop sample_hash (N.shiftr (7 - 1) (trailing_zeros 3))
            (N.shiftr (3 - 1) (trailing_zeros 3)) start start rest
          = Some (fr, sr, []).
Proof.
  assert (H1 : 0 < 3) by reflexivity.
  assert (H2 : 3 < 7) by reflexivity.
  assert (H3 : 7 < 2 ^ 64) by reflexivity.
  split; [exact H1|]. split; [exact H2|]. split; [exact H3|].
  split; [reflexivity|]. split.
  - apply (VerifyConsistency_path_length sample_hash 3 7 [x01] [x02]
             [[x03]; [x04]; [x05]] H1 H2 H3).
    discriminate.
  - destruct (VerifyConsistency_path_length sample_hash 3 7 [x01] [x02]
                [[x03]; [x04]; [x05]; [x06]] H1 H2 H3) as [_ Hright].
    destruct (Hright eq_refl) as (start & rest & fr & sr & Hstart & Hloop & _).
    exists start, rest, fr, sr. split; [exact Hstart|exact Hloop].
Defined.

(* ================================================================= *)
(** * Batch inclusion proofs *)

Lemma sub64_add64_one (fn : N) : fn < 2 ^ 64 -> sub64 (add64 fn 1) 1 = fn.
Proof.
  intros H. unfold sub64, add64, wrap64.
  destruct (N.eq_dec fn (2 ^ 64 - 1)) as [->|Hne].
  - reflexivity.
  - rewrite (N.mod_small (fn + 1)) by lia.
    replace (fn + 1 + 2 ^ 64 - 1) with (fn + 1 * 2 ^ 64) by lia.
    rewrite N.Div0.mod_add. now apply N.mod_small.
Qed.

(** C8. For a single leaf, [VerifyInclusionBatch] accepts exactly when the
    two paths are equal element by element and [VerifyInclusion] accepts
    the leaf with the start path; unequal paths are rejected whatever the
    hash function is, so no node hash contributes to the rejection. *)
Theorem VerifyInclusionBatch_singleton (HashBytes : list byte -> Hash)
  (leaf : Hash) (fn size : N) (root : Hash) (startPath endPath : list Hash) :
  fn < 2 ^ 64 ->
  (VerifyInclusionBatch HashBytes [leaf] fn size root startPath endPath = Ok tt
   <-> startPath = endPath
       /\ VerifyInclusion HashBytes leaf fn size root startPath = Ok tt)
  /\ (pathEqual startPath endPath = true <-> startPath = endPath)
  /\ (startPath <> endPath ->
      forall otherHash : list byte -> Hash,
        VerifyInclusionBatch otherHash [leaf] fn size root startPath endPath
        = if size <=? fn then Err ErrRangeExceedsTree
          else Err ErrInconsistentPaths).
Proof.
  intros Hfn.
  assert (Hunfold : forall H',
    VerifyInclusionBatch H' [leaf] fn size root startPath endPath
    = if size <=? fn then Err ErrRangeExceedsTree
      else if negb (pathEqual startPath endPath) then Err ErrInconsistentPaths
      else VerifyInclusion H' leaf fn size root startPath).
  { intros H'. unfold VerifyInclusionBatch. cbn [length].
    change (wrap64 (N.of_nat 1)) with 1.
    rewrite sub64_add64_one by exact Hfn. reflexivity. }
  split; [|split].
  - rewrite Hunfold. split.
    + destruct (size <=? fn); [discriminate|].
      destruct (pathEqual startPath endPath) eqn:E; [|discriminate].
      cbn [negb]. intros Hok. split; [now apply pathEqual_eq|exact Hok].
    + intros [Heq Hok]. apply pathEqual_eq in Heq. rewrite Heq. cbn [negb].
      destruct (size <=? fn) eqn:Hle; [|exact Hok].
      apply N.leb_le in Hle.
      rewrite VerifyInclusion_out_of_range in Hok by exact Hle. discriminate.
  - apply pathEqual_eq.
  - intros Hne otherHash. rewrite Hunfold.
    destruct (size <=? fn); [reflexivity|].
    destruct (pathEqual startPath endPath) eqn:E; [|reflexivity].
    apply pathEqual_eq in E. contradiction.
Qed.

Lemma VerifyInclusionBatch_singleton_witness :
  0 < 2 ^ 64
  /\ (VerifyInclusionBatch sample_hash [[x01]] 0 1 [x01] [] [] = Ok tt
      <-> @nil Hash = []
          /\ VerifyInclusion sample_hash [x01] 0 1 [x01] [] = Ok tt).
Proof.
  assert (H0 : 0 < 2 ^ 64) by reflexivity.
  split; [exact H0|].
  apply (VerifyInclusionBatch_singleton sample_hash [x01] 0 1 [x01] [] [] H0).
Defined.

(** The two range checks of [VerifyInclusionBatch]: an empty range, and a
    range whose last index, as the code computes it, is not below the tree
    size.  Neither result depends on the paths or on the hash function. *)
Lemma VerifyInclusionBatch_range_checks (HashBytes : list byte -> Hash)
  (leaves : list Hash) (fn size : N) (root : Hash)
  (startPath endPath : list Hash) :
  VerifyInclusionBatch HashBytes [] fn size root startPath endPath
  = Err ErrRangeEmpty
  /\ (leaves <> [] ->
      size <= sub64 (add64 fn (wrap64 (N.of_nat (length leaves)))) 1 ->
      VerifyInclusionBatch HashBytes leaves fn size root startPath endPath
      = Err ErrRangeExceedsTree)
  /\ (leaves <> [] ->
      fn + N.of_nat (length leaves) <= 2 ^ 64 ->
      size <= fn + N.of_nat (length leaves) - 1 ->
      VerifyInclusionBatch HashBytes leaves fn size root startPath endPath
      = Err ErrRangeExceedsTree).
Proof.
  assert (Hwrapped :
    leaves <> [] ->
    size <= sub64 (add64 fn (wrap64 (N.of_nat (length leaves)))) 1 ->
    VerifyInclusionBatch HashBytes leaves fn size root startPath endPath
    = Err ErrRangeExceedsTree).
  { intros Hne Hle. destruct leaves as [|leaf0 others]; [contradiction|].
    unfold VerifyInclusionBatch. apply N.leb_le in Hle. rewrite Hle.
    reflexivity. }
  split; [reflexivity|]. split; [exact Hwrapped|].
  intros Hne Hfit Hle. apply Hwrapped; [exact Hne|].
  assert (Hlen : 0 < N.of_nat (length leaves)).
  { destruct leaves; [contradiction|]. cbn [length]. lia. }
  set (len := N.of_nat (length leaves)) in *.
  assert (Hen : sub64 (add64 fn (wrap64 len)) 1 = fn + len - 1).
  { unfold sub64, add64, wrap64.
    destruct (N.eq_dec len (2 ^ 64)) as [Hfull|Hpart].
    - assert (fn = 0) by lia. subst fn. rewrite Hfull. reflexivity.
    - rewrite (N.mod_small len) by lia.
      destruct (N.eq_dec (fn + len) (2 ^ 64)) as [Heq|Hlt].
      + rewrite Heq, N.Div0.mod_same. rewrite N.add_0_l.
        rewrite N.mod_small by lia. reflexivity.
      + rewrite (N.mod_small (fn + len)) by lia.
        replace (fn + len + 2 ^ 64 - 1) with (fn + len - 1 + 1 * 2 ^ 64) by lia.
        rewrite N.Div0.mod_add. apply N.mod_small. lia. }
  rewrite Hen. exact Hle.
Qed.

(** C9. A range of two leaves starting at the last [uint64] index ends
    beyond every tree, yet the last index wraps around to zero and passes
    the range check of a tree of one leaf; with a start path of 64 elements
    the call then hashes its way up the start path and ends in the
    run-time panic of its adjacency check, not in an error. *)
Theorem VerifyInclusionBatch_range_overflow (HashBytes : list byte -> Hash)
  (leaf0 leaf1 root sibling : Hash) :
  1 <= (2 ^ 64 - 1) + N.of_nat (length [leaf0; leaf1]) - 1
  /\ sub64 (add64 (2 ^ 64 - 1) (wrap64 (N.of_nat (length [leaf0; leaf1])))) 1
     = 0
  /\ VerifyInclusionBatch HashBytes [leaf0; leaf1] (2 ^ 64 - 1) 1 root
       (repeat sibling 64) []
     = Panic.
Proof.
  split; [|split].
  - cbn [length]. lia.
  - reflexivity.
  - vm_compute. reflexivity.
Qed.


(* ================================================================= *)
(** * Verification of a proof bundle *)

Lemma bytes_eqb_neq (a b : list byte) : bytes_eqb a b = false <-> a <> b.
Proof.
  rewrite <- bytes_eqb_eq. destruct (bytes_eqb a b); split; congruence.
Qed.

(** C1. [SigsumProof.Verify] makes its checks in a fixed order and stops at
    the first one that fails, with that check's error: the truncated
    checksum against [H(msg)], the leaf's key hash against [H(submit_key)],
    the leaf signature, the policy on the cosigned tree head, and last the
    inclusion of the leaf hash in the tree head, whose verdict is the
    result. *)
Theorem SigsumProof_Verify_order (HashBytes : list byte -> Hash)
  (Leaf_Verify : Leaf -> PublicKey -> bool) (Policy : Type)
  (VerifyCosignedTreeHead : Policy -> Hash -> CosignedTreeHead -> result unit)
  (sp : SigsumProof) (msg : Hash) (submitKey : PublicKey) (policy : Policy) :
  let checksum := HashBytes msg in
  let leaf := {| leaf_Checksum := checksum;
                 leaf_Signature := sl_Signature (sp_Leaf sp);
                 leaf_KeyHash := sl_KeyHash (sp_Leaf sp) |} in
  let th := sth_TreeHead (cth_SignedTreeHead (sp_TreeHead sp)) in
  let run := SigsumProof_Verify_checked HashBytes Leaf_Verify Policy
               VerifyCosignedTreeHead sp msg submitKey policy in
  let checksum_ok :=
    sl_ShortChecksum (sp_Leaf sp) = firstn 2 checksum in
  let key_hash_ok := sl_KeyHash (sp_Leaf sp) = HashBytes submitKey in
  let signature_ok := Leaf_Verify leaf submitKey = true in
  let policy_verdict :=
    VerifyCosignedTreeHead policy (sp_LogKeyHash sp) (sp_TreeHead sp) in
  let inclusion_verdict :=
    VerifyInclusion HashBytes (Leaf_ToHash HashBytes leaf)
      (ip_LeafIndex (sp_Inclusion sp)) (th_Size th) (th_RootHash th)
      (ip_Path (sp_Inclusion sp)) in
  (~ checksum_ok -> run = ([CheckChecksum], Err ErrChecksumMismatch))
  /\ (checksum_ok -> ~ key_hash_ok ->
      run = ([CheckChecksum; CheckKeyHash], Err ErrSubmitKeyHash))
  /\ (checksum_ok -> key_hash_ok -> ~ signature_ok ->
      run = ([CheckChecksum; CheckKeyHash; CheckLeafSignature],
             Err ErrLeafSignature))
  /\ (checksum_ok -> key_hash_ok -> signature_ok ->
      policy_verdict <> Ok tt ->
      run = ([CheckChecksum; CheckKeyHash; CheckLeafSignature; CheckPolicy],
             policy_verdict))
  /\ (checksum_ok -> key_hash_ok -> signature_ok ->
      policy_verdict = Ok tt ->
      run = ([CheckChecksum; CheckKeyHash; CheckLeafSignature; CheckPolicy;
              CheckInclusion], inclusion_verdict))
  /\ SigsumProof_Verify HashBytes Leaf_Verify Policy VerifyCosignedTreeHead
       sp msg submitKey policy = snd run
  /\ (SigsumProof_Verify HashBytes Leaf_Verify Policy VerifyCosignedTreeHead
        sp msg submitKey policy = Ok tt
      <-> checksum_ok /\ key_hash_ok /\ signature_ok
          /\ policy_verdict = Ok tt /\ inclusion_verdict = Ok tt).
Proof.
  intros checksum leaf th run checksum_ok key_hash_ok signature_ok
    policy_verdict inclusion_verdict.
  assert (Hrun : run =
    if negb (bytes_eqb (sl_ShortChecksum (sp_Leaf sp)) (firstn 2 checksum))
    then ([CheckChecksum], Err ErrChecksumMismatch)
    else if negb (bytes_eqb (sl_KeyHash (sp_Leaf sp)) (HashBytes submitKey))
    then ([CheckChecksum; CheckKeyHash], Err ErrSubmitKeyHash)
    else if negb (Leaf_Verify leaf submitKey)
    then ([CheckChecksum; CheckKeyHash; CheckLeafSignature],
          Err ErrLeafSignature)
    else match policy_verdict with
         | Ok _ => ([CheckChecksum; CheckKeyHash; CheckLeafSignature;
                     CheckPolicy; CheckInclusion], inclusion_verdict)
         | other => ([CheckChecksum; CheckKeyHash; CheckLeafSignature;
                      CheckPolicy], other)
         end).
  { unfold run, SigsumProof_Verify_checked, ShortLeaf_ToLeaf, perform, and_then.
    fold checksum. change ShortChecksumSize with 2%nat.
    destruct (bytes_eqb (sl_ShortChecksum (sp_Leaf sp)) (firstn 2 checksum));
      cbn [negb]; [|reflexivity].
    destruct (bytes_eqb (sl_KeyHash (sp_Leaf sp)) (HashBytes submitKey));
      cbn [negb]; [|reflexivity].
    fold leaf. destruct (Leaf_Verify leaf submitKey); cbn [negb];
      [|reflexivity].
    fold policy_verdict. destruct policy_verdict as [[]| |]; reflexivity. }
  assert (E1 : checksum_ok ->
    bytes_eqb (sl_ShortChecksum (sp_Leaf sp)) (firstn 2 checksum) = true)
    by (apply bytes_eqb_eq).
  assert (E2 : key_hash_ok ->
    bytes_eqb (sl_KeyHash (sp_Leaf sp)) (HashBytes submitKey) = true)
    by (apply bytes_eqb_eq).
  split; [|split; [|split; [|split; [|split; [|split]]]]].
  - intros H. rewrite Hrun. apply bytes_eqb_neq in H. rewrite H. reflexivity.
  - intros H1 H2. rewrite Hrun, (E1 H1). apply bytes_eqb_neq in H2.
    rewrite H2. reflexivity.
  - intros H1 H2 H3. rewrite Hrun, (E1 H1), (E2 H2).
    unfold signature_ok in H3. apply not_true_is_false in H3. rewrite H3.
    reflexivity.
  - intros H1 H2 H3 H4. rewrite Hrun, (E1 H1), (E2 H2), H3. cbn [negb].
    destruct policy_verdict as [[]| |]; [contradiction|reflexivity..].
  - intros H1 H2 H3 H4. rewrite Hrun, (E1 H1), (E2 H2), H3, H4. reflexivity.
  - reflexivity.
  - unfold SigsumProof_Verify. fold run. rewrite Hrun. split.
    + destruct (bytes_eqb (sl_ShortChecksum (sp_Leaf sp)) (firstn 2 checksum))
        eqn:B1; cbn [negb snd]; [|discriminate].
      destruct (bytes_eqb (sl_KeyHash (sp_Leaf sp)) (HashBytes submitKey))
        eqn:B2; cbn [negb snd]; [|discriminate].
      destruct (Leaf_Verify leaf submitKey) eqn:B3; cbn [negb snd];
        [|discriminate].
      apply bytes_eqb_eq in B1, B2.
      destruct policy_verdict as [[]| |]; cbn [snd]; try discriminate.
      intros Hok. repeat split; assumption.
    + intros (H1 & H2 & H3 & H4 & H5).
      rewrite (E1 H1), (E2 H2), H3, H4. exact H5.
Qed.

Lemma SigsumProof_Verify_order_witness :
  SigsumProof_Verify_checked sample_hash sample_leaf_verify unit sample_policy
    sample_proof [x05; x06; x07] [x0a] tt
  = ([CheckChecksum; CheckKeyHash; CheckLeafSignature; CheckPolicy],
     Err (ErrPolicy 1)).
Proof.
  destruct (SigsumProof_Verify_order sample_hash sample_leaf_verify unit
              sample_policy sample_proof [x05; x06; x07] [x0a] tt)
    as (_ & _ & _ & Hpolicy & _).
  apply Hpolicy; [reflexivity|reflexivity|reflexivity|discriminate].
Defined.

(* ================================================================= *)
(** * The signed bytes of a tree head, and the text codec *)

(* ================================================================= *)
(** * The signed bytes of a tree head *)

Lemma to_N_byte_of_N (x : N) : Byte.to_N (byte_of_N x) = x mod 256.
Proof.
  unfold byte_of_N.
  destruct (Byte.of_N (x mod 256)) as [b|] eqn:E.
  - now apply Byte.to_of_N.
  - apply Byte.of_N_None_iff in E.
    pose proof (N.mod_upper_bound x 256). lia.
Qed.

Lemma PutUint64_length (v : N) : length (PutUint64 v) = 8%nat.
Proof. reflexivity. Qed.

Lemma PutUint64_big_endian (v : N) : v < 2 ^ 64 -> be_value (PutUint64 v) = v.
Proof.
  intros Hv. unfold PutUint64, be_value. cbn [map fold_left].
  rewrite !to_N_byte_of_N, !N.shiftr_div_pow2.
  change (2 ^ (8 * 0)) with 1. rewrite N.div_1_r.
  set (q1 := v / 256).
  set (q2 := q1 / 256). set (q3 := q2 / 256). set (q4 := q3 / 256).
  set (q5 := q4 / 256). set (q6 := q5 / 256). set (q7 := q6 / 256).
  assert (E1 : v / 2 ^ (8 * 1) = q1) by reflexivity.
  assert (E2 : v / 2 ^ (8 * 2) = q2)
    by (unfold q2, q1; rewrite N.Div0.div_div; reflexivity).
  assert (E3 : v / 2 ^ (8 * 3) = q3)
    by (unfold q3; rewrite <- E2, N.Div0.div_div; reflexivity).
  assert (E4 : v / 2 ^ (8 * 4) = q4)
    by (unfold q4; rewrite <- E3, N.Div0.div_div; reflexivity).
  assert (E5 : v / 2 ^ (8 * 5) = q5)
    by (unfold q5; rewrite <- E4, N.Div0.div_div; reflexivity).
  assert (E6 : v / 2 ^ (8 * 6) = q6)
    by (unfold q6; rewrite <- E5, N.Div0.div_div; reflexivity).
  assert (E7 : v / 2 ^ (8 * 7) = q7)
    by (unfold q7; rewrite <- E6, N.Div0.div_div; reflexivity).
  rewrite E1, E2, E3, E4, E5, E6, E7.
  assert (H7 : q7 < 256).
  { rewrite <- E7. apply N.Div0.div_lt_upper_bound.
    change (2 ^ (8 * 7) * 256) with (2 ^ 64). exact Hv. }
  pose proof (N.div_mod v 256 ltac:(discriminate)) as D0. fold q1 in D0.
  pose proof (N.div_mod q1 256 ltac:(discriminate)) as D1. fold q2 in D1.
  pose proof (N.div_mod q2 256 ltac:(discriminate)) as D2. fold q3 in D2.
  pose proof (N.div_mod q3 256 ltac:(discriminate)) as D3. fold q4 in D3.
  pose proof (N.div_mod q4 256 ltac:(discriminate)) as D4. fold q5 in D4.
  pose proof (N.div_mod q5 256 ltac:(discriminate)) as D5. fold q6 in D5.
  pose proof (N.div_mod q6 256 ltac:(discriminate)) as D6. fold q7 in D6.
  rewrite (N.mod_small q7 256 H7).
  lia.
Qed.

Lemma firstn_exact {A} (n : nat) (l1 l2 : list A) :
  length l1 = n -> firstn n (l1 ++ l2) = l1.
Proof.
  intros <-. rewrite firstn_app, Nat.sub_diag, firstn_all. simpl.
  apply app_nil_r.
Qed.

Lemma skipn_exact {A} (n : nat) (l1 l2 : list A) :
  length l1 = n -> skipn n (l1 ++ l2) = l2.
Proof.
  intros <-. rewrite skipn_app, Nat.sub_diag, skipn_all. reflexivity.
Qed.

(** C6. [TreeHead.ToBinary] yields 80 bytes: the timestamp and the size as
    8-byte big-endian numbers, then the 32-byte root hash, then the 32-byte
    log key hash; signing and verifying a tree head operate on exactly
    these bytes, and they are the bytes the test fixture expects. *)
Theorem TreeHead_ToBinary_layout (Signer : Type)
  (sign : Signer -> text -> list byte -> result (list byte))
  (verify : PublicKey -> text -> list byte -> list byte -> bool)
  (th : types_test.TreeHead) (keyHash : Hash) :
  wf_uint64 (types_test.Timestamp th) -> wf_uint64 (types_test.TreeSize th) ->
  wf_hash (types_test.RootHash th) -> wf_hash keyHash ->
  let signed := types_test.ToBinary th keyHash in
  signed = PutUint64 (types_test.Timestamp th)
           ++ PutUint64 (types_test.TreeSize th)
           ++ types_test.RootHash th ++ keyHash
  /\ length signed = 80%nat
  /\ length (firstn 8 signed) = 8%nat
  /\ be_value (firstn 8 signed) = types_test.Timestamp th
  /\ length (firstn 8 (skipn 8 signed)) = 8%nat
  /\ be_value (firstn 8 (skipn 8 signed)) = types_test.TreeSize th
  /\ firstn 32 (skipn 16 signed) = types_test.RootHash th
  /\ skipn 48 signed = keyHash
  /\ (forall signer,
        types_test.Sign Signer sign th signer keyHash
        = match sign signer types_test.TreeHeadNamespace signed with
          | Ok sig => Ok {| types_test.sth_TreeHead := th;
                            types_test.sth_Signature := sig |}
          | Err e => Err e
          | Panic => Panic
          end)
  /\ (forall sig pub,
        types_test.Verify verify
          {| types_test.sth_TreeHead := th; types_test.sth_Signature := sig |}
          pub keyHash
        = verify pub types_test.TreeHeadNamespace signed sig)
  /\ (forall rootHash,
        types_test.ToBinary (types_test.validTreeHead rootHash) keyHash
        = types_test.validTreeHeadBytes rootHash keyHash).
Proof.
  intros Hts Hsize Hroot Hkey signed.
  assert (Hsigned : signed = PutUint64 (types_test.Timestamp th)
           ++ PutUint64 (types_test.TreeSize th)
           ++ types_test.RootHash th ++ keyHash) by reflexivity.
  unfold wf_hash in Hroot, Hkey. unfold wf_uint64 in Hts, Hsize.
  change HashSize with 32%nat in Hroot, Hkey.
  assert (H8 : firstn 8 signed = PutUint64 (types_test.Timestamp th)).
  { rewrite Hsigned. apply firstn_exact, PutUint64_length. }
  assert (S8 : skipn 8 signed = PutUint64 (types_test.TreeSize th)
                                ++ types_test.RootHash th ++ keyHash).
  { rewrite Hsigned. apply skipn_exact, PutUint64_length. }
  assert (H16 : firstn 8 (skipn 8 signed)
                = PutUint64 (types_test.TreeSize th)).
  { rewrite S8. apply firstn_exact, PutUint64_length. }
  assert (S16 : skipn 16 signed = types_test.RootHash th ++ keyHash).
  { rewrite Hsigned, app_assoc. apply skipn_exact.
    rewrite length_app, !PutUint64_length. reflexivity. }
  assert (S48 : skipn 48 signed = keyHash).
  { rewrite Hsigned, !app_assoc. apply skipn_exact.
    rewrite !length_app, !PutUint64_length, Hroot. reflexivity. }
  repeat apply conj.
  - exact Hsigned.
  - rewrite Hsigned, !length_app, !PutUint64_length, Hroot, Hkey. reflexivity.
  - rewrite H8. apply PutUint64_length.
  - rewrite H8. now apply PutUint64_big_endian.
  - rewrite H16. apply PutUint64_length.
  - rewrite H16. now apply PutUint64_big_endian.
  - rewrite S16. now apply firstn_exact.
  - exact S48.
  - reflexivity.
  - reflexivity.
  - reflexivity.
Qed.

Lemma TreeHead_ToBinary_layout_witness :
  let th := types_test.validTreeHead (repeat x07 32) in
  let keyHash := repeat x00 32 in
  length (types_test.ToBinary th keyHash) = 80%nat
  /\ be_value (firstn 8 (types_test.ToBinary th keyHash)) = 72623859790382856
  /\ types_test.Verify sample_verify
       {| types_test.sth_TreeHead := th;
          types_test.sth_Signature := repeat x00 64 |} (repeat x01 32) keyHash
     = sample_verify (repeat x01 32) types_test.TreeHeadNamespace
         (types_test.ToBinary th keyHash) (repeat x00 64).
Proof.
  intros th keyHash.
  destruct (TreeHead_ToBinary_layout (list byte) sample_signer sample_verify
              th keyHash)
    as (_ & Hlen & _ & Hts & _ & _ & _ & _ & _ & Hverify & _);
    try reflexivity.
  split; [exact Hlen|]. split; [exact Hts|]. apply Hverify.
Defined.

(* ================================================================= *)
(** * Characters, hex and decimal *)

Lemma text_eqb_eq (a b : text) : text_eqb a b = true <-> a = b.
Proof.
  revert b. induction a as [|x a IH]; intros [|y b]; simpl; try easy.
  rewrite andb_true_iff, IH, Ascii.eqb_eq. split.
  - now intros [-> ->].
  - now intros [= -> ->].
Qed.

Lemma text_eqb_refl (a : text) : text_eqb a a = true.
Proof. now apply text_eqb_eq. Qed.

Lemma plain_no_char (s : text) :
  forallb plain s = true ->
  no_char LF s = true /\ no_char SP s = true /\ no_char EQ s = true.
Proof.
  unfold no_char. induction s as [|c s IH]; simpl; [easy|].
  rewrite !andb_true_iff. unfold plain at 1. rewrite !andb_true_iff.
  intros [[[H1 H2] H3] Hs]. destruct (IH Hs) as (I1 & I2 & I3).
  repeat split; assumption.
Qed.

Lemma fromHexChar_plain (c : ascii) (n : N) :
  fromHexChar c = Some n -> plain c = true.
Proof.
  destruct c as [[] [] [] [] [] [] [] []]; vm_compute;
    try reflexivity; discriminate.
Qed.

Lemma DecodeString_plain (s : text) :
  forall b, DecodeString s = Some b -> forallb plain s = true.
Proof.
  assert (H : forall n (s : text), (length s <= n)%nat ->
            forall b, DecodeString s = Some b -> forallb plain s = true).
  { induction n as [|n IH]; intros [|hi [|lo s']] Hlen b Hdec;
      simpl in *; try reflexivity; try discriminate; try lia.
    destruct (fromHexChar hi) as [h|] eqn:Hh; [|discriminate].
    destruct (fromHexChar lo) as [l|] eqn:Hl; [|discriminate].
    destruct (DecodeString s') as [bs|] eqn:Hs; [|discriminate].
    rewrite (fromHexChar_plain _ _ Hh), (fromHexChar_plain _ _ Hl). simpl.
    apply (IH s' ltac:(lia) bs Hs). }
  intros b. apply (H (length s)). lia.
Qed.

Lemma hex_byte_round_trip (b : byte) :
  fromHexChar (hex_digit (Byte.to_N b / 16)) = Some (Byte.to_N b / 16)
  /\ fromHexChar (hex_digit (Byte.to_N b mod 16)) = Some (Byte.to_N b mod 16)
  /\ byte_of_N (16 * (Byte.to_N b / 16) + Byte.to_N b mod 16) = b.
Proof. destruct b; repeat split; reflexivity. Qed.

Lemma DecodeString_EncodeToString (bs : list byte) :
  DecodeString (EncodeToString bs) = Some bs.
Proof.
  induction bs as [|b bs IH]; [reflexivity|].
  unfold EncodeToString in *. cbn [flat_map app DecodeString].
  destruct (hex_byte_round_trip b) as (Hh & Hl & Hb).
  rewrite Hh, Hl, IH, Hb. reflexivity.
Qed.

Lemma EncodeToString_length (bs : list byte) :
  length (EncodeToString bs) = (2 * length bs)%nat.
Proof.
  induction bs as [|b bs IH]; [reflexivity|].
  unfold EncodeToString in *. cbn [flat_map app length]. rewrite IH. lia.
Qed.

Lemma hex_byte_lower (b : byte) :
  is_lower_hex (hex_digit (Byte.to_N b / 16)) = true
  /\ is_lower_hex (hex_digit (Byte.to_N b mod 16)) = true.
Proof. destruct b; split; reflexivity. Qed.

Lemma EncodeToString_lower (bs : list byte) :
  forallb is_lower_hex (EncodeToString bs) = true.
Proof.
  induction bs as [|b bs IH]; [reflexivity|].
  unfold EncodeToString in *. cbn [flat_map app forallb].
  destruct (hex_byte_lower b) as [-> ->]. exact IH.
Qed.

Lemma EncodeToString_plain (bs : list byte) :
  forallb plain (EncodeToString bs) = true.
Proof.
  apply (DecodeString_plain _ bs), DecodeString_EncodeToString.
Qed.


Lemma string_of_uint_plain (d : Decimal.uint) :
  forallb plain (list_ascii_of_string (NilEmpty.string_of_uint d)) = true.
Proof. induction d; simpl; try reflexivity; exact IHd. Qed.

Lemma FormatUint_plain (n : N) : forallb plain (FormatUint n) = true.
Proof. apply string_of_uint_plain. Qed.

Lemma string_of_uint_digits (d : Decimal.uint) :
  forallb is_decimal_digit
    (list_ascii_of_string (NilEmpty.string_of_uint d)) = true.
Proof. induction d; simpl; try reflexivity; exact IHd. Qed.

Lemma N_to_uint_nonnil (n : N) : N.to_uint n <> Decimal.Nil.
Proof.
  destruct n as [|p]; [discriminate|].
  apply DecimalPos.Unsigned.to_uint_nonnil.
Qed.

Lemma FormatUint_nonempty (n : N) : FormatUint n <> [].
Proof.
  unfold FormatUint. pose proof (N_to_uint_nonnil n) as H.
  destruct (N.to_uint n); try contradiction; discriminate.
Qed.

Lemma decimal_field_FormatUint (n : N) : decimal_field (FormatUint n) = true.
Proof.
  unfold decimal_field. pose proof (FormatUint_nonempty n) as H.
  destruct (FormatUint n) eqn:E; [contradiction|].
  rewrite <- E. apply string_of_uint_digits.
Qed.

Lemma ParseUint_FormatUint (n : N) : n < 2 ^ 64 -> ParseUint (FormatUint n) = Ok n.
Proof.
  intros Hn. unfold ParseUint. pose proof (FormatUint_nonempty n) as H.
  destruct (FormatUint n) as [|c s] eqn:E; [contradiction|].
  rewrite <- E. unfold FormatUint.
  rewrite string_of_list_ascii_of_string, NilEmpty.usu.
  rewrite DecimalN.Unsigned.of_to.
  apply N.ltb_lt in Hn. rewrite Hn. reflexivity.
Qed.

Lemma decode_sized_EncodeToString (size : nat) (bs : list byte) :
  length bs = size -> decode_sized size (EncodeToString bs) = Ok bs.
Proof.
  intros <-. unfold decode_sized.
  rewrite DecodeString_EncodeToString, Nat.eqb_refl. reflexivity.
Qed.


(* ================================================================= *)
(** * Splitting text *)

Lemma split_char_nonempty (sep : ascii) (s : text) : split_char sep s <> [].
Proof.
  destruct s as [|c s]; simpl; [discriminate|].
  destruct (Ascii.eqb c sep); [discriminate|].
  destruct (split_char sep s); discriminate.
Qed.

Lemma split_char_app (sep : ascii) (a rest : text) :
  no_char sep a = true ->
  split_char sep (a ++ sep :: rest) = a :: split_char sep rest.
Proof.
  unfold no_char. induction a as [|c a IH]; simpl.
  - intros _. rewrite Ascii.eqb_refl. reflexivity.
  - rewrite andb_true_iff. intros [Hc Ha]. apply negb_true_iff in Hc.
    rewrite Hc, (IH Ha). reflexivity.
Qed.

Lemma split_char_none (sep : ascii) (a : text) :
  no_char sep a = true -> split_char sep a = [a].
Proof.
  unfold no_char. induction a as [|c a IH]; simpl; [reflexivity|].
  rewrite andb_true_iff. intros [Hc Ha]. apply negb_true_iff in Hc.
  rewrite Hc, (IH Ha). reflexivity.
Qed.

(** Joining what [split_char] cut gives the text back. *)
Lemma join_split_char (sep : ascii) (s : text) :
  join [sep] (split_char sep s) = s.
Proof.
  induction s as [|c s IH]; [reflexivity|]. simpl.
  destruct (Ascii.eqb_spec c sep) as [->|Hne].
  - pose proof (split_char_nonempty sep s) as Hn.
    destruct (split_char sep s) as [|p more] eqn:E; [contradiction|].
    cbn [join app]. cbn [join] in IH.
    destruct more; simpl in *; rewrite IH; reflexivity.
  - pose proof (split_char_nonempty sep s) as Hn.
    destruct (split_char sep s) as [|p more] eqn:E; [contradiction|].
    cbn [cons_head]. destruct more; simpl in *; rewrite IH; reflexivity.
Qed.

Lemma split_char_pieces (sep : ascii) (s : text) :
  Forall (fun piece => no_char sep piece = true) (split_char sep s).
Proof.
  induction s as [|c s IH]; simpl.
  - constructor; [reflexivity|constructor].
  - destruct (Ascii.eqb c sep) eqn:E.
    + constructor; [reflexivity|exact IH].
    + pose proof (split_char_nonempty sep s) as Hn.
      destruct (split_char sep s) as [|p more]; [contradiction|].
      inversion IH as [|? ? Hp Hmore]; subst.
      constructor; [|exact Hmore].
      unfold no_char in *. simpl. rewrite E, Hp. reflexivity.
Qed.

Lemma cut_eq_app (key v : text) :
  no_char EQ key = true -> cut_eq (key ++ EQ :: v) = Some (key, v).
Proof.
  unfold no_char. induction key as [|c key IH]; simpl.
  - intros _. reflexivity.
  - rewrite andb_true_iff. intros [Hc Hk]. apply negb_true_iff in Hc.
    rewrite Hc, (IH Hk). reflexivity.
Qed.


Lemma no_char_app (c : ascii) (a b : text) :
  no_char c (a ++ b) = no_char c a && no_char c b.
Proof. unfold no_char. apply forallb_app. Qed.

Lemma split_char_join (sep : ascii) (pieces : list text) :
  pieces <> [] ->
  Forall (fun piece => no_char sep piece = true) pieces ->
  split_char sep (join [sep] pieces) = pieces.
Proof.
  induction pieces as [|piece more IH]; [contradiction|].
  intros _ Hall. inversion Hall as [|? ? Hp Hmore]; subst.
  destruct more as [|next more].
  - simpl. now apply split_char_none.
  - change (join [sep] (piece :: next :: more))
      with (piece ++ sep :: join [sep] (next :: more)).
    rewrite split_char_app by exact Hp.
    rewrite IH; [reflexivity|discriminate|exact Hmore].
Qed.

(* ================================================================= *)
(** * Lines *)

Lemma format_value_plain (v : value) : forallb plain (format_value v) = true.
Proof. destruct v; [apply EncodeToString_plain|apply FormatUint_plain]. Qed.

Lemma format_value_no_char (v : value) :
  no_char LF (format_value v) = true /\ no_char SP (format_value v) = true
  /\ no_char EQ (format_value v) = true.
Proof. apply plain_no_char, format_value_plain. Qed.

Lemma values_no_space (vs : list value) :
  Forall (fun piece => no_char SP piece = true) (map format_value vs).
Proof.
  induction vs as [|v vs IH]; simpl; constructor; [|exact IH].
  apply format_value_no_char.
Qed.

Lemma join_values_no_LF (vs : list value) :
  no_char LF (join [SP] (map format_value vs)) = true.
Proof.
  induction vs as [|v vs IH]; [reflexivity|].
  destruct vs as [|w vs].
  - simpl. apply format_value_no_char.
  - change (join [SP] (map format_value (v :: w :: vs)))
      with (format_value v ++ SP :: join [SP] (map format_value (w :: vs))).
    rewrite no_char_app.
    destruct (format_value_no_char v) as [-> _].
    change (no_char LF (SP :: ?x)) with (no_char LF x). exact IH.
Qed.

Lemma line_of_no_LF (key : text) (vs : list value) :
  no_char LF key = true -> no_char LF (line_of key vs) = true.
Proof.
  intros Hk. unfold line_of. rewrite !no_char_app, Hk, join_values_no_LF.
  reflexivity.
Qed.

Lemma line_of_good (key : text) (vs : list value) :
  key <> [] -> no_char LF key = true -> good_line (line_of key vs) = true.
Proof.
  intros Hne Hk. unfold good_line.
  pose proof (line_of_no_LF key vs Hk) as H.
  destruct key as [|c key]; [contradiction|]. exact H.
Qed.

Lemma WriteLine_line_of (key : text) (first : value) (rest : list value) :
  WriteLine key first rest = line_of key (first :: rest) ++ [LF].
Proof. unfold WriteLine, line_of. rewrite <- !app_assoc. reflexivity. Qed.

Lemma unlines_app (a b : list text) : unlines (a ++ b) = unlines a ++ unlines b.
Proof. unfold unlines. apply flat_map_app. Qed.

Lemma unlines_map {A} (f : A -> text) (xs : list A) :
  unlines (map f xs) = flat_map (fun x => f x ++ [LF]) xs.
Proof.
  unfold unlines. induction xs as [|x xs IH]; simpl; [reflexivity|].
  rewrite IH. reflexivity.
Qed.

Lemma NewParser_unlines (ls : list text) :
  Forall (fun l => no_char LF l = true) ls ->
  NewParser (unlines ls) = ls ++ [[]].
Proof.
  unfold NewParser. induction 1 as [|l ls Hl _ IH]; [reflexivity|].
  cbn [unlines flat_map]. rewrite <- app_assoc. cbn [app].
  rewrite split_char_app by exact Hl. fold (unlines ls). rewrite IH.
  reflexivity.
Qed.

Lemma good_line_no_LF (l : text) : good_line l = true -> no_char LF l = true.
Proof. destruct l; [discriminate|]. trivial. Qed.

Lemma good_lines_no_LF (ls : list text) :
  Forall (fun l => good_line l = true) ls ->
  Forall (fun l => no_char LF l = true) ls.
Proof. apply Forall_impl. exact good_line_no_LF. Qed.

(* ================================================================= *)
(** * Reading back what the writers wrote *)

Lemma line_value_line_of (key : text) (vs : list value) :
  no_char EQ key = true ->
  line_value key (line_of key vs) = Ok (join [SP] (map format_value vs)).
Proof.
  intros Hk. unfold line_value, line_of. cbn [app].
  rewrite cut_eq_app by exact Hk. rewrite text_eqb_refl. reflexivity.
Qed.

Lemma next_line_of (key : text) (vs : list value) (p : Parser) :
  no_char EQ key = true -> p <> [] ->
  next key (line_of key vs :: p)
  = Ok (join [SP] (map format_value vs), p).
Proof.
  intros Hk Hp. destruct p as [|q p]; [contradiction|].
  cbn [next]. rewrite line_value_line_of by exact Hk. reflexivity.
Qed.

Lemma GetInt_line_of (key : text) (n : N) (p : Parser) :
  no_char EQ key = true -> p <> [] -> n < 2 ^ 64 ->
  GetInt key (line_of key [IntValue n] :: p) = Ok (n, p).
Proof.
  intros Hk Hp Hn. unfold GetInt. rewrite next_line_of by assumption.
  cbn [bind map join format_value]. rewrite ParseUint_FormatUint by exact Hn.
  reflexivity.
Qed.

Lemma GetHash_line_of (key : text) (h : Hash) (p : Parser) :
  no_char EQ key = true -> p <> [] -> length h = HashSize ->
  GetHash key (line_of key [HexValue h] :: p) = Ok (h, p).
Proof.
  intros Hk Hp Hh. unfold GetHash, HashFromHex.
  rewrite next_line_of by assumption.
  cbn [bind map join format_value].
  rewrite decode_sized_EncodeToString by exact Hh. reflexivity.
Qed.

Lemma GetSignature_line_of (key : text) (s : Signature) (p : Parser) :
  no_char EQ key = true -> p <> [] -> length s = SignatureSize ->
  GetSignature key (line_of key [HexValue s] :: p) = Ok (s, p).
Proof.
  intros Hk Hp Hs. unfold GetSignature, SignatureFromHex.
  rewrite next_line_of by assumption.
  cbn [bind map join format_value].
  rewrite decode_sized_EncodeToString by exact Hs. reflexivity.
Qed.

Lemma GetValues_line_of (key : text) (vs : list value) (p : Parser) :
  no_char EQ key = true -> p <> [] -> vs <> [] ->
  GetValues key (length vs) (line_of key vs :: p)
  = Ok (map format_value vs, p).
Proof.
  intros Hk Hp Hvs. unfold GetValues. rewrite next_line_of by assumption.
  cbn [bind].
  rewrite split_char_join;
    [|destruct vs; [contradiction|discriminate]|apply values_no_space].
  rewrite length_map, Nat.eqb_refl. reflexivity.
Qed.

Lemma GetRepeated_lines {A} (key : text) (decode : text -> result A)
  (encode : A -> list value) (xs : list A) :
  no_char EQ key = true ->
  Forall (fun x => decode (join [SP] (map format_value (encode x))) = Ok x) xs ->
  GetRepeated key decode (map (fun x => line_of key (encode x)) xs ++ [[]])
  = Ok xs.
Proof.
  intros Hk. induction 1 as [|x xs Hx _ IH]; [reflexivity|].
  cbn [map app GetRepeated].
  destruct (map (fun x => line_of key (encode x)) xs ++ [[]]) as [|q rest] eqn:E.
  - destruct (map (fun x => line_of key (encode x)) xs); discriminate.
  - rewrite line_value_line_of by exact Hk. cbn [bind]. rewrite Hx.
    cbn [bind]. rewrite IH. reflexivity.
Qed.

(* ================================================================= *)
(** * The artifacts of package [types] *)

Lemma key_facts :
  Forall (fun key => no_char EQ key = true /\ no_char LF key = true /\ key <> [])
    [txt "size"; txt "root_hash"; txt "signature"; txt "cosignature";
     txt "leaf_index"; txt "tree_size"; txt "node_hash"; txt "version";
     txt "log"; txt "leaf"].
Proof. repeat constructor; discriminate. Qed.

Ltac key_side :=
  solve [ reflexivity | discriminate
        | apply split_char_nonempty
        | let H := fresh in
          intros H; apply (f_equal (@length text)) in H;
          rewrite ?length_app in H; simpl in H; lia ].

Lemma SignedTreeHead_ToASCII_lines (sth : SignedTreeHead) :
  SignedTreeHead_ToASCII sth = unlines (SignedTreeHead_lines sth).
Proof.
  unfold SignedTreeHead_ToASCII, WriteInt, WriteHash, WriteSignature.
  rewrite !WriteLine_line_of. unfold SignedTreeHead_lines, unlines.
  cbn [flat_map]. rewrite app_nil_r, <- !app_assoc. reflexivity.
Qed.

Lemma Cosignature_ToASCII_line (cs : Cosignature) :
  Cosignature_ToASCII cs = Cosignature_line cs ++ [LF].
Proof. unfold Cosignature_ToASCII. apply WriteLine_line_of. Qed.

Lemma CosignedTreeHead_ToASCII_lines (cth : CosignedTreeHead) :
  CosignedTreeHead_ToASCII cth = unlines (CosignedTreeHead_lines cth).
Proof.
  unfold CosignedTreeHead_ToASCII, CosignedTreeHead_lines.
  rewrite unlines_app, SignedTreeHead_ToASCII_lines, unlines_map.
  apply f_equal. apply flat_map_ext. intros cs. apply Cosignature_ToASCII_line.
Qed.

Lemma InclusionProof_ToASCII_lines (pr : InclusionProof) :
  InclusionProof_ToASCII pr = unlines (InclusionProof_lines pr).
Proof.
  unfold InclusionProof_ToASCII, InclusionProof_lines, WriteInt.
  rewrite !WriteLine_line_of, unlines_app, unlines_map.
  unfold unlines at 1. cbn [flat_map]. rewrite app_nil_r, <- !app_assoc.
  do 4 apply f_equal. apply flat_map_ext. intros h. unfold WriteHash.
  apply WriteLine_line_of.
Qed.

Lemma map_line_of_good {A} (key : text) (encode : A -> list value) (xs : list A) :
  key <> [] -> no_char LF key = true ->
  Forall (fun l => good_line l = true) (map (fun x => line_of key (encode x)) xs).
Proof.
  intros Hne Hk. apply Forall_map, Forall_forall. intros x _.
  now apply line_of_good.
Qed.

Lemma CosignedTreeHead_lines_good (cth : CosignedTreeHead) :
  Forall (fun l => good_line l = true) (CosignedTreeHead_lines cth).
Proof.
  unfold CosignedTreeHead_lines. apply Forall_app. split.
  - repeat constructor; apply line_of_good; key_side.
  - apply (map_line_of_good (txt "cosignature")
             (fun cs => [HexValue (cs_KeyHash cs); IntValue (cs_Timestamp cs);
                         HexValue (cs_Signature cs)])); key_side.
Qed.

Lemma InclusionProof_lines_good (pr : InclusionProof) :
  Forall (fun l => good_line l = true) (InclusionProof_lines pr).
Proof.
  unfold InclusionProof_lines. apply Forall_app. split.
  - repeat constructor; apply line_of_good; key_side.
  - apply (map_line_of_good (txt "node_hash") (fun h => [HexValue h]));
      key_side.
Qed.

Lemma header_lines_good (sp : SigsumProof) :
  Forall (fun l => good_line l = true) (header_lines sp).
Proof. repeat constructor; apply line_of_good; key_side. Qed.

Lemma Cosignature_decode_encode (cs : Cosignature) :
  wf_Cosignature cs ->
  Cosignature_decode
    (join [SP] (map format_value
       [HexValue (cs_KeyHash cs); IntValue (cs_Timestamp cs);
        HexValue (cs_Signature cs)]))
  = Ok cs.
Proof.
  intros (Hkh & Hts & Hsig). unfold Cosignature_decode.
  rewrite split_char_join; [|discriminate|apply values_no_space].
  cbn [map format_value]. unfold HashFromHex, SignatureFromHex.
  rewrite decode_sized_EncodeToString by exact Hkh. cbn [bind].
  rewrite ParseUint_FormatUint by exact Hts. cbn [bind].
  rewrite decode_sized_EncodeToString by exact Hsig. cbn [bind].
  destruct cs; reflexivity.
Qed.

Lemma CosignedTreeHead_round_trip (cth : CosignedTreeHead) :
  wf_CosignedTreeHead cth ->
  CosignedTreeHead_FromASCII (CosignedTreeHead_ToASCII cth) = Ok cth.
Proof.
  intros (Hsize & Hroot & Hsig & Hcs).
  rewrite CosignedTreeHead_ToASCII_lines. unfold CosignedTreeHead_FromASCII.
  rewrite NewParser_unlines
    by apply good_lines_no_LF, CosignedTreeHead_lines_good.
  unfold CosignedTreeHead_lines, SignedTreeHead_lines, SignedTreeHead_Parse.
  cbn [app].
  rewrite GetInt_line_of by (try key_side; exact Hsize). cbn [bind].
  rewrite GetHash_line_of by (try key_side; exact Hroot). cbn [bind].
  rewrite GetSignature_line_of;
    [|key_side
     |destruct (cth_Cosignatures cth); discriminate
     |exact Hsig].
  cbn [bind].
  rewrite (GetRepeated_lines (txt "cosignature") Cosignature_decode
             (fun cs => [HexValue (cs_KeyHash cs); IntValue (cs_Timestamp cs);
                         HexValue (cs_Signature cs)])).
  - cbn [bind]. destruct cth as [[[size root] sig] cosigs]. reflexivity.
  - reflexivity.
  - eapply Forall_impl; [|exact Hcs]. exact Cosignature_decode_encode.
Qed.

Lemma InclusionProof_round_trip (pr : InclusionProof) :
  wf_InclusionProof pr ->
  InclusionProof_FromASCII (InclusionProof_ToASCII pr) = Ok pr.
Proof.
  intros (Hidx & Hsize & Hpath).
  rewrite InclusionProof_ToASCII_lines. unfold InclusionProof_FromASCII.
  rewrite NewParser_unlines
    by apply good_lines_no_LF, InclusionProof_lines_good.
  unfold InclusionProof_lines. cbn [app].
  rewrite GetInt_line_of by (try key_side; exact Hidx). cbn [bind].
  rewrite GetInt_line_of;
    [|key_side|destruct (ip_Path pr); discriminate|exact Hsize].
  cbn [bind].
  rewrite (GetRepeated_lines (txt "node_hash") HashFromHex
             (fun h => [HexValue h])).
  - cbn [bind]. destruct pr. reflexivity.
  - reflexivity.
  - eapply Forall_impl; [|exact Hpath]. intros h Hh.
    cbn [map join format_value]. unfold HashFromHex.
    now apply decode_sized_EncodeToString.
Qed.

(* ================================================================= *)
(** * Blocks separated by blank lines *)

Lemma split_blank_nonempty (s : text) : split_blank s <> [].
Proof.
  destruct s as [|c [|d s]]; simpl; try discriminate.
  destruct (Ascii.eqb c LF && Ascii.eqb d LF); [discriminate|].
  destruct (match s with [] => _ | _ => _ end); discriminate.
Qed.

Lemma split_blank_cons (c : ascii) (s : text) :
  Ascii.eqb c LF = false ->
  split_blank (c :: s) = cons_head c (split_blank s).
Proof.
  intros Hc. destruct s as [|d s]; [reflexivity|].
  cbn [split_blank]. rewrite Hc. reflexivity.
Qed.

Lemma split_blank_LF_other (d : ascii) (s : text) :
  Ascii.eqb d LF = false ->
  split_blank (LF :: d :: s) = cons_head LF (split_blank (d :: s)).
Proof.
  intros Hd. cbn [split_blank]. rewrite Hd, andb_false_r. reflexivity.
Qed.

Lemma split_blank_prepend (l s : text) :
  no_char LF l = true -> split_blank (l ++ s) = prepend l (split_blank s).
Proof.
  unfold no_char. induction l as [|c l IH]; intros Hall.
  - cbn [app]. pose proof (split_blank_nonempty s).
    destruct (split_blank s); [contradiction|reflexivity].
  - cbn [forallb] in Hall. apply andb_true_iff in Hall.
    destruct Hall as [Hc Hl]. apply negb_true_iff in Hc.
    cbn [app]. rewrite split_blank_cons by exact Hc. rewrite (IH Hl).
    pose proof (split_blank_nonempty s).
    destruct (split_blank s); [contradiction|reflexivity].
Qed.

Lemma unlines_join (ls : list text) :
  ls <> [] -> unlines ls = join [LF] ls ++ [LF].
Proof.
  induction ls as [|l ls IH]; [contradiction|]. intros _.
  destruct ls as [|l' ls].
  - simpl. rewrite app_nil_r. reflexivity.
  - change (unlines (l :: l' :: ls)) with ((l ++ [LF]) ++ unlines (l' :: ls)).
    rewrite IH by discriminate.
    change (join [LF] (l :: l' :: ls)) with (l ++ [LF] ++ join [LF] (l' :: ls)).
    rewrite <- !app_assoc. reflexivity.
Qed.

Lemma good_line_head (l : text) :
  good_line l = true ->
  exists d l', l = d :: l' /\ Ascii.eqb d LF = false.
Proof.
  destruct l as [|d l']; [discriminate|]. intros H. exists d, l'.
  split; [reflexivity|].
  unfold good_line, no_char in H. cbn [forallb] in H.
  apply andb_true_iff in H. destruct H as [Hd _].
  now apply negb_true_iff in Hd.
Qed.

Lemma split_blank_LF_lines (l : text) (ls : list text) (rest : text) :
  good_line l = true ->
  split_blank (LF :: unlines (l :: ls) ++ rest)
  = cons_head LF (split_blank (unlines (l :: ls) ++ rest)).
Proof.
  intros Hl. destruct (good_line_head l Hl) as (d & l' & -> & Hd).
  cbn [unlines flat_map app]. now apply split_blank_LF_other.
Qed.

(** A block of lines followed by a blank line is cut off as one piece,
    without its last line feed. *)
Lemma split_blank_block (ls : list text) (rest : text) :
  ls <> [] -> Forall (fun l => good_line l = true) ls ->
  split_blank (unlines ls ++ LF :: rest) = join [LF] ls :: split_blank rest.
Proof.
  induction ls as [|l ls IH]; [contradiction|].
  intros _ Hall. inversion Hall as [|? ? Hl Hls]; subst.
  pose proof (good_line_no_LF l Hl) as Hno.
  destruct ls as [|l' ls].
  - cbn [unlines flat_map join]. rewrite app_nil_r, <- app_assoc.
    rewrite split_blank_prepend by exact Hno. cbn [app split_blank].
    rewrite Ascii.eqb_refl. cbn [andb prepend]. rewrite app_nil_r.
    reflexivity.
  - change (unlines (l :: l' :: ls)) with ((l ++ [LF]) ++ unlines (l' :: ls)).
    rewrite <- !app_assoc. rewrite split_blank_prepend by exact Hno.
    cbn [app].
    inversion Hls as [|? ? Hl' _]; subst.
    rewrite split_blank_LF_lines by exact Hl'.
    rewrite IH by (try discriminate; exact Hls).
    reflexivity.
Qed.

(** A block of lines with nothing after it stays in one piece. *)
Lemma split_blank_last (ls : list text) :
  Forall (fun l => good_line l = true) ls ->
  split_blank (unlines ls) = [unlines ls].
Proof.
  induction ls as [|l ls IH]; [reflexivity|].
  intros Hall. inversion Hall as [|? ? Hl Hls]; subst.
  pose proof (good_line_no_LF l Hl) as Hno.
  change (unlines (l :: ls)) with ((l ++ [LF]) ++ unlines ls).
  rewrite <- app_assoc. rewrite split_blank_prepend by exact Hno.
  cbn [app]. destruct ls as [|l' ls].
  - reflexivity.
  - inversion Hls as [|? ? Hl' _]; subst.
    rewrite <- (app_nil_r (unlines (l' :: ls))).
    rewrite split_blank_LF_lines by exact Hl'.
    rewrite !app_nil_r. rewrite (IH Hls). reflexivity.
Qed.

(* ================================================================= *)
(** * Proof bundles *)

Lemma ShortLeaf_ToASCII_line (l : ShortLeaf) :
  ShortLeaf_ToASCII l
  = line_of (txt "leaf")
      [HexValue (sl_ShortChecksum l); HexValue (sl_KeyHash l);
       HexValue (sl_Signature l)] ++ [LF].
Proof. unfold ShortLeaf_ToASCII. apply WriteLine_line_of. Qed.

Lemma SigsumProof_ToASCII_blocks (sp : SigsumProof) :
  SigsumProof_ToASCII sp
  = unlines (header_lines sp) ++ LF
    :: unlines (CosignedTreeHead_lines (sp_TreeHead sp))
       ++ (if cth_Size (sp_TreeHead sp) <=? 1 then []
           else LF :: unlines (InclusionProof_lines (sp_Inclusion sp))).
Proof.
  unfold SigsumProof_ToASCII, WriteInt, WriteHash.
  rewrite !WriteLine_line_of, ShortLeaf_ToASCII_line.
  rewrite CosignedTreeHead_ToASCII_lines, InclusionProof_ToASCII_lines.
  unfold header_lines, unlines. cbn [flat_map].
  rewrite app_nil_r, <- !app_assoc. reflexivity.
Qed.

Lemma CosignedTreeHead_lines_nonempty (cth : CosignedTreeHead) :
  CosignedTreeHead_lines cth <> [].
Proof. discriminate. Qed.

(** The parts [FromASCII] works on, for a text [ToASCII] wrote. *)
Lemma SigsumProof_parts (sp : SigsumProof) :
  reapply_newline (split_blank (SigsumProof_ToASCII sp))
  = unlines (header_lines sp)
    :: unlines (CosignedTreeHead_lines (sp_TreeHead sp))
    :: (if cth_Size (sp_TreeHead sp) <=? 1 then []
        else [unlines (InclusionProof_lines (sp_Inclusion sp))]).
Proof.
  rewrite SigsumProof_ToASCII_blocks.
  rewrite split_blank_block by (try discriminate; apply header_lines_good).
  destruct (cth_Size (sp_TreeHead sp) <=? 1).
  - rewrite app_nil_r.
    rewrite split_blank_last by apply CosignedTreeHead_lines_good.
    cbn [reapply_newline]. rewrite <- unlines_join by discriminate.
    reflexivity.
  - rewrite split_blank_block
      by (try discriminate; apply CosignedTreeHead_lines_good).
    rewrite split_blank_last by apply InclusionProof_lines_good.
    cbn [reapply_newline]. rewrite <- !unlines_join by discriminate.
    reflexivity.
Qed.

Lemma decodeShortChecksum_encode (b : list byte) :
  length b = ShortChecksumSize -> decodeShortChecksum (EncodeToString b) = Ok b.
Proof.
  intros Hb. unfold decodeShortChecksum.
  rewrite DecodeString_EncodeToString, Hb, Nat.eqb_refl. reflexivity.
Qed.

(** Reading the first block back. *)
Lemma header_round_trip (sp : SigsumProof) :
  wf_hash (sp_LogKeyHash sp) -> wf_ShortLeaf (sp_Leaf sp) ->
  let p := NewParser (unlines (header_lines sp)) in
  exists p1 p2 p3,
    GetInt (txt "version") p = Ok (SigsumProofVersion, p1)
    /\ GetHash (txt "log") p1 = Ok (sp_LogKeyHash sp, p2)
    /\ ShortLeaf_Parse p2 = Ok (sp_Leaf sp, p3)
    /\ GetEOF p3 = Ok tt.
Proof.
  intros Hlog (Hsc & Hsig & Hkh) p. unfold p.
  rewrite NewParser_unlines by apply good_lines_no_LF, header_lines_good.
  unfold header_lines. cbn [app].
  eexists _, _, _. split; [|split; [|split]].
  - apply GetInt_line_of; try key_side.
  - apply GetHash_line_of; try key_side. exact Hlog.
  - unfold ShortLeaf_Parse.
    rewrite (GetValues_line_of (txt "leaf")
               [HexValue (sl_ShortChecksum (sp_Leaf sp));
                HexValue (sl_KeyHash (sp_Leaf sp));
                HexValue (sl_Signature (sp_Leaf sp))]) by key_side.
    cbn [bind map format_value]. unfold HashFromHex, SignatureFromHex.
    rewrite decodeShortChecksum_encode by exact Hsc.
    rewrite decode_sized_EncodeToString by exact Hkh.
    rewrite decode_sized_EncodeToString by exact Hsig.
    cbn [wrap_err bind]. destruct (sp_Leaf sp). reflexivity.
  - reflexivity.
Qed.

(** What [FromASCII] returns on the text [ToASCII] wrote. *)
Lemma SigsumProof_FromASCII_ToASCII (sp : SigsumProof) :
  wf_SigsumProof sp ->
  SigsumProof_FromASCII (SigsumProof_ToASCII sp)
  = if cth_Size (sp_TreeHead sp) =? 0 then Err ErrEmptyTree
    else if cth_Size (sp_TreeHead sp) =? 1
    then Ok {| sp_LogKeyHash := sp_LogKeyHash sp; sp_Leaf := sp_Leaf sp;
               sp_TreeHead := sp_TreeHead sp;
               sp_Inclusion := InclusionProof_zero |}
    else Ok sp.
Proof.
  intros (Hlog & Hleaf & Hcth & Hinc).
  unfold SigsumProof_FromASCII.
  assert (Hlen : Nat.ltb (length (split_blank (SigsumProof_ToASCII sp))) 2 = false).
  { assert (Hl : length (reapply_newline (split_blank (SigsumProof_ToASCII sp)))
                 = length (split_blank (SigsumProof_ToASCII sp))).
    { generalize (split_blank (SigsumProof_ToASCII sp)).
      induction l as [|a [|b l] IH]; cbn [reapply_newline length] in *;
        try reflexivity. now rewrite IH. }
    rewrite <- Hl, SigsumProof_parts. apply Nat.ltb_ge.
    destruct (cth_Size (sp_TreeHead sp) <=? 1); cbn [length]; lia. }
  rewrite Hlen. cbv zeta. rewrite SigsumProof_parts.
  destruct (header_round_trip sp Hlog Hleaf) as (p1 & p2 & p3 & E1 & E2 & E3 & E4).
  cbv zeta in E1. rewrite E1. cbn [wrap_err bind].
  change (SigsumProofVersion =? SigsumProofVersion) with true. cbn [negb].
  rewrite E2. cbn [wrap_err bind]. rewrite E3. cbn [bind]. rewrite E4.
  cbn [bind].
  rewrite <- CosignedTreeHead_ToASCII_lines.
  rewrite CosignedTreeHead_round_trip by exact Hcth. cbn [bind].
  destruct (N.eqb_spec (cth_Size (sp_TreeHead sp)) 0) as [H0|H0];
    [reflexivity|].
  destruct (N.eqb_spec (cth_Size (sp_TreeHead sp)) 1) as [H1|H1].
  - rewrite H1. cbn [N.leb N.compare Pos.compare Pos.compare_cont length Nat.eqb negb].
    reflexivity.
  - assert (Hgt : (cth_Size (sp_TreeHead sp) <=? 1) = false)
      by (apply N.leb_gt; lia).
    rewrite Hgt. cbn [length Nat.eqb negb].
    rewrite <- InclusionProof_ToASCII_lines.
    rewrite InclusionProof_round_trip by exact Hinc. cbn [bind].
    destruct sp. reflexivity.
Qed.

Lemma reapply_newline_length (parts : list text) :
  length (reapply_newline parts) = length parts.
Proof.
  induction parts as [|a [|b l] IH]; cbn [reapply_newline length] in *;
    try reflexivity. now rewrite IH.
Qed.

(** C5 fails as stated: for a tree of one leaf [ToASCII] leaves the
    inclusion proof out and [FromASCII] stores the zero value, so a bundle
    that holds a path is not given back. *)
Lemma SigsumProof_round_trip_size_one_counterexample :
  let sp := sample_bundle 1
              {| ip_LeafIndex := 0; ip_TreeSize := 1;
                 ip_Path := [repeat x55 32] |} in
  wf_SigsumProof sp
  /\ 1 <= cth_Size (sp_TreeHead sp)
  /\ SigsumProof_FromASCII (SigsumProof_ToASCII sp)
     = Ok (sample_bundle 1 InclusionProof_zero)
  /\ SigsumProof_FromASCII (SigsumProof_ToASCII sp) <> Ok sp.
Proof.
  cbv zeta. split; [|split; [|split]].
  - unfold wf_SigsumProof, wf_ShortLeaf, wf_CosignedTreeHead,
      wf_InclusionProof, wf_hash, wf_signature, wf_uint64.
    repeat split; try reflexivity; repeat constructor.
  - discriminate.
  - vm_compute. reflexivity.
  - intros H. vm_compute in H. discriminate H.
Qed.

(** C5, amended.  For a well-formed proof bundle over a tree of at least
    one leaf, whose inclusion proof is the zero value when the tree has
    one leaf: parsing what [ToASCII] wrote gives the bundle back.  For
    every well-formed bundle over a non-empty tree, parsing the canonical
    text and writing the result reproduces the text byte for byte; the
    text has two blank-line separated blocks when the size is 1 and three
    otherwise, the third being the inclusion proof. *)
Theorem SigsumProof_round_trip (sp : SigsumProof) :
  wf_SigsumProof sp -> 1 <= cth_Size (sp_TreeHead sp) ->
  ((cth_Size (sp_TreeHead sp) = 1 -> sp_Inclusion sp = InclusionProof_zero) ->
   SigsumProof_FromASCII (SigsumProof_ToASCII sp) = Ok sp)
  /\ (exists sp',
        SigsumProof_FromASCII (SigsumProof_ToASCII sp) = Ok sp'
        /\ SigsumProof_ToASCII sp' = SigsumProof_ToASCII sp)
  /\ reapply_newline (split_blank (SigsumProof_ToASCII sp))
     = (WriteInt (txt "version") SigsumProofVersion
        ++ WriteHash (txt "log") (sp_LogKeyHash sp)
        ++ ShortLeaf_ToASCII (sp_Leaf sp))
       :: CosignedTreeHead_ToASCII (sp_TreeHead sp)
       :: (if 1 <? cth_Size (sp_TreeHead sp)
           then [InclusionProof_ToASCII (sp_Inclusion sp)] else [])
  /\ length (split_blank (SigsumProof_ToASCII sp))
     = (if 1 <? cth_Size (sp_TreeHead sp) then 3%nat else 2%nat).
Proof.
  intros Hwf Hsize.
  pose proof (SigsumProof_FromASCII_ToASCII sp Hwf) as Hparse.
  assert (H0 : (cth_Size (sp_TreeHead sp) =? 0) = false)
    by (apply N.eqb_neq; lia).
  rewrite H0 in Hparse.
  assert (Hparts :
    reapply_newline (split_blank (SigsumProof_ToASCII sp))
    = (WriteInt (txt "version") SigsumProofVersion
       ++ WriteHash (txt "log") (sp_LogKeyHash sp)
       ++ ShortLeaf_ToASCII (sp_Leaf sp))
      :: CosignedTreeHead_ToASCII (sp_TreeHead sp)
      :: (if 1 <? cth_Size (sp_TreeHead sp)
          then [InclusionProof_ToASCII (sp_Inclusion sp)] else [])).
  { rewrite SigsumProof_parts.
    rewrite CosignedTreeHead_ToASCII_lines, InclusionProof_ToASCII_lines.
    rewrite N.ltb_antisym. destruct (cth_Size (sp_TreeHead sp) <=? 1);
      cbn [negb]; f_equal;
      unfold WriteInt, WriteHash;
      rewrite !WriteLine_line_of, ShortLeaf_ToASCII_line;
      unfold header_lines, unlines; cbn [flat_map];
      rewrite app_nil_r, <- !app_assoc; reflexivity. }
  split; [|split; [|split]].
  - intros Hzero. rewrite Hparse.
    destruct (N.eqb_spec (cth_Size (sp_TreeHead sp)) 1) as [H1|H1];
      [|reflexivity].
    specialize (Hzero H1). destruct sp. cbn in Hzero |- *. now rewrite Hzero.
  - destruct (N.eqb_spec (cth_Size (sp_TreeHead sp)) 1) as [H1|H1].
    + eexists. split; [exact Hparse|].
      unfold SigsumProof_ToASCII. cbn [sp_TreeHead sp_LogKeyHash sp_Leaf].
      rewrite H1. reflexivity.
    + exists sp. split; [exact Hparse|reflexivity].
  - exact Hparts.
  - rewrite <- reapply_newline_length, Hparts.
    destruct (1 <? cth_Size (sp_TreeHead sp)); reflexivity.
Qed.

Lemma SigsumProof_round_trip_witness :
  let sp := sample_bundle 3
              {| ip_LeafIndex := 2; ip_TreeSize := 3;
                 ip_Path := [repeat x55 32] |} in
  wf_SigsumProof sp /\ 1 <= cth_Size (sp_TreeHead sp)
  /\ SigsumProof_FromASCII (SigsumProof_ToASCII sp) = Ok sp.
Proof.
  cbv zeta.
  assert (Hwf : wf_SigsumProof
                  (sample_bundle 3
                     {| ip_LeafIndex := 2; ip_TreeSize := 3;
                        ip_Path := [repeat x55 32] |})).
  { unfold wf_SigsumProof, wf_ShortLeaf, wf_CosignedTreeHead,
      wf_InclusionProof, wf_hash, wf_signature, wf_uint64.
    repeat split; try reflexivity; repeat constructor. }
  assert (Hsize : 1 <= cth_Size (sp_TreeHead
                    (sample_bundle 3
                       {| ip_LeafIndex := 2; ip_TreeSize := 3;
                          ip_Path := [repeat x55 32] |}))) by discriminate.
  split; [exact Hwf|]. split; [exact Hsize|].
  apply (SigsumProof_round_trip _ Hwf Hsize). discriminate.
Defined.

(* ================================================================= *)
(** * The empty tree *)

Lemma next_no_panic (name : text) (p : Parser) : next name p <> Panic.
Proof.
  destruct p as [|l [|q p]]; cbn [next]; try discriminate.
  - destruct l; discriminate.
  - unfold line_value. destruct (cut_eq l) as [[k v]|]; [|discriminate].
    destruct (text_eqb k name); discriminate.
Qed.

Lemma ParseUint_no_panic (s : text) : ParseUint s <> Panic.
Proof.
  unfold ParseUint. destruct s; [discriminate|].
  destruct (NilEmpty.uint_of_string _); [|discriminate].
  destruct (_ <? _); discriminate.
Qed.

Lemma decode_sized_no_panic (size : nat) (s : text) :
  decode_sized size s <> Panic.
Proof.
  unfold decode_sized. destruct (DecodeString s); [|discriminate].
  destruct (Nat.eqb _ _); discriminate.
Qed.

Lemma GetInt_no_panic (name : text) (p : Parser) : GetInt name p <> Panic.
Proof.
  unfold GetInt. pose proof (next_no_panic name p).
  destruct (next name p) as [[v p']| |]; cbn [bind]; try easy.
  pose proof (ParseUint_no_panic v). destruct (ParseUint v); easy.
Qed.

Lemma GetHash_no_panic (name : text) (p : Parser) : GetHash name p <> Panic.
Proof.
  unfold GetHash, HashFromHex. pose proof (next_no_panic name p).
  destruct (next name p) as [[v p']| |]; cbn [bind]; try easy.
  pose proof (decode_sized_no_panic HashSize v).
  destruct (decode_sized HashSize v); easy.
Qed.

Lemma ShortLeaf_Parse_no_panic (p : Parser) : ShortLeaf_Parse p <> Panic.
Proof.
  unfold ShortLeaf_Parse, GetValues. pose proof (next_no_panic (txt "leaf") p).
  destruct (next (txt "leaf") p) as [[v p']| |]; cbn [bind]; try easy.
  destruct (split_char SP v) as [|v0 [|v1 [|v2 [|v3 more]]]];
    cbn [length Nat.eqb]; try discriminate.
  cbn [bind]. unfold decodeShortChecksum, HashFromHex, SignatureFromHex.
  destruct (DecodeString v0) as [b|]; cbn [wrap_err bind]; [|discriminate].
  destruct (negb _); cbn [wrap_err bind]; [discriminate|].
  pose proof (decode_sized_no_panic HashSize v1).
  destruct (decode_sized HashSize v1); cbn [wrap_err bind]; try easy.
  pose proof (decode_sized_no_panic SignatureSize v2).
  destruct (decode_sized SignatureSize v2); cbn [wrap_err bind]; easy.
Qed.

Lemma GetEOF_no_panic (p : Parser) : GetEOF p <> Panic.
Proof. destruct p as [|l [|q p]]; cbn [GetEOF]; try discriminate.
  destruct l; discriminate. Qed.

(** C10. [FromASCII] returns an error whenever the block of the cosigned
    tree head parses to a tree of size 0, although [ToASCII] writes a
    well-formed text of two blocks for such a bundle, whose tree head block
    parses back; the round trip through text fails for size 0. *)
Theorem SigsumProof_FromASCII_empty_tree :
  (forall data part0 part1 others cth,
     reapply_newline (split_blank data) = part0 :: part1 :: others ->
     CosignedTreeHead_FromASCII part1 = Ok cth ->
     cth_Size cth = 0 ->
     exists e, SigsumProof_FromASCII data = Err e)
  /\ (forall sp,
        wf_SigsumProof sp -> cth_Size (sp_TreeHead sp) = 0 ->
        reapply_newline (split_blank (SigsumProof_ToASCII sp))
        = [WriteInt (txt "version") SigsumProofVersion
           ++ WriteHash (txt "log") (sp_LogKeyHash sp)
           ++ ShortLeaf_ToASCII (sp_Leaf sp);
           CosignedTreeHead_ToASCII (sp_TreeHead sp)]
        /\ CosignedTreeHead_FromASCII
             (CosignedTreeHead_ToASCII (sp_TreeHead sp))
           = Ok (sp_TreeHead sp)
        /\ SigsumProof_FromASCII (SigsumProof_ToASCII sp) = Err ErrEmptyTree).
Proof.
  split.
  - intros data part0 part1 others cth Hparts Hcth Hzero.
    unfold SigsumProof_FromASCII.
    assert (Hlen : Nat.ltb (length (split_blank data)) 2 = false).
    { rewrite <- reapply_newline_length, Hparts. reflexivity. }
    rewrite Hlen. cbv zeta. rewrite Hparts.
    pose proof (GetInt_no_panic (txt "version") (NewParser part0)) as N1.
    destruct (GetInt (txt "version") (NewParser part0)) as [[version p1]|e|];
      cbn [wrap_err bind]; [|eauto|contradiction].
    destruct (negb (version =? SigsumProofVersion)); [eauto|].
    pose proof (GetHash_no_panic (txt "log") p1) as N2.
    destruct (GetHash (txt "log") p1) as [[logKeyHash p2]|e|];
      cbn [wrap_err bind]; [|eauto|contradiction].
    pose proof (ShortLeaf_Parse_no_panic p2) as N3.
    destruct (ShortLeaf_Parse p2) as [[leaf p3]|e|];
      cbn [bind]; [|eauto|contradiction].
    pose proof (GetEOF_no_panic p3) as N4.
    destruct (GetEOF p3) as [[]|e|]; cbn [bind]; [|eauto|contradiction].
    rewrite Hcth. cbn [bind]. rewrite Hzero. cbn [N.eqb]. eauto.
  - intros sp Hwf Hzero.
    pose proof (SigsumProof_FromASCII_ToASCII sp Hwf) as Hparse.
    rewrite Hzero in Hparse. cbn [N.eqb] in Hparse.
    destruct Hwf as (Hlog & Hleaf & Hcth & Hinc).
    split; [|split].
    + rewrite SigsumProof_parts, Hzero. cbn [N.leb N.compare].
      rewrite CosignedTreeHead_ToASCII_lines.
      unfold WriteInt, WriteHash.
      rewrite !WriteLine_line_of, ShortLeaf_ToASCII_line.
      unfold header_lines, unlines; cbn [flat_map].
      rewrite app_nil_r, <- !app_assoc. reflexivity.
    + now apply CosignedTreeHead_round_trip.
    + exact Hparse.
Qed.

Lemma SigsumProof_FromASCII_empty_tree_witness :
  let sp := sample_bundle 0 InclusionProof_zero in
  wf_SigsumProof sp /\ cth_Size (sp_TreeHead sp) = 0
  /\ SigsumProof_FromASCII (SigsumProof_ToASCII sp) = Err ErrEmptyTree
  /\ exists e,
       SigsumProof_FromASCII
         (SigsumProof_ToASCII sp ++ LF :: txt "leaf_index=0") = Err e.
Proof.
  cbv zeta.
  assert (Hwf : wf_SigsumProof (sample_bundle 0 InclusionProof_zero)).
  { unfold wf_SigsumProof, wf_ShortLeaf, wf_CosignedTreeHead,
      wf_InclusionProof, wf_hash, wf_signature, wf_uint64.
    repeat split; try reflexivity; repeat constructor. }
  split; [exact Hwf|]. split; [reflexivity|].
  destruct SigsumProof_FromASCII_empty_tree as [Hany Hemit].
  split.
  - apply (Hemit _ Hwf eq_refl).
  - eapply (Hany _ _ _ _ (sample_cosigned_tree_head 0)).
    + vm_compute. reflexivity.
    + vm_compute. reflexivity.
    + reflexivity.
Defined.

(* ================================================================= *)
(** * Cosignature lines *)

Lemma forallb_weaken {A} (f g : A -> bool) (l : list A) :
  (forall a, f a = true -> g a = true) ->
  forallb f l = true -> forallb g l = true.
Proof.
  intros Himp. induction l as [|a l IH]; cbn [forallb]; [reflexivity|].
  rewrite !andb_true_iff. intros [Ha Hl]. split; auto.
Qed.
















(* ================================================================= *)
(** * Request parameters in URLs *)

Lemma split_char_concat (sep : ascii) (x y : text) :
  split_char sep (x ++ sep :: y) = split_char sep x ++ split_char sep y.
Proof.
  induction x as [|c x IH]; cbn [app split_char].
  - now rewrite Ascii.eqb_refl.
  - destruct (Ascii.eqb c sep); rewrite IH; [reflexivity|].
    pose proof (split_char_nonempty sep x) as Hne.
    destruct (split_char sep x); [contradiction|reflexivity].
Qed.

Lemma last_two_app {A} (l : list A) (a b : A) :
  last_two (l ++ [a; b]) = Some (a, b).
Proof.
  induction l as [|x l IH]; [reflexivity|].
  cbn [app last_two]. rewrite <- IH.
  destruct l as [|y [|z l]]; reflexivity.
Qed.

Lemma last_two_single {A} (a : A) : last_two [a] = None.
Proof. reflexivity. Qed.

Lemma is_decimal_digit_not_SLASH (c : ascii) :
  is_decimal_digit c = true -> negb (Ascii.eqb c SLASH) = true.
Proof.
  destruct c as [[] [] [] [] [] [] [] []]; vm_compute; congruence.
Qed.

Lemma is_lower_hex_not_SLASH (c : ascii) :
  is_lower_hex c = true -> negb (Ascii.eqb c SLASH) = true.
Proof.
  destruct c as [[] [] [] [] [] [] [] []]; vm_compute; congruence.
Qed.

Lemma FormatUint_no_SLASH (n : N) : no_char SLASH (FormatUint n) = true.
Proof.
  unfold FormatUint.
  exact (forallb_weaken _ _ _ is_decimal_digit_not_SLASH
           (string_of_uint_digits (N.to_uint n))).
Qed.

Lemma EncodeToString_no_SLASH (bs : list byte) :
  no_char SLASH (EncodeToString bs) = true.
Proof.
  exact (forallb_weaken _ _ _ is_lower_hex_not_SLASH (EncodeToString_lower bs)).
Qed.

(** Cutting [s ++ t]: the last piece of [s] continues with the first
    piece of [t]. *)
Lemma split_char_app_any (sep : ascii) (s t : text) :
  split_char sep (s ++ t)
  = removelast (split_char sep s)
    ++ prepend (last (split_char sep s) []) (split_char sep t).
Proof.
  induction s as [|c s IH].
  - cbn [app split_char removelast last].
    pose proof (split_char_nonempty sep t) as Hne.
    destruct (split_char sep t); [contradiction|reflexivity].
  - cbn [app split_char]. rewrite IH. clear IH.
    pose proof (split_char_nonempty sep s) as Hne.
    destruct (split_char sep s) as [|p more]; [contradiction|].
    destruct (Ascii.eqb c sep).
    + reflexivity.
    + destruct more as [|q more].
      * cbn [removelast last app cons_head].
        pose proof (split_char_nonempty sep t) as Hnt.
        destruct (split_char sep t); [contradiction|reflexivity].
      * reflexivity.
Qed.

(** The two last pieces of [url ++ a ++ "/" ++ b]: the last piece of [url]
    followed by [a], and [b]. *)
Lemma last_two_url (url a b : text) :
  no_char SLASH a = true -> no_char SLASH b = true ->
  last_two (split_char SLASH (url ++ a ++ [SLASH] ++ b))
  = Some (last (split_char SLASH url) [] ++ a, b).
Proof.
  intros Ha Hb. rewrite split_char_app_any.
  change (a ++ [SLASH] ++ b) with (a ++ SLASH :: b).
  rewrite (split_char_app SLASH a b Ha), (split_char_none SLASH b Hb).
  cbn [prepend]. apply last_two_app.
Qed.

(** A slash-terminated or empty text has an empty last piece. *)
Lemma last_piece_slash_terminated (url : text) :
  url = [] \/ (exists u, url = u ++ [SLASH]) ->
  last (split_char SLASH url) [] = [].
Proof.
  intros [->|[u ->]]; [reflexivity|].
  rewrite split_char_concat. cbn [split_char]. apply last_last.
Qed.

Lemma ParseUint_FormatUint_ok (n : N) :
  wf_uint64 n -> ParseUint (FormatUint n) = Ok n.
Proof. apply ParseUint_FormatUint. Qed.



(** X2. An [InclusionProof] request written by [ToURL] at the end of an
    empty or slash-terminated [url] is given back by [FromURL]; for any
    [url] the size is read from the last piece of [url] followed by the
    decimal size. *)
Theorem InclusionProof_FromURL_ToURL (url : text) (req : requests.InclusionProof) :
  wf_uint64 (requests.Size req) -> wf_hash (requests.LeafHash req) ->
  requests.InclusionProof_FromURL (requests.InclusionProof_ToURL req url)
  = (do size <- ParseUint (last (split_char SLASH url) []
                           ++ FormatUint (requests.Size req));
     Ok {| requests.Size := size; requests.LeafHash := requests.LeafHash req |})
  /\ (url = [] \/ (exists u, url = u ++ [SLASH]) ->
      requests.InclusionProof_FromURL (requests.InclusionProof_ToURL req url)
      = Ok req).
Proof.
  intros Hsize Hhash.
  assert (Hany : requests.InclusionProof_FromURL
                   (requests.InclusionProof_ToURL req url)
                 = (do size <- ParseUint (last (split_char SLASH url) []
                                          ++ FormatUint (requests.Size req));
                    Ok {| requests.Size := size;
                          requests.LeafHash := requests.LeafHash req |})).
  { unfold requests.InclusionProof_FromURL, requests.InclusionProof_ToURL.
    rewrite last_two_url
      by (apply FormatUint_no_SLASH || apply EncodeToString_no_SLASH).
    destruct (ParseUint _); cbn [bind]; try reflexivity.
    unfold HashFromHex.
    now rewrite (decode_sized_EncodeToString HashSize _ Hhash). }
  split; [exact Hany|].
  intros Hurl. rewrite Hany, (last_piece_slash_terminated url Hurl).
  cbn [app]. rewrite (ParseUint_FormatUint_ok _ Hsize). cbn [bind].
  now destruct req.
Qed.

Lemma InclusionProof_FromURL_ToURL_witness :
  let req := {| requests.Size := 10; requests.LeafHash := repeat xab 32 |} in
  requests.InclusionProof_FromURL
    (requests.InclusionProof_ToURL req (txt "log/get-inclusion-proof/"))
  = Ok req.
Proof.
  cbv zeta.
  apply (InclusionProof_FromURL_ToURL (txt "log/get-inclusion-proof/")
           {| requests.Size := 10; requests.LeafHash := repeat xab 32 |}).
  - reflexivity.
  - reflexivity.
  - right. exists (txt "log/get-inclusion-proof"). reflexivity.
Defined.




Lemma ParseUint_error (s : text) (e : error) :
  ParseUint s = Err e -> e = ErrSyntax \/ e = ErrRange.
Proof.
  unfold ParseUint. destruct s; [intros [= <-]; now left|].
  destruct (NilEmpty.uint_of_string _); [|intros [= <-]; now left].
  destruct (_ <? _); [discriminate|intros [= <-]; now right].
Qed.

Lemma decode_sized_error (size : nat) (s : text) (e : error) :
  decode_sized size s = Err e -> e = ErrSyntax \/ e = ErrLength.
Proof.
  unfold decode_sized. destruct (DecodeString s); [|intros [= <-]; now left].
  destruct (Nat.eqb _ _); [discriminate|intros [= <-]; now right].
Qed.


(* ================================================================= *)
(** * Short leaves *)

(** X4. A short leaf made from a leaf turns back into that leaf when given
    the leaf's checksum.  [ToLeaf] succeeds exactly when the short
    checksum is the two-byte prefix of the checksum; the leaf it returns
    carries the checksum and shortens to the short leaf again. *)
Theorem ShortLeaf_ToLeaf_NewShortLeaf :
  (forall leaf : Leaf,
     ShortLeaf_ToLeaf (NewShortLeaf leaf) (leaf_Checksum leaf) = Ok leaf)
  /\ (forall (l : ShortLeaf) (checksum : Hash) (leaf : Leaf),
        ShortLeaf_ToLeaf l checksum = Ok leaf ->
        leaf = {| leaf_Checksum := checksum;
                  leaf_Signature := sl_Signature l;
                  leaf_KeyHash := sl_KeyHash l |}
        /\ sl_ShortChecksum l = firstn ShortChecksumSize checksum
        /\ NewShortLeaf leaf = l)
  /\ (forall (l : ShortLeaf) (checksum : Hash),
        ShortLeaf_ToLeaf l checksum = Err ErrChecksumMismatch
        <-> sl_ShortChecksum l <> firstn ShortChecksumSize checksum)
  /\ (forall (l : ShortLeaf) (checksum : Hash),
        ShortLeaf_ToLeaf l checksum <> Panic).
Proof.
  repeat apply conj.
  - intros [c s k]. unfold ShortLeaf_ToLeaf, NewShortLeaf.
    cbn [sl_ShortChecksum sl_Signature sl_KeyHash leaf_Checksum
         leaf_Signature leaf_KeyHash].
    now rewrite bytes_eqb_refl.
  - intros [sc s k] checksum leaf. unfold ShortLeaf_ToLeaf, NewShortLeaf.
    cbn [sl_ShortChecksum sl_Signature sl_KeyHash].
    destruct (bytes_eqb sc (firstn ShortChecksumSize checksum)) eqn:E;
      cbn [negb]; [|discriminate].
    apply bytes_eqb_eq in E. intros [= <-].
    cbn [leaf_Checksum leaf_Signature leaf_KeyHash]. now subst sc.
  - intros l checksum. unfold ShortLeaf_ToLeaf.
    destruct (bytes_eqb _ _) eqn:E; cbn [negb].
    + apply bytes_eqb_eq in E. split; [discriminate|contradiction].
    + apply bytes_eqb_neq in E. split; [intros _; exact E|reflexivity].
  - intros l checksum. unfold ShortLeaf_ToLeaf.
    destruct (negb _); discriminate.
Qed.

Lemma DecodeString_length (s : text) :
  forall b, DecodeString s = Some b -> length s = (2 * length b)%nat.
Proof.
  enough (H : (forall b, DecodeString s = Some b ->
                         length s = (2 * length b)%nat)
              /\ (forall c b, DecodeString (c :: s) = Some b ->
                              length (c :: s) = (2 * length b)%nat))
    by apply H.
  induction s as [|d s [IH1 IH2]].
  - split; [intros b [= <-]; reflexivity|discriminate].
  - split; [apply IH2|].
    intros c b. cbn [DecodeString].
    destruct (fromHexChar c); [|discriminate].
    destruct (fromHexChar d); [|discriminate].
    destruct (DecodeString s) as [bs|] eqn:E; [|discriminate].
    intros [= <-]. cbn [length]. rewrite (IH1 bs eq_refl). lia.
Qed.

(** X5. [decodeShortChecksum] accepts exactly the texts of four hex digits:
    what it returns has two bytes, and every two-byte checksum written in
    hex is read back.  Another length is reported as such, anything that
    is not hex as a syntax error. *)
Theorem decodeShortChecksum_four_hex_digits :
  (forall (s : text) (b : list byte),
     decodeShortChecksum s = Ok b ->
     length b = ShortChecksumSize /\ length s = 4%nat
     /\ DecodeString s = Some b)
  /\ (forall b : list byte,
        decodeShortChecksum (EncodeToString b) = Ok b
        <-> length b = ShortChecksumSize)
  /\ (forall (s : text) (b : list byte),
        DecodeString s = Some b -> length s <> 4%nat ->
        decodeShortChecksum s = Err ErrChecksumLength)
  /\ (forall s : text,
        DecodeString s = None -> decodeShortChecksum s = Err ErrSyntax).
Proof.
  repeat apply conj.
  - intros s b. unfold decodeShortChecksum.
    destruct (DecodeString s) as [b'|] eqn:E; [|discriminate].
    destruct (Nat.eqb (length b') ShortChecksumSize) eqn:L; cbn [negb];
      [|discriminate].
    intros [= <-]. apply Nat.eqb_eq in L.
    pose proof (DecodeString_length s b' E) as Hs.
    rewrite L in Hs. repeat split; assumption.
  - intros b. split.
    + unfold decodeShortChecksum. rewrite DecodeString_EncodeToString.
      destruct (Nat.eqb (length b) ShortChecksumSize) eqn:L; cbn [negb];
        [|discriminate].
      intros _. now apply Nat.eqb_eq.
    + apply decodeShortChecksum_encode.
  - intros s b E Hlen. unfold decodeShortChecksum. rewrite E.
    pose proof (DecodeString_length s b E) as Hs.
    destruct (Nat.eqb (length b) ShortChecksumSize) eqn:L; cbn [negb];
      [|reflexivity].
    apply Nat.eqb_eq in L. unfold ShortChecksumSize in L. lia.
  - intros s E. unfold decodeShortChecksum. now rewrite E.
Qed.

Lemma decodeShortChecksum_four_hex_digits_witness :
  decodeShortChecksum (txt "a1b2") = Ok [xa1; xb2]
  /\ length [xa1; xb2] = ShortChecksumSize
  /\ decodeShortChecksum (txt "a1b2c3") = Err ErrChecksumLength.
Proof.
  destruct decodeShortChecksum_four_hex_digits as (Hok & _ & Hlen & _).
  assert (E : decodeShortChecksum (txt "a1b2") = Ok [xa1; xb2]) by reflexivity.
  split; [exact E|]. split.
  - exact (proj1 (Hok (txt "a1b2") [xa1; xb2] E)).
  - apply (Hlen (txt "a1b2c3") [xa1; xb2; xc3]); [reflexivity|discriminate].
Defined.

Lemma ShortLeaf_ToLeaf_NewShortLeaf_witness :
  let leaf := {| leaf_Checksum := repeat x5a 32;
                 leaf_Signature := repeat x33 64;
                 leaf_KeyHash := repeat x44 32 |} in
  ShortLeaf_ToLeaf (NewShortLeaf leaf) (repeat x5a 32) = Ok leaf
  /\ NewShortLeaf leaf
     = {| sl_ShortChecksum := [x5a; x5a]; sl_Signature := repeat x33 64;
          sl_KeyHash := repeat x44 32 |}
  /\ ShortLeaf_ToLeaf (NewShortLeaf leaf) (repeat x00 32)
     = Err ErrChecksumMismatch.
Proof.
  cbv zeta. destruct ShortLeaf_ToLeaf_NewShortLeaf as (Hrt & Hinv & Herr & _).
  pose (leaf := {| leaf_Checksum := repeat x5a 32;
                   leaf_Signature := repeat x33 64;
                   leaf_KeyHash := repeat x44 32 |}).
  split; [exact (Hrt leaf)|]. split.
  - exact (proj2 (proj2 (Hinv _ _ _ (Hrt leaf)))).
  - apply Herr. discriminate.
Defined.


(** X6. [ShortLeaf.ToASCII] writes the single line
    [leaf=<checksum> <key_hash> <signature>] with 2, 32 and 64 bytes in
    lowercase hex, and [ShortLeaf.Parse] reads the short leaf back from it,
    leaving the parser at the end of the input. *)
Theorem ShortLeaf_Parse_ToASCII (l : ShortLeaf) :
  wf_ShortLeaf l ->
  ShortLeaf_ToASCII l
  = txt "leaf" ++ [EQ] ++ EncodeToString (sl_ShortChecksum l)
    ++ [SP] ++ EncodeToString (sl_KeyHash l)
    ++ [SP] ++ EncodeToString (sl_Signature l) ++ [LF]
  /\ length (ShortLeaf_ToASCII l) = 204%nat
  /\ ShortLeaf_Parse (NewParser (ShortLeaf_ToASCII l)) = Ok (l, [[]])
  /\ GetEOF [[]] = Ok tt.
Proof.
  intros (Hc & Hs & Hk).
  assert (Htext : ShortLeaf_ToASCII l
                  = txt "leaf" ++ [EQ] ++ EncodeToString (sl_ShortChecksum l)
                    ++ [SP] ++ EncodeToString (sl_KeyHash l)
                    ++ [SP] ++ EncodeToString (sl_Signature l) ++ [LF]).
  { unfold ShortLeaf_ToASCII, WriteLine. cbn [map join format_value].
    now rewrite <- !app_assoc. }
  repeat apply conj.
  - exact Htext.
  - rewrite Htext, !length_app, !EncodeToString_length, Hc, Hs, Hk.
    reflexivity.
  - rewrite ShortLeaf_ToASCII_line.
    replace (line_of (txt "leaf")
               [HexValue (sl_ShortChecksum l); HexValue (sl_KeyHash l);
                HexValue (sl_Signature l)] ++ [LF])
      with (unlines [line_of (txt "leaf")
                       [HexValue (sl_ShortChecksum l); HexValue (sl_KeyHash l);
                        HexValue (sl_Signature l)]])
      by (unfold unlines; cbn [flat_map]; now rewrite app_nil_r).
    rewrite NewParser_unlines
      by (repeat constructor; apply line_of_no_LF; reflexivity).
    cbn [app]. unfold ShortLeaf_Parse.
    pose proof (GetValues_line_of (txt "leaf")
                  [HexValue (sl_ShortChecksum l); HexValue (sl_KeyHash l);
                   HexValue (sl_Signature l)] [[]] eq_refl) as Hvalues.
    cbn [length] in Hvalues. rewrite Hvalues by discriminate.
    cbn [map format_value bind].
    rewrite (decodeShortChecksum_encode _ Hc).
    unfold HashFromHex, SignatureFromHex.
    rewrite (decode_sized_EncodeToString HashSize _ Hk),
      (decode_sized_EncodeToString SignatureSize _ Hs).
    cbn [wrap_err bind]. now destruct l.
  - reflexivity.
Qed.

Lemma ShortLeaf_Parse_ToASCII_witness :
  let l := {| sl_ShortChecksum := [x01; x02];
              sl_Signature := repeat x33 64;
              sl_KeyHash := repeat x44 32 |} in
  wf_ShortLeaf l
  /\ ShortLeaf_Parse (NewParser (ShortLeaf_ToASCII l)) = Ok (l, [[]]).
Proof.
  cbv zeta.
  assert (Hwf : wf_ShortLeaf {| sl_ShortChecksum := [x01; x02];
                                sl_Signature := repeat x33 64;
                                sl_KeyHash := repeat x44 32 |})
    by (repeat split).
  split; [exact Hwf|].
  exact (proj1 (proj2 (proj2 (ShortLeaf_Parse_ToASCII _ Hwf)))).
Defined.

(* ================================================================= *)
(** * What the parsers return *)

Lemma ParseUint_wf (s : text) (n : N) : ParseUint s = Ok n -> wf_uint64 n.
Proof.
  unfold ParseUint, wf_uint64. destruct s; [discriminate|].
  destruct (NilEmpty.uint_of_string _); [|discriminate].
  destruct (_ <? _) eqn:E; [|discriminate].
  intros [= <-]. now apply N.ltb_lt.
Qed.

Lemma decode_sized_length (size : nat) (s : text) (b : list byte) :
  decode_sized size s = Ok b -> length b = size.
Proof.
  unfold decode_sized. destruct (DecodeString s); [|discriminate].
  destruct (Nat.eqb _ _) eqn:E; [|discriminate].
  intros [= <-]. now apply Nat.eqb_eq.
Qed.

Lemma GetInt_wf (name : text) (p p' : Parser) (n : N) :
  GetInt name p = Ok (n, p') -> wf_uint64 n.
Proof.
  unfold GetInt. destruct (next name p) as [[v q]| |]; cbn [bind];
    try discriminate.
  destruct (ParseUint v) eqn:E; cbn [bind]; try discriminate.
  intros [= <- _]. exact (ParseUint_wf _ _ E).
Qed.

Lemma GetHash_wf (name : text) (p p' : Parser) (h : Hash) :
  GetHash name p = Ok (h, p') -> wf_hash h.
Proof.
  unfold GetHash, HashFromHex. destruct (next name p) as [[v q]| |];
    cbn [bind]; try discriminate.
  destruct (decode_sized HashSize v) eqn:E; cbn [bind]; try discriminate.
  intros [= <- _]. exact (decode_sized_length _ _ _ E).
Qed.

Lemma GetSignature_wf (name : text) (p p' : Parser) (s : Signature) :
  GetSignature name p = Ok (s, p') -> wf_signature s.
Proof.
  unfold GetSignature, SignatureFromHex. destruct (next name p) as [[v q]| |];
    cbn [bind]; try discriminate.
  destruct (decode_sized SignatureSize v) eqn:E; cbn [bind]; try discriminate.
  intros [= <- _]. exact (decode_sized_length _ _ _ E).
Qed.

Lemma GetRepeated_Forall {A} (name : text) (decode : text -> result A)
  (P : A -> Prop) :
  (forall v a, decode v = Ok a -> P a) ->
  forall (p : Parser) (xs : list A),
    GetRepeated name decode p = Ok xs -> Forall P xs.
Proof.
  intros Hdec p. induction p as [|line p IH]; intros xs.
  - intros [= <-]. constructor.
  - cbn [GetRepeated]. destruct p as [|l2 p].
    + destruct line; [intros [= <-]; constructor|discriminate].
    + destruct (line_value name line) as [v| |]; cbn [bind]; try discriminate.
      destruct (decode v) as [a| |] eqn:E; cbn [bind]; try discriminate.
      destruct (GetRepeated name decode (l2 :: p)) as [more| |];
        cbn [bind]; try discriminate.
      intros [= <-]. constructor; [exact (Hdec _ _ E)|now apply IH].
Qed.

Lemma Cosignature_decode_wf (v : text) (cs : Cosignature) :
  Cosignature_decode v = Ok cs -> wf_Cosignature cs.
Proof.
  unfold Cosignature_decode, HashFromHex, SignatureFromHex.
  destruct (split_char SP v) as [|kh [|ts [|sig [|x more]]]]; try discriminate.
  destruct (decode_sized HashSize kh) eqn:E1; cbn [bind]; try discriminate.
  destruct (ParseUint ts) eqn:E2; cbn [bind]; try discriminate.
  destruct (decode_sized SignatureSize sig) eqn:E3; cbn [bind];
    try discriminate.
  intros [= <-]. repeat split; cbn.
  - exact (decode_sized_length _ _ _ E1).
  - exact (ParseUint_wf _ _ E2).
  - exact (decode_sized_length _ _ _ E3).
Qed.

Lemma CosignedTreeHead_FromASCII_wf (r : text) (cth : CosignedTreeHead) :
  CosignedTreeHead_FromASCII r = Ok cth -> wf_CosignedTreeHead cth.
Proof.
  unfold CosignedTreeHead_FromASCII, SignedTreeHead_Parse.
  destruct (GetInt (txt "size") (NewParser r)) as [[size p1]| |] eqn:E1;
    cbn [bind]; try discriminate.
  destruct (GetHash (txt "root_hash") p1) as [[root p2]| |] eqn:E2;
    cbn [bind]; try discriminate.
  destruct (GetSignature (txt "signature") p2) as [[sig p3]| |] eqn:E3;
    cbn [bind]; try discriminate.
  destruct (GetRepeated (txt "cosignature") Cosignature_decode p3)
    as [cosigs| |] eqn:E4; cbn [bind]; try discriminate.
  intros [= <-]. repeat split; cbn.
  - exact (GetInt_wf _ _ _ _ E1).
  - exact (GetHash_wf _ _ _ _ E2).
  - exact (GetSignature_wf _ _ _ _ E3).
  - exact (GetRepeated_Forall _ _ _ Cosignature_decode_wf _ _ E4).
Qed.

Lemma InclusionProof_FromASCII_wf (r : text) (pr : InclusionProof) :
  InclusionProof_FromASCII r = Ok pr -> wf_InclusionProof pr.
Proof.
  unfold InclusionProof_FromASCII.
  destruct (GetInt (txt "leaf_index") (NewParser r)) as [[index p1]| |] eqn:E1;
    cbn [bind]; try discriminate.
  destruct (GetInt (txt "tree_size") p1) as [[size p2]| |] eqn:E2;
    cbn [bind]; try discriminate.
  destruct (GetRepeated (txt "node_hash") HashFromHex p2) as [path| |] eqn:E3;
    cbn [bind]; try discriminate.
  intros [= <-]. repeat split; cbn.
  - exact (GetInt_wf _ _ _ _ E1).
  - exact (GetInt_wf _ _ _ _ E2).
  - refine (GetRepeated_Forall _ _ _ _ _ _ E3).
    intros v a. apply decode_sized_length.
Qed.

Lemma ShortLeaf_Parse_wf (p p' : Parser) (l : ShortLeaf) :
  ShortLeaf_Parse p = Ok (l, p') -> wf_ShortLeaf l.
Proof.
  unfold ShortLeaf_Parse, GetValues.
  destruct (next (txt "leaf") p) as [[v q]| |]; cbn [bind]; try discriminate.
  destruct (split_char SP v) as [|v0 [|v1 [|v2 [|v3 more]]]];
    cbn [length Nat.eqb bind]; try discriminate.
  unfold HashFromHex, SignatureFromHex.
  destruct (decodeShortChecksum v0) eqn:E0; cbn [wrap_err bind];
    try discriminate.
  destruct (decode_sized HashSize v1) eqn:E1; cbn [wrap_err bind];
    try discriminate.
  destruct (decode_sized SignatureSize v2) eqn:E2; cbn [wrap_err bind];
    try discriminate.
  intros [= <- _]. repeat split; cbn.
  - unfold decodeShortChecksum in E0.
    destruct (DecodeString v0); [|discriminate].
    destruct (Nat.eqb _ _) eqn:L; cbn [negb] in E0; [|discriminate].
    injection E0 as <-. now apply Nat.eqb_eq.
  - exact (decode_sized_length _ _ _ E2).
  - exact (decode_sized_length _ _ _ E1).
Qed.

Lemma GetRepeated_no_panic {A} (name : text) (decode : text -> result A) :
  (forall v, decode v <> Panic) ->
  forall p : Parser, GetRepeated name decode p <> Panic.
Proof.
  intros Hdec p. induction p as [|line p IH]; [discriminate|].
  cbn [GetRepeated]. destruct p as [|l2 p].
  - destruct line; discriminate.
  - unfold line_value. destruct (cut_eq line) as [[k v]|]; [|discriminate].
    destruct (text_eqb k name); [|discriminate]. cbn [bind].
    pose proof (Hdec v). destruct (decode v); cbn [bind]; try easy.
    destruct (GetRepeated name decode (l2 :: p)); cbn [bind]; easy.
Qed.

Lemma GetSignature_no_panic (name : text) (p : Parser) :
  GetSignature name p <> Panic.
Proof.
  unfold GetSignature, SignatureFromHex. pose proof (next_no_panic name p).
  destruct (next name p) as [[v p']| |]; cbn [bind]; try easy.
  pose proof (decode_sized_no_panic SignatureSize v).
  destruct (decode_sized SignatureSize v); easy.
Qed.

Lemma Cosignature_decode_no_panic (v : text) : Cosignature_decode v <> Panic.
Proof.
  unfold Cosignature_decode, HashFromHex, SignatureFromHex.
  destruct (split_char SP v) as [|kh [|ts [|sig [|x more]]]]; try discriminate.
  pose proof (decode_sized_no_panic HashSize kh).
  destruct (decode_sized HashSize kh); cbn [bind]; try easy.
  pose proof (ParseUint_no_panic ts).
  destruct (ParseUint ts); cbn [bind]; try easy.
  pose proof (decode_sized_no_panic SignatureSize sig).
  destruct (decode_sized SignatureSize sig); cbn [bind]; easy.
Qed.

Lemma CosignedTreeHead_FromASCII_no_panic (r : text) :
  CosignedTreeHead_FromASCII r <> Panic.
Proof.
  unfold CosignedTreeHead_FromASCII, SignedTreeHead_Parse.
  pose proof (GetInt_no_panic (txt "size") (NewParser r)).
  destruct (GetInt (txt "size") (NewParser r)) as [[size p1]| |];
    cbn [bind]; try easy.
  pose proof (GetHash_no_panic (txt "root_hash") p1).
  destruct (GetHash (txt "root_hash") p1) as [[root p2]| |];
    cbn [bind]; try easy.
  pose proof (GetSignature_no_panic (txt "signature") p2).
  destruct (GetSignature (txt "signature") p2) as [[sig p3]| |];
    cbn [bind]; try easy.
  pose proof (GetRepeated_no_panic (txt "cosignature") Cosignature_decode
                Cosignature_decode_no_panic p3).
  destruct (GetRepeated (txt "cosignature") Cosignature_decode p3);
    cbn [bind]; easy.
Qed.

Lemma InclusionProof_FromASCII_no_panic (r : text) :
  InclusionProof_FromASCII r <> Panic.
Proof.
  unfold InclusionProof_FromASCII.
  pose proof (GetInt_no_panic (txt "leaf_index") (NewParser r)).
  destruct (GetInt (txt "leaf_index") (NewParser r)) as [[index p1]| |];
    cbn [bind]; try easy.
  pose proof (GetInt_no_panic (txt "tree_size") p1).
  destruct (GetInt (txt "tree_size") p1) as [[size p2]| |];
    cbn [bind]; try easy.
  pose proof (GetRepeated_no_panic (txt "node_hash") HashFromHex
                (decode_sized_no_panic HashSize) p2).
  destruct (GetRepeated (txt "node_hash") HashFromHex p2); cbn [bind]; easy.
Qed.

(** X7. Whatever the input, [SigsumProof.FromASCII] returns a bundle or an
    error; indexing the blocks and the values of the leaf line never goes
    out of range.  A bundle it returns is well formed, is for a non-empty
    tree, holds the zero inclusion proof exactly when it was read from two
    blocks (size 1), and is read back unchanged from the text [ToASCII]
    writes for it. *)
Theorem SigsumProof_FromASCII_result (data : text) :
  SigsumProof_FromASCII data <> Panic
  /\ (forall sp : SigsumProof,
        SigsumProof_FromASCII data = Ok sp ->
        wf_SigsumProof sp
        /\ 1 <= cth_Size (sp_TreeHead sp)
        /\ (cth_Size (sp_TreeHead sp) = 1 ->
            sp_Inclusion sp = InclusionProof_zero
            /\ length (split_blank data) = 2%nat)
        /\ (1 < cth_Size (sp_TreeHead sp) ->
            length (split_blank data) = 3%nat)
        /\ SigsumProof_FromASCII (SigsumProof_ToASCII sp) = Ok sp).
Proof.
  unfold SigsumProof_FromASCII at 1 2.
  destruct (Nat.ltb (length (split_blank data)) 2) eqn:Hlen;
    [split; [discriminate|intros sp; discriminate]|].
  cbv zeta. apply Nat.ltb_ge in Hlen.
  rewrite <- (reapply_newline_length (split_blank data)) in *.
  destruct (reapply_newline (split_blank data)) as [|part0 [|part1 others]];
    cbn [length] in Hlen; try lia.
  pose proof (GetInt_no_panic (txt "version") (NewParser part0)) as N1.
  destruct (GetInt (txt "version") (NewParser part0)) as [[version p1]|e|];
    cbn [wrap_err bind]; [|split; [discriminate|intros sp; discriminate]
                          |contradiction].
  destruct (negb (version =? SigsumProofVersion));
    [split; [discriminate|intros sp; discriminate]|].
  pose proof (GetHash_no_panic (txt "log") p1) as N2.
  destruct (GetHash (txt "log") p1) as [[logKeyHash p2]|e|] eqn:Elog;
    cbn [wrap_err bind]; [|split; [discriminate|intros sp; discriminate]
                          |contradiction].
  pose proof (ShortLeaf_Parse_no_panic p2) as N3.
  destruct (ShortLeaf_Parse p2) as [[leaf p3]|e|] eqn:Eleaf;
    cbn [bind]; [|split; [discriminate|intros sp; discriminate]|contradiction].
  pose proof (GetEOF_no_panic p3) as N4.
  destruct (GetEOF p3) as [[]|e|]; cbn [bind];
    [|split; [discriminate|intros sp; discriminate]|contradiction].
  pose proof (CosignedTreeHead_FromASCII_no_panic part1) as N5.
  destruct (CosignedTreeHead_FromASCII part1) as [cth|e|] eqn:Ecth;
    cbn [bind]; [|split; [discriminate|intros sp; discriminate]|contradiction].
  pose proof (GetHash_wf _ _ _ _ Elog) as Wlog.
  pose proof (ShortLeaf_Parse_wf _ _ _ Eleaf) as Wleaf.
  pose proof (CosignedTreeHead_FromASCII_wf _ _ Ecth) as Wcth.
  destruct (cth_Size cth =? 0) eqn:Z0;
    [split; [discriminate|intros sp; discriminate]|].
  apply N.eqb_neq in Z0.
  destruct (cth_Size cth =? 1) eqn:Z1.
  - apply N.eqb_eq in Z1.
    destruct (Nat.eqb (length (part0 :: part1 :: others)) 2) eqn:L2;
      cbn [negb]; [|split; [discriminate|intros sp; discriminate]].
    apply Nat.eqb_eq in L2. split; [discriminate|].
    intros sp [= <-].
    cbn [sp_LogKeyHash sp_Leaf sp_TreeHead sp_Inclusion].
    assert (Wsp : wf_SigsumProof
                    {| sp_LogKeyHash := logKeyHash; sp_Leaf := leaf;
                       sp_TreeHead := cth;
                       sp_Inclusion := InclusionProof_zero |}).
    { repeat split; try assumption; try apply Wleaf; try apply Wcth.
      constructor. }
    split; [exact Wsp|]. split; [lia|]. split; [|split; [lia|]].
    + intros _. split; [reflexivity|exact L2].
    + rewrite (SigsumProof_FromASCII_ToASCII _ Wsp).
      cbn [sp_TreeHead]. rewrite Z1. reflexivity.
  - apply N.eqb_neq in Z1.
    destruct (Nat.eqb (length (part0 :: part1 :: others)) 3) eqn:L3;
      cbn [negb]; [|split; [discriminate|intros sp; discriminate]].
    apply Nat.eqb_eq in L3.
    destruct others as [|part2 others]; [discriminate L3|].
    pose proof (InclusionProof_FromASCII_no_panic part2) as N6.
    destruct (InclusionProof_FromASCII part2) as [inclusion|e|] eqn:Einc;
      cbn [bind]; [|split; [discriminate|intros sp; discriminate]
                   |contradiction].
    split; [discriminate|]. intros sp [= <-].
    cbn [sp_LogKeyHash sp_Leaf sp_TreeHead sp_Inclusion].
    pose proof (InclusionProof_FromASCII_wf _ _ Einc) as Winc.
    assert (Wsp : wf_SigsumProof
                    {| sp_LogKeyHash := logKeyHash; sp_Leaf := leaf;
                       sp_TreeHead := cth; sp_Inclusion := inclusion |}).
    { repeat split; try assumption; try apply Wleaf; try apply Wcth;
        apply Winc. }
    split; [exact Wsp|]. split; [lia|]. split; [lia|split].
    + intros _. exact L3.
    + rewrite (SigsumProof_FromASCII_ToASCII _ Wsp).
      cbn [sp_TreeHead].
      destruct (cth_Size cth =? 0) eqn:A; [apply N.eqb_eq in A; lia|].
      destruct (cth_Size cth =? 1) eqn:B; [apply N.eqb_eq in B; lia|].
      reflexivity.
Qed.

Lemma SigsumProof_FromASCII_result_witness :
  let sp := sample_bundle 1 InclusionProof_zero in
  SigsumProof_FromASCII (SigsumProof_ToASCII sp) = Ok sp
  /\ wf_SigsumProof sp
  /\ length (split_blank (SigsumProof_ToASCII sp)) = 2%nat.
Proof.
  cbv zeta.
  assert (E : SigsumProof_FromASCII
                (SigsumProof_ToASCII (sample_bundle 1 InclusionProof_zero))
              = Ok (sample_bundle 1 InclusionProof_zero))
    by (vm_compute; reflexivity).
  destruct (SigsumProof_FromASCII_result
              (SigsumProof_ToASCII (sample_bundle 1 InclusionProof_zero)))
    as [_ H].
  destruct (H _ E) as (Hwf & _ & Hone & _).
  split; [exact E|]. split; [exact Hwf|].
  exact (proj2 (Hone eq_refl)).
Defined.

(* ================================================================= *)
(** * The blocks of a proof bundle *)

Lemma split_blank_no_blank (s : text) :
  has_blank_line s = false -> split_blank s = [s].
Proof.
  enough (H : (has_blank_line s = false -> split_blank s = [s])
              /\ (forall c, has_blank_line (c :: s) = false ->
                            split_blank (c :: s) = [c :: s]))
    by apply H.
  induction s as [|d s [IH1 IH2]].
  - split; reflexivity.
  - split; [apply IH2|].
    intros c. cbn [has_blank_line]. intros H.
    apply orb_false_iff in H as [Hcd Hrest].
    change (split_blank (c :: d :: s))
      with (if Ascii.eqb c LF && Ascii.eqb d LF then [] :: split_blank s
            else cons_head c (split_blank (d :: s))).
    rewrite Hcd, (IH2 d Hrest). reflexivity.
Qed.

Lemma split_blank_blank (s : text) :
  has_blank_line s = true -> (2 <= length (split_blank s))%nat.
Proof.
  enough (H : (has_blank_line s = true -> (2 <= length (split_blank s))%nat)
              /\ (forall c, has_blank_line (c :: s) = true ->
                            (2 <= length (split_blank (c :: s)))%nat))
    by apply H.
  induction s as [|d s [IH1 IH2]].
  - split; [discriminate|intros c; discriminate].
  - split; [apply IH2|].
    intros c. cbn [has_blank_line].
    change (split_blank (c :: d :: s))
      with (if Ascii.eqb c LF && Ascii.eqb d LF then [] :: split_blank s
            else cons_head c (split_blank (d :: s))).
    destruct (Ascii.eqb c LF && Ascii.eqb d LF); cbn [orb].
    + intros _. pose proof (split_blank_nonempty s).
      destruct (split_blank s); [contradiction|cbn [length]; lia].
    + intros H. specialize (IH2 d H).
      pose proof (split_blank_nonempty (d :: s)) as Hne.
      destruct (split_blank (d :: s)); [contradiction|exact IH2].
Qed.

Lemma next_codec_error (name : text) (p : Parser) (e : error) :
  next name p = Err e -> is_codec_error e = true.
Proof.
  destruct p as [|l [|q p]]; cbn [next].
  - intros [= <-]. reflexivity.
  - destruct l; intros [= <-]; reflexivity.
  - unfold line_value. destruct (cut_eq l) as [[k v]|];
      [|intros [= <-]; reflexivity].
    destruct (text_eqb k name); cbn [bind]; [discriminate|].
    intros [= <-]. reflexivity.
Qed.

Lemma ParseUint_codec_error (s : text) (e : error) :
  ParseUint s = Err e -> is_codec_error e = true.
Proof. intros H. destruct (ParseUint_error s e H) as [->| ->]; reflexivity. Qed.

Lemma decode_sized_codec_error (size : nat) (s : text) (e : error) :
  decode_sized size s = Err e -> is_codec_error e = true.
Proof.
  intros H. destruct (decode_sized_error size s e H) as [->| ->]; reflexivity.
Qed.

Lemma GetInt_codec_error (name : text) (p : Parser) (e : error) :
  GetInt name p = Err e -> is_codec_error e = true.
Proof.
  unfold GetInt. destruct (next name p) as [[v q]|e'|] eqn:E; cbn [bind].
  - destruct (ParseUint v) eqn:E2; cbn [bind]; try discriminate.
    intros [= <-]. exact (ParseUint_codec_error _ _ E2).
  - intros [= <-]. exact (next_codec_error _ _ _ E).
  - discriminate.
Qed.

Lemma GetHash_codec_error (name : text) (p : Parser) (e : error) :
  GetHash name p = Err e -> is_codec_error e = true.
Proof.
  unfold GetHash, HashFromHex.
  destruct (next name p) as [[v q]|e'|] eqn:E; cbn [bind].
  - destruct (decode_sized HashSize v) eqn:E2; cbn [bind]; try discriminate.
    intros [= <-]. exact (decode_sized_codec_error _ _ _ E2).
  - intros [= <-]. exact (next_codec_error _ _ _ E).
  - discriminate.
Qed.

Lemma GetSignature_codec_error (name : text) (p : Parser) (e : error) :
  GetSignature name p = Err e -> is_codec_error e = true.
Proof.
  unfold GetSignature, SignatureFromHex.
  destruct (next name p) as [[v q]|e'|] eqn:E; cbn [bind].
  - destruct (decode_sized SignatureSize v) eqn:E2; cbn [bind];
      try discriminate.
    intros [= <-]. exact (decode_sized_codec_error _ _ _ E2).
  - intros [= <-]. exact (next_codec_error _ _ _ E).
  - discriminate.
Qed.

Lemma GetEOF_codec_error (p : Parser) (e : error) :
  GetEOF p = Err e -> is_codec_error e = true.
Proof.
  destruct p as [|l [|q p]]; cbn [GetEOF]; try discriminate.
  - destruct l; [discriminate|]. intros [= <-]. reflexivity.
  - intros [= <-]. reflexivity.
Qed.

Lemma GetRepeated_codec_error {A} (name : text) (decode : text -> result A) :
  (forall v e, decode v = Err e -> is_codec_error e = true) ->
  forall (p : Parser) (e : error),
    GetRepeated name decode p = Err e -> is_codec_error e = true.
Proof.
  intros Hdec p. induction p as [|line p IH]; intros e; [discriminate|].
  cbn [GetRepeated]. destruct p as [|l2 p].
  - destruct line; [discriminate|]. intros [= <-]. reflexivity.
  - unfold line_value. destruct (cut_eq line) as [[k v]|];
      [|intros [= <-]; reflexivity].
    destruct (text_eqb k name); cbn [bind]; [|intros [= <-]; reflexivity].
    destruct (decode v) as [a|e'|] eqn:E; cbn [bind].
    + destruct (GetRepeated name decode (l2 :: p)) as [more|e'|] eqn:E2;
        cbn [bind]; try discriminate.
      intros [= <-]. now apply IH.
    + intros [= <-]. exact (Hdec _ _ E).
    + discriminate.
Qed.

Lemma Cosignature_decode_codec_error (v : text) (e : error) :
  Cosignature_decode v = Err e -> is_codec_error e = true.
Proof.
  unfold Cosignature_decode, HashFromHex, SignatureFromHex.
  destruct (split_char SP v) as [|kh [|ts [|sig [|x more]]]];
    try (intros [= <-]; reflexivity).
  destruct (decode_sized HashSize kh) eqn:E1; cbn [bind]; try discriminate.
  2:{ intros [= <-]. exact (decode_sized_codec_error _ _ _ E1). }
  destruct (ParseUint ts) eqn:E2; cbn [bind]; try discriminate.
  2:{ intros [= <-]. exact (ParseUint_codec_error _ _ E2). }
  destruct (decode_sized SignatureSize sig) eqn:E3; cbn [bind];
    try discriminate.
  intros [= <-]. exact (decode_sized_codec_error _ _ _ E3).
Qed.

Lemma CosignedTreeHead_FromASCII_codec_error (r : text) (e : error) :
  CosignedTreeHead_FromASCII r = Err e -> is_codec_error e = true.
Proof.
  unfold CosignedTreeHead_FromASCII, SignedTreeHead_Parse.
  destruct (GetInt (txt "size") (NewParser r)) as [[size p1]| |] eqn:E1;
    cbn [bind]; try discriminate.
  2:{ intros [= <-]. exact (GetInt_codec_error _ _ _ E1). }
  destruct (GetHash (txt "root_hash") p1) as [[root p2]| |] eqn:E2;
    cbn [bind]; try discriminate.
  2:{ intros [= <-]. exact (GetHash_codec_error _ _ _ E2). }
  destruct (GetSignature (txt "signature") p2) as [[sig p3]| |] eqn:E3;
    cbn [bind]; try discriminate.
  2:{ intros [= <-]. exact (GetSignature_codec_error _ _ _ E3). }
  destruct (GetRepeated (txt "cosignature") Cosignature_decode p3)
    as [cosigs| |] eqn:E4; cbn [bind]; try discriminate.
  intros [= <-].
  exact (GetRepeated_codec_error _ _ Cosignature_decode_codec_error _ _ E4).
Qed.

Lemma InclusionProof_FromASCII_codec_error (r : text) (e : error) :
  InclusionProof_FromASCII r = Err e -> is_codec_error e = true.
Proof.
  unfold InclusionProof_FromASCII.
  destruct (GetInt (txt "leaf_index") (NewParser r)) as [[index p1]| |] eqn:E1;
    cbn [bind]; try discriminate.
  2:{ intros [= <-]. exact (GetInt_codec_error _ _ _ E1). }
  destruct (GetInt (txt "tree_size") p1) as [[size p2]| |] eqn:E2;
    cbn [bind]; try discriminate.
  2:{ intros [= <-]. exact (GetInt_codec_error _ _ _ E2). }
  destruct (GetRepeated (txt "node_hash") HashFromHex p2) as [path| |] eqn:E3;
    cbn [bind]; try discriminate.
  intros [= <-].
  exact (GetRepeated_codec_error _ _ (decode_sized_codec_error HashSize) _ _ E3).
Qed.

Lemma ShortLeaf_Parse_error (p : Parser) (e : error) :
  ShortLeaf_Parse p = Err e ->
  is_codec_error e = true
  \/ (exists c, e = ErrInvalidChecksum c)
  \/ (exists c, e = ErrInvalidKeyHash c)
  \/ (exists c, e = ErrInvalidLeafSignature c).
Proof.
  unfold ShortLeaf_Parse, GetValues.
  destruct (next (txt "leaf") p) as [[v q]|e'|] eqn:E; cbn [bind];
    try discriminate.
  2:{ intros [= <-]. left. exact (next_codec_error _ _ _ E). }
  destruct (split_char SP v) as [|v0 [|v1 [|v2 [|v3 more]]]];
    cbn [length Nat.eqb bind]; try (intros [= <-]; now left).
  destruct (decodeShortChecksum v0); cbn [wrap_err bind]; try discriminate.
  2:{ intros [= <-]. right. left. eauto. }
  destruct (HashFromHex v1); cbn [wrap_err bind]; try discriminate.
  2:{ intros [= <-]. right. right. left. eauto. }
  destruct (SignatureFromHex v2); cbn [wrap_err bind]; try discriminate.
  intros [= <-]. right. right. right. eauto.
Qed.

(** The errors [FromASCII] returns once the text has at least two
    blocks. *)
Lemma SigsumProof_FromASCII_later_errors (data : text) (e : error) :
  has_blank_line data = true ->
  SigsumProof_FromASCII data = Err e ->
  (exists c, e = ErrInvalidVersionLine c /\ is_codec_error c = true)
  \/ (exists v, e = ErrUnexpectedVersion v /\ v <> SigsumProofVersion)
  \/ (exists c, e = ErrInvalidLogLine c /\ is_codec_error c = true)
  \/ (exists c, e = ErrInvalidChecksum c)
  \/ (exists c, e = ErrInvalidKeyHash c)
  \/ (exists c, e = ErrInvalidLeafSignature c)
  \/ is_codec_error e = true
  \/ e = ErrEmptyTree \/ e = ErrTooManyParts \/ e = ErrTooFewParts.
Proof.
  intros Hblank. apply split_blank_blank in Hblank.
  unfold SigsumProof_FromASCII.
  destruct (Nat.ltb (length (split_blank data)) 2) eqn:Hlen;
    [apply Nat.ltb_lt in Hlen; lia|].
  cbv zeta.
  destruct (reapply_newline (split_blank data)) as [|part0 [|part1 others]];
    try discriminate.
  destruct (GetInt (txt "version") (NewParser part0)) as [[version p1]|c|] eqn:E1;
    cbn [wrap_err bind]; try discriminate.
  2:{ intros [= <-]. left. exists c. split; [reflexivity|].
      exact (GetInt_codec_error _ _ _ E1). }
  destruct (version =? SigsumProofVersion) eqn:V; cbn [negb].
  2:{ intros [= <-]. right. left. exists version. split; [reflexivity|].
      now apply N.eqb_neq. }
  destruct (GetHash (txt "log") p1) as [[logKeyHash p2]|c|] eqn:E2;
    cbn [wrap_err bind]; try discriminate.
  2:{ intros [= <-]. right. right. left. exists c. split; [reflexivity|].
      exact (GetHash_codec_error _ _ _ E2). }
  destruct (ShortLeaf_Parse p2) as [[leaf p3]|c|] eqn:E3; cbn [bind];
    try discriminate.
  2:{ intros [= <-].
      destruct (ShortLeaf_Parse_error _ _ E3) as [H|[H|[H|H]]]; tauto. }
  destruct (GetEOF p3) as [[]|c|] eqn:E4; cbn [bind]; try discriminate.
  2:{ intros [= <-]. do 6 right. left. exact (GetEOF_codec_error _ _ E4). }
  destruct (CosignedTreeHead_FromASCII part1) as [cth|c|] eqn:E5; cbn [bind];
    try discriminate.
  2:{ intros [= <-]. do 6 right. left.
      exact (CosignedTreeHead_FromASCII_codec_error _ _ E5). }
  destruct (cth_Size cth =? 0); [intros [= <-]; tauto|].
  destruct (cth_Size cth =? 1).
  - destruct (negb _); [intros [= <-]; tauto|discriminate].
  - destruct (negb _); [intros [= <-]; tauto|].
    destruct others as [|part2 others]; [discriminate|].
    destruct (InclusionProof_FromASCII part2) as [inc|c|] eqn:E6; cbn [bind];
      try discriminate.
    intros [= <-]. do 6 right. left.
    exact (InclusionProof_FromASCII_codec_error _ _ E6).
Qed.

(** X8. [SigsumProof.FromASCII] reports too few parts exactly for the
    texts without a blank line, the empty text among them.  For a text
    with a blank line every error is one of: a bad version line, a version
    other than 0, a bad log line, a bad field of the leaf line, an error
    of the line parser, an empty tree, too many parts (size 1), too few
    parts (size above 1). *)
Theorem SigsumProof_FromASCII_blocks (data : text) :
  (SigsumProof_FromASCII data = Err ErrInvalidProofTooFewParts
   <-> has_blank_line data = false)
  /\ (forall e : error,
        has_blank_line data = true ->
        SigsumProof_FromASCII data = Err e ->
        (exists c, e = ErrInvalidVersionLine c /\ is_codec_error c = true)
        \/ (exists v, e = ErrUnexpectedVersion v /\ v <> SigsumProofVersion)
        \/ (exists c, e = ErrInvalidLogLine c /\ is_codec_error c = true)
        \/ (exists c, e = ErrInvalidChecksum c)
        \/ (exists c, e = ErrInvalidKeyHash c)
        \/ (exists c, e = ErrInvalidLeafSignature c)
        \/ is_codec_error e = true
        \/ e = ErrEmptyTree \/ e = ErrTooManyParts \/ e = ErrTooFewParts).
Proof.
  split.
  - split.
    + intros H. destruct (has_blank_line data) eqn:B; [|reflexivity].
      destruct (SigsumProof_FromASCII_later_errors data _ B H)
        as [(c & E & _)|[(v & E & _)|[(c & E & _)|[(c & E)|[(c & E)|[(c & E)
            |[E|[E|[E|E]]]]]]]]]; discriminate E.
    + intros B. unfold SigsumProof_FromASCII.
      now rewrite (split_blank_no_blank data B).
  - intros e. apply SigsumProof_FromASCII_later_errors.
Qed.

Lemma SigsumProof_FromASCII_blocks_witness :
  SigsumProof_FromASCII [] = Err ErrInvalidProofTooFewParts
  /\ SigsumProof_FromASCII (txt "version=0") = Err ErrInvalidProofTooFewParts.
Proof.
  split.
  - apply (proj1 (SigsumProof_FromASCII_blocks [])). reflexivity.
  - apply (proj1 (SigsumProof_FromASCII_blocks (txt "version=0"))). reflexivity.
Defined.

(* ================================================================= *)
(** * Requests in the line format *)

Lemma NewParser_unlines_app (ls : list text) (rest : text) :
  Forall (fun l => no_char LF l = true) ls ->
  NewParser (unlines ls ++ rest) = ls ++ NewParser rest.
Proof.
  unfold NewParser. induction 1 as [|l ls Hl _ IH]; [reflexivity|].
  unfold unlines in *. cbn [flat_map]. rewrite <- !app_assoc. cbn [app].
  rewrite (split_char_app LF l _ Hl), IH. reflexivity.
Qed.

Lemma GetPublicKey_line_of (key : text) (k : PublicKey) (p : Parser) :
  no_char EQ key = true -> p <> [] -> length k = PublicKeySize ->
  GetPublicKey key (line_of key [HexValue k] :: p) = Ok (k, p).
Proof.
  intros Hkey Hp Hk. unfold GetPublicKey, PublicKeyFromHex.
  rewrite (next_line_of key [HexValue k] p Hkey Hp). cbn [bind map join format_value].
  now rewrite (decode_sized_EncodeToString PublicKeySize k Hk).
Qed.

Lemma GetEOF_garbage (rest : text) :
  rest <> [] -> GetEOF (NewParser rest) = Err ErrGarbage.
Proof.
  intros Hrest. unfold NewParser.
  destruct rest as [|c rest]; [contradiction|].
  pose proof (join_split_char LF (c :: rest)) as Hjoin.
  destruct (split_char LF (c :: rest)) as [|l [|q p]] eqn:E.
  - now apply split_char_nonempty in E.
  - cbn [join] in Hjoin. subst l. reflexivity.
  - reflexivity.
Qed.

(** X9. [requests.Leaf.ToASCII] writes the three lines [message],
    [signature], [public_key] in lowercase hex, and [FromASCII] reads the
    request back; anything that follows the third line is refused as
    garbage. *)
Theorem requests_Leaf_FromASCII_ToASCII (req : requests.Leaf) :
  wf_hash (requests.Leaf_Message req) ->
  wf_signature (requests.Leaf_Signature req) ->
  length (requests.Leaf_PublicKey req) = PublicKeySize ->
  requests.Leaf_ToASCII req
  = unlines [line_of (txt "message") [HexValue (requests.Leaf_Message req)];
             line_of (txt "signature") [HexValue (requests.Leaf_Signature req)];
             line_of (txt "public_key") [HexValue (requests.Leaf_PublicKey req)]]
  /\ requests.Leaf_FromASCII (requests.Leaf_ToASCII req) = Ok req
  /\ (forall rest : text,
        rest <> [] ->
        requests.Leaf_FromASCII (requests.Leaf_ToASCII req ++ rest)
        = Err ErrGarbage).
Proof.
  intros Hm Hs Hk.
  assert (Htext : requests.Leaf_ToASCII req
                  = unlines [line_of (txt "message")
                               [HexValue (requests.Leaf_Message req)];
                             line_of (txt "signature")
                               [HexValue (requests.Leaf_Signature req)];
                             line_of (txt "public_key")
                               [HexValue (requests.Leaf_PublicKey req)]]).
  { unfold requests.Leaf_ToASCII, WriteLineHex. cbn [map].
    rewrite !WriteLine_line_of. unfold unlines. cbn [flat_map].
    now rewrite app_nil_r. }
  assert (Hparse : forall rest,
            requests.Leaf_FromASCII (requests.Leaf_ToASCII req ++ rest)
            = do _ <- GetEOF (NewParser rest); Ok req).
  { intros rest. rewrite Htext. unfold requests.Leaf_FromASCII.
    rewrite NewParser_unlines_app
      by (repeat constructor; apply line_of_no_LF; reflexivity).
    cbn [app].
    rewrite GetHash_line_of by (reflexivity || discriminate || exact Hm).
    cbn [bind].
    rewrite GetSignature_line_of by (reflexivity || discriminate || exact Hs).
    cbn [bind].
    rewrite GetPublicKey_line_of
      by (reflexivity || apply split_char_nonempty || exact Hk).
    cbn [bind]. now destruct req. }
  split; [exact Htext|]. split.
  - specialize (Hparse []). rewrite app_nil_r in Hparse. exact Hparse.
  - intros rest Hrest. rewrite Hparse, (GetEOF_garbage rest Hrest). reflexivity.
Qed.

Lemma requests_Leaf_FromASCII_ToASCII_witness :
  let req := {| requests.Leaf_Message := repeat x11 32;
                requests.Leaf_Signature := repeat x22 64;
                requests.Leaf_PublicKey := repeat x33 32 |} in
  requests.Leaf_FromASCII (requests.Leaf_ToASCII req) = Ok req
  /\ requests.Leaf_FromASCII (requests.Leaf_ToASCII req ++ txt "x")
     = Err ErrGarbage.
Proof.
  cbv zeta.
  destruct (requests_Leaf_FromASCII_ToASCII
              {| requests.Leaf_Message := repeat x11 32;
                 requests.Leaf_Signature := repeat x22 64;
                 requests.Leaf_PublicKey := repeat x33 32 |}
              eq_refl eq_refl eq_refl) as (_ & Hrt & Hgarbage).
  split; [exact Hrt|]. apply Hgarbage. discriminate.
Defined.



(* ================================================================= *)
(** * Compact ranges *)

Section CompactRanges.

Variable makeNode : Hash -> Hash -> Hash.

Lemma div2_odd_unique (x a : N) (b : bool) :
  x = 2 * a + N.b2n b -> N.odd x = b /\ N.div2 x = a.
Proof.
  intros E. pose proof (N.div2_odd x) as H.
  destruct (N.odd x), b; cbn [N.b2n] in *; split; (reflexivity || lia).
Qed.

Lemma OnesCount64_pred_even (q : positive) :
  OnesCount64 (Npos (xO q) - 1) = 1 + OnesCount64 (Npos q - 1).
Proof.
  rewrite (OnesCount64_step (Npos (xO q) - 1)).
  destruct (div2_odd_unique (Npos (xO q) - 1) (Npos q - 1) true) as [-> ->];
    [cbn [N.b2n]; lia|reflexivity].
Qed.

Lemma OnesCount64_pred_odd (s : N) :
  N.odd s = true -> OnesCount64 s = 1 + OnesCount64 (s - 1).
Proof.
  intros Hodd. rewrite (OnesCount64_step s), Hodd.
  rewrite (OnesCount64_step (s - 1)).
  pose proof (N.div2_odd s) as Hs. rewrite Hodd in Hs. cbn [N.b2n] in Hs.
  destruct (div2_odd_unique (s - 1) (N.div2 s) false) as [-> ->];
    [cbn [N.b2n]; lia|reflexivity].
Qed.

Lemma OnesCount64_zero (x : N) : OnesCount64 x = 0 -> x = 0.
Proof.
  destruct x as [|p]; [reflexivity|]. cbn [OnesCount64].
  induction p; cbn [pos_ones]; lia.
Qed.

(** Pushing the hash of leaf number [s - 1] on a range that has one tree
    per one bit of [s - 1] leaves one tree per one bit of [s]. *)
Lemma extend_stack_length (p : positive) :
  forall (st : list Hash) (h : Hash),
    N.of_nat (length st) = OnesCount64 (Npos p - 1) ->
    N.of_nat (length (extend_stack makeNode st (Npos p) h))
    = OnesCount64 (Npos p).
Proof.
  induction p as [q IH|q IH|]; intros st h Hlen.
  - (* odd *)
    rewrite (OnesCount64_pred_odd (Npos (xI q)) eq_refl), <- Hlen.
    destruct st as [|top below]; cbn [extend_stack]; [cbn [length]; lia|].
    rewrite isEven_even. change (N.odd (Npos (xI q))) with true. cbn [negb].
    cbn [length]. lia.
  - (* even *)
    rewrite OnesCount64_pred_even in Hlen.
    destruct st as [|top below]; cbn [length] in Hlen; [lia|].
    cbn [extend_stack]. rewrite isEven_even.
    change (N.odd (Npos (xO q))) with false. cbn [negb].
    change (N.shiftr (Npos (xO q)) 1) with (Npos q).
    rewrite IH by lia. reflexivity.
  - (* one *)
    replace (Npos 1 - 1) with 0 in Hlen by reflexivity.
    cbn [OnesCount64] in Hlen.
    destruct st; [reflexivity|cbn [length] in Hlen; lia].
Qed.

Lemma extendRange_length (cr : list Hash) (i : N) (h : Hash) :
  i + 1 < 2 ^ 64 ->
  N.of_nat (length cr) = OnesCount64 i ->
  N.of_nat (length (extendRange cr i h makeNode)) = OnesCount64 (i + 1).
Proof.
  intros Hi Hlen. unfold extendRange. rewrite length_rev.
  rewrite add64_small by exact Hi.
  destruct (i + 1) as [|p] eqn:E; [lia|].
  apply extend_stack_length. rewrite length_rev, Hlen. f_equal. lia.
Qed.

Lemma range_loop_length (rest : list Hash) :
  forall (cr : list Hash) (i : N),
    i + N.of_nat (length rest) < 2 ^ 64 ->
    N.of_nat (length cr) = OnesCount64 i ->
    N.of_nat (length (range_loop makeNode cr i rest))
    = OnesCount64 (i + N.of_nat (length rest)).
Proof.
  induction rest as [|h rest IH]; intros cr i Hi Hlen.
  - cbn [range_loop length]. now rewrite N.add_0_r.
  - cbn [range_loop]. cbn [length] in *.
    rewrite IH.
    + f_equal. lia.
    + lia.
    + apply extendRange_length; [lia|exact Hlen].
Qed.

End CompactRanges.

Lemma OnesCount64_pow2 (k : N) : OnesCount64 (2 ^ k) = 1.
Proof.
  induction k as [|k IH] using N.peano_ind; [reflexivity|].
  rewrite N.pow_succ_r', OnesCount64_step.
  destruct (div2_odd_unique (2 * 2 ^ k) (2 ^ k) false) as [-> ->];
    [cbn [N.b2n]; lia|exact IH].
Qed.

(** X11. The compact range that [makeRightRange] and [makeLeftRange] build
    from [n] leaves has one hash per one bit of [n]; from [2^k] leaves it
    is a single hash, from no leaves it is empty. *)
Theorem compact_range_length (HashBytes : list byte -> Hash)
  (leaves : list Hash) :
  N.of_nat (length leaves) < 2 ^ 64 ->
  N.of_nat (length (makeRightRange HashBytes leaves))
  = OnesCount64 (N.of_nat (length leaves))
  /\ N.of_nat (length (makeLeftRange HashBytes leaves))
     = OnesCount64 (N.of_nat (length leaves))
  /\ (forall k : N,
        N.of_nat (length leaves) = 2 ^ k ->
        (exists root, makeRightRange HashBytes leaves = [root])
        /\ (exists root, makeLeftRange HashBytes leaves = [root]))
  /\ (leaves = [] ->
      makeRightRange HashBytes leaves = []
      /\ makeLeftRange HashBytes leaves = []).
Proof.
  intros Hlen.
  assert (Hright : N.of_nat (length (makeRightRange HashBytes leaves))
                   = OnesCount64 (N.of_nat (length leaves))).
  { unfold makeRightRange. destruct leaves as [|h rest]; [reflexivity|].
    cbn [length] in *. rewrite range_loop_length.
    - f_equal. lia.
    - lia.
    - reflexivity. }
  assert (Hleft : N.of_nat (length (makeLeftRange HashBytes leaves))
                  = OnesCount64 (N.of_nat (length leaves))).
  { unfold makeLeftRange. rewrite <- (length_rev leaves) in *.
    destruct (rev leaves) as [|h rest]; [reflexivity|].
    cbn [length] in *. rewrite range_loop_length.
    - f_equal. lia.
    - lia.
    - reflexivity. }
  split; [exact Hright|]. split; [exact Hleft|]. split.
  - intros k Hk. rewrite Hk, OnesCount64_pow2 in Hright, Hleft.
    split.
    + destruct (makeRightRange HashBytes leaves) as [|r [|r2 more]];
        cbn [length] in Hright; try lia. now exists r.
    + destruct (makeLeftRange HashBytes leaves) as [|r [|r2 more]];
        cbn [length] in Hleft; try lia. now exists r.
  - intros ->. split; reflexivity.
Qed.

Lemma compact_range_length_witness :
  let leaves := [[x01]; [x02]; [x03]; [x04]; [x05]] in
  N.of_nat (length (makeRightRange sample_hash leaves)) = 2
  /\ N.of_nat (length (makeLeftRange sample_hash leaves)) = 2
  /\ exists root, makeRightRange sample_hash (firstn 4 leaves) = [root].
Proof.
  cbv zeta.
  destruct (compact_range_length sample_hash [[x01]; [x02]; [x03]; [x04]; [x05]])
    as (Hr & Hl & _); [reflexivity|].
  split; [exact Hr|]. split; [exact Hl|].
  destruct (compact_range_length sample_hash [[x01]; [x02]; [x03]; [x04]])
    as (_ & _ & Hpow & _); [reflexivity|].
  exact (proj1 (Hpow 2 eq_refl)).
Defined.

(* ================================================================= *)
(** * Batch inclusion and inclusion *)

Section BatchInclusion.

Variable HashBytes : list byte -> Hash.

Lemma inclusion_loop_unfold (sn fn : N) (r : Hash) (path : list Hash) :
  0 < sn ->
  inclusion_loop HashBytes sn fn r path
  = match inclusion_step HashBytes sn fn r path with
    | None => None
    | Some (r', path') =>
        inclusion_loop HashBytes (N.shiftr sn 1) (N.shiftr fn 1) r' path'
    end.
Proof.
  intros Hsn. destruct sn as [|p]; [lia|].
  destruct p as [q|q|]; cbn [inclusion_loop inclusion_loop_pos];
    destruct (inclusion_step HashBytes _ fn r path) as [[r' path']|];
    reflexivity.
Qed.

Lemma shiftr_shiftr_succ (x : N) (j : nat) :
  N.shiftr (N.shiftr x 1) (N.of_nat j) = N.shiftr x (N.of_nat (S j)).
Proof. rewrite N.shiftr_shiftr, Nat2N.inj_succ. f_equal. lia. Qed.

Lemma shiftr_lt_inv (a b k : N) : N.shiftr a k < N.shiftr b k -> a < b.
Proof.
  intros H. destruct (N.lt_ge_cases a b) as [Hlt|Hge]; [exact Hlt|].
  pose proof (shiftr_le_mono b a k Hge). lia.
Qed.

Lemma shiftr_pos_inv (a k : N) : 0 < N.shiftr a k -> 0 < a.
Proof.
  intros H. destruct a; [|lia]. rewrite N.shiftr_0_l in H. lia.
Qed.

Lemma inclusion_loop_steps (j : nat) :
  forall (sn fn : N) (r : Hash) (path : list Hash),
    0 < N.shiftr sn (N.of_nat j) ->
    inclusion_loop HashBytes sn fn r path
    = match inclusion_steps HashBytes j sn fn r path with
      | None => None
      | Some (r', path') =>
          inclusion_loop HashBytes (N.shiftr sn (N.of_nat j))
            (N.shiftr fn (N.of_nat j)) r' path'
      end.
Proof.
  induction j as [|j IH]; intros sn fn r path Hpos.
  - cbn [inclusion_steps]. change (N.of_nat 0) with 0.
    now rewrite !N.shiftr_0_r.
  - cbn [inclusion_steps].
    rewrite inclusion_loop_unfold by (exact (shiftr_pos_inv _ _ Hpos)).
    destruct (inclusion_step HashBytes sn fn r path) as [[r' path']|];
      [|reflexivity].
    rewrite <- shiftr_shiftr_succ in Hpos.
    rewrite (IH _ _ _ _ Hpos), !shiftr_shiftr_succ. reflexivity.
Qed.

(** The first loop of [VerifyInclusionBatch] computes what the loop of
    [VerifyInclusion] computes on the start path, as long as the index
    stays left of the last node. *)
Lemma batch_start_loop_steps (k : nat) :
  forall (fn sn : N) (fr : Hash) (startPath leftRange : list Hash)
         (fn1 : N) (fr1 : Hash) (startPath1 leftRange1 : list Hash),
    batch_start_loop HashBytes k fn fr startPath leftRange
    = Ok (fn1, fr1, startPath1, leftRange1) ->
    N.shiftr fn (N.of_nat k) < N.shiftr sn (N.of_nat k) ->
    inclusion_steps HashBytes k sn fn fr startPath = Some (fr1, startPath1)
    /\ fn1 = N.shiftr fn (N.of_nat k).
Proof.
  induction k as [|k IH];
    intros fn sn fr startPath leftRange fn1 fr1 startPath1 leftRange1 Hloop Hlt.
  - cbn [batch_start_loop] in Hloop. injection Hloop as <- <- <- <-.
    change (N.of_nat 0) with 0. now rewrite N.shiftr_0_r.
  - cbn [batch_start_loop] in Hloop. cbn [inclusion_steps].
    unfold inclusion_step.
    pose proof (shiftr_lt_inv _ _ _ Hlt) as Hfs. apply N.ltb_lt in Hfs.
    rewrite <- !shiftr_shiftr_succ in *.
    destruct (isOdd fn).
    + destruct startPath as [|p0 startPath']; [discriminate|].
      exact (IH _ _ _ _ _ _ _ _ _ Hloop Hlt).
    + rewrite Hfs.
      destruct (pop_last leftRange) as [[s leftRange']|]; [|discriminate].
      destruct startPath as [|p0 startPath']; [discriminate|].
      destruct (bytes_eqb s p0) eqn:E; cbn [negb] in Hloop; [|discriminate].
      apply bytes_eqb_eq in E. subst s.
      exact (IH _ _ _ _ _ _ _ _ _ Hloop Hlt).
Qed.

(** The second loop computes what the loop of [VerifyInclusion] computes
    on the end path. *)
Lemma batch_end_loop_steps (k : nat) :
  forall (en sn : N) (er : Hash) (endPath rightRange : list Hash)
         (en1 sn1 : N) (er1 : Hash) (endPath1 rightRange1 : list Hash),
    batch_end_loop HashBytes k en sn er endPath rightRange
    = Ok (en1, sn1, er1, endPath1, rightRange1) ->
    inclusion_steps HashBytes k sn en er endPath = Some (er1, endPath1)
    /\ en1 = N.shiftr en (N.of_nat k) /\ sn1 = N.shiftr sn (N.of_nat k).
Proof.
  induction k as [|k IH];
    intros en sn er endPath rightRange en1 sn1 er1 endPath1 rightRange1 Hloop.
  - cbn [batch_end_loop] in Hloop. injection Hloop as <- <- <- <- <-.
    change (N.of_nat 0) with 0. now rewrite !N.shiftr_0_r.
  - cbn [batch_end_loop] in Hloop. cbn [inclusion_steps].
    unfold inclusion_step. rewrite <- !shiftr_shiftr_succ.
    destruct (isOdd en).
    + destruct (pop_last rightRange) as [[s rightRange']|]; [|discriminate].
      destruct endPath as [|p0 endPath']; [discriminate|].
      destruct (bytes_eqb s p0) eqn:E; cbn [negb] in Hloop; [|discriminate].
      apply bytes_eqb_eq in E. subst s.
      exact (IH _ _ _ _ _ _ _ _ _ _ Hloop).
    + destruct (en <? sn).
      * destruct endPath as [|p0 endPath']; [discriminate|].
        exact (IH _ _ _ _ _ _ _ _ _ _ Hloop).
      * exact (IH _ _ _ _ _ _ _ _ _ _ Hloop).
Qed.

End BatchInclusion.

Lemma batch_start_loop_index (HashBytes : list byte -> Hash) (k : nat) :
  forall (fn : N) (fr : Hash) (startPath leftRange : list Hash)
         (fn1 : N) (fr1 : Hash) (startPath1 leftRange1 : list Hash),
    batch_start_loop HashBytes k fn fr startPath leftRange
    = Ok (fn1, fr1, startPath1, leftRange1) ->
    fn1 = N.shiftr fn (N.of_nat k).
Proof.
  induction k as [|k IH];
    intros fn fr startPath leftRange fn1 fr1 startPath1 leftRange1 Hloop.
  - cbn [batch_start_loop] in Hloop. injection Hloop as <- <- <- <-.
    change (N.of_nat 0) with 0. now rewrite N.shiftr_0_r.
  - cbn [batch_start_loop] in Hloop. rewrite <- shiftr_shiftr_succ.
    destruct (isOdd fn).
    + destruct startPath as [|p0 startPath']; [discriminate|].
      exact (IH _ _ _ _ _ _ _ _ Hloop).
    + destruct (pop_last leftRange) as [[s leftRange']|]; [|discriminate].
      destruct startPath as [|p0 startPath']; [discriminate|].
      destruct (negb (bytes_eqb s p0)); [discriminate|].
      exact (IH _ _ _ _ _ _ _ _ Hloop).
Qed.

Lemma VerifyInclusion_ok_iff (HashBytes : list byte -> Hash)
  (leaf : Hash) (index size : N) (root : Hash) (path : list Hash) :
  VerifyInclusion HashBytes leaf index size root path = Ok tt
  <-> index < size
      /\ N.of_nat (length path) = inclusionPathLength index size
      /\ inclusion_loop HashBytes (sub64 size 1) index leaf path
         = Some (root, []).
Proof.
  unfold VerifyInclusion. rewrite inclusionPathLength_pathLength.
  destruct (size <=? index) eqn:Hle.
  - apply N.leb_le in Hle. split; [discriminate|]. intros [H _]. lia.
  - apply N.leb_gt in Hle.
    destruct (N.of_nat (length path) =? pathLength index size) eqn:Hlen;
      cbn [negb].
    + apply N.eqb_eq in Hlen.
      destruct (inclusion_loop HashBytes (sub64 size 1) index leaf path)
        as [[r rest]|].
      * destruct rest as [|x rest].
        -- destruct (bytes_eqb r root) eqn:E; cbn [negb].
           ++ apply bytes_eqb_eq in E. subst r. tauto.
           ++ apply bytes_eqb_neq in E. split; [discriminate|].
              intros (_ & _ & [= H]). contradiction.
        -- split; [discriminate|]. intros (_ & _ & H). discriminate H.
      * split; [discriminate|]. intros (_ & _ & H). discriminate H.
    + apply N.eqb_neq in Hlen. split; [discriminate|]. intros (_ & H & _).
      contradiction.
Qed.

Lemma div2_succ_even (a : N) : N.odd a = false -> N.div2 (a + 1) = N.div2 a.
Proof.
  intros Hodd. pose proof (N.div2_odd a) as Ha. rewrite Hodd in Ha.
  cbn [N.b2n] in Ha.
  destruct (div2_odd_unique (a + 1) (N.div2 a) true) as [_ ->];
    [cbn [N.b2n]; lia|reflexivity].
Qed.

(** The last index of a range as [VerifyInclusionBatch] computes it, when
    it is not below the first. *)
Lemma batch_end_index (fn len : N) :
  fn < 2 ^ 64 -> 0 < len -> len < 2 ^ 64 ->
  fn <= sub64 (add64 fn (wrap64 len)) 1 ->
  fn + len <= 2 ^ 64 /\ sub64 (add64 fn (wrap64 len)) 1 = fn + len - 1.
Proof.
  intros Hfn Hpos Hlen.
  assert (Hw : wrap64 len = len) by (unfold wrap64; now apply N.mod_small).
  rewrite Hw.
  destruct (N.lt_ge_cases (fn + len) (2 ^ 64)) as [Hsmall|Hbig].
  - rewrite add64_small by exact Hsmall.
    rewrite sub64_one by lia. intros _. lia.
  - assert (Hadd : add64 fn len = fn + len - 2 ^ 64).
    { unfold add64, wrap64.
      replace (fn + len) with ((fn + len - 2 ^ 64) + 1 * 2 ^ 64) at 1 by lia.
      rewrite N.Div0.mod_add. apply N.mod_small. lia. }
    rewrite Hadd.
    destruct (N.eq_dec (fn + len) (2 ^ 64)) as [Heq|Hne].
    + intros _. split; [lia|].
      rewrite Heq. replace (2 ^ 64 - 2 ^ 64) with 0 by lia.
      unfold sub64, wrap64. cbn. reflexivity.
    + rewrite sub64_one by lia. intros H. lia.
Qed.

(** X12. When [VerifyInclusionBatch] accepts a range of leaves,
    [VerifyInclusion] accepts the first leaf at the first index with the
    start path and the last leaf at the last index with the end path, for
    the same tree size and root; the last index, as the code computes it,
    is not below the first and lies inside the tree. *)
Theorem VerifyInclusionBatch_first_and_last (HashBytes : list byte -> Hash)
  (leaves : list Hash) (fn size : N) (root : Hash)
  (startPath endPath : list Hash) :
  fn < 2 ^ 64 -> size < 2 ^ 64 ->
  VerifyInclusionBatch HashBytes leaves fn size root startPath endPath = Ok tt ->
  exists first others,
    leaves = first :: others
    /\ let en := sub64 (add64 fn (wrap64 (N.of_nat (length leaves)))) 1 in
       fn <= en /\ en < size
       /\ VerifyInclusion HashBytes first fn size root startPath = Ok tt
       /\ VerifyInclusion HashBytes (last leaves first) en size root endPath
          = Ok tt.
Proof.
  intros Hfn Hsize H. unfold VerifyInclusionBatch in H.
  destruct leaves as [|leaf0 others]; [discriminate|].
  exists leaf0, others. split; [reflexivity|].
  cbv zeta in H |- *.
  set (leaves := leaf0 :: others) in *.
  set (en := sub64 (add64 fn (wrap64 (N.of_nat (length leaves)))) 1) in *.
  destruct (size <=? en) eqn:Hen; [discriminate|]. apply N.leb_gt in Hen.
  destruct others as [|leaf1 rest].
  - destruct (pathEqual startPath endPath) eqn:Hp; cbn [negb] in H;
      [|discriminate].
    apply pathEqual_eq in Hp. subst endPath.
    assert (Een : en = fn) by (apply sub64_add64_one; exact Hfn).
    rewrite Een in *. cbn [last leaves]. repeat split; try lia; exact H.
  - destruct (N.of_nat (length startPath) =? inclusionPathLength fn size)
      eqn:Hl1; cbn [negb] in H; [|discriminate].
    destruct (N.of_nat (length endPath) =? inclusionPathLength en size)
      eqn:Hl2; cbn [negb] in H; [|discriminate].
    destruct (N.lxor fn en =? 0); [discriminate|].
    set (k := N.to_nat (Len64 (N.lxor fn en) - 1)) in H.
    destruct (slice leaves 1 _) as [mid_left|]; cbn [option_panic bind] in H;
      [|discriminate].
    destruct (slice leaves _ _) as [mid_right|]; cbn [option_panic bind] in H;
      [|discriminate].
    destruct (batch_start_loop HashBytes k fn leaf0 startPath _)
      as [[[[fn1 fr] sp1] lr1]| |] eqn:Hs; cbn [bind] in H; try discriminate.
    destruct (batch_end_loop HashBytes k en (sub64 size 1) _ endPath _)
      as [[[[[en1 sn1] er] ep1] rr1]| |] eqn:He; cbn [bind] in H;
      try discriminate.
    destruct (isOdd fn1 || isEven en1 || negb (add64 fn1 1 =? en1)) eqn:Hadj;
      [discriminate|].
    destruct ((0 <? N.of_nat (length lr1)) || (0 <? N.of_nat (length rr1)));
      [discriminate|].
    destruct sp1 as [|s0 startRest]; [discriminate|].
    destruct (bytes_eqb s0 er) eqn:E1; cbn [negb] in H; [|discriminate].
    destruct ep1 as [|e0 endRest]; [discriminate|].
    destruct (bytes_eqb e0 fr) eqn:E2; cbn [negb] in H; [|discriminate].
    destruct (pathEqual startRest endRest) eqn:E3; cbn [negb] in H;
      [|discriminate].
    apply bytes_eqb_eq in E1, E2. apply pathEqual_eq in E3.
    subst s0 e0 endRest.
    apply VerifyInclusion_ok_iff in H. destruct H as (_ & _ & Hfinal).
    pose proof (batch_start_loop_index _ _ _ _ _ _ _ _ _ _ Hs) as Hfn1.
    destruct (batch_end_loop_steps _ _ _ _ _ _ _ _ _ _ _ _ He)
      as (Hend & Hen1 & Hsn1).
    apply orb_false_iff in Hadj as [Hadj Hsucc].
    apply orb_false_iff in Hadj as [Hodd Heven].
    rewrite isOdd_odd in Hodd. rewrite isEven_even in Heven.
    apply negb_false_iff in Heven, Hsucc. apply N.eqb_eq in Hsucc.
    assert (Hsn : sub64 size 1 = size - 1) by (apply sub64_one; lia).
    assert (Hfn1lt : fn1 < 2 ^ 64) by (rewrite Hfn1; now apply shiftr_lt).
    assert (Hplus : add64 fn1 1 = fn1 + 1).
    { destruct (N.eq_dec fn1 (2 ^ 64 - 1)) as [Heq|Hne].
      - rewrite Heq in Hodd. discriminate Hodd.
      - apply add64_small. lia. }
    rewrite Hplus in Hsucc.
    assert (Hle : N.shiftr en (N.of_nat k) <= N.shiftr (size - 1) (N.of_nat k))
      by (apply shiftr_le_mono; lia).
    assert (Hlt : N.shiftr fn (N.of_nat k)
                  < N.shiftr (sub64 size 1) (N.of_nat k))
      by (rewrite Hsn; lia).
    assert (Hpos : 0 < N.shiftr (sub64 size 1) (N.of_nat k)) by lia.
    destruct (batch_start_loop_steps HashBytes _ _ _ _ _ _ _ _ _ _ Hs Hlt)
      as (Hstart & _).
    assert (Hfe : fn < en) by (apply (shiftr_lt_inv _ _ (N.of_nat k)); lia).
    rewrite Hsn1 in Hfinal.
    rewrite sub64_add64_one in Hfinal
      by (apply shiftr_lt; rewrite Hsn; apply shiftr_lt; lia).
    split; [lia|]. split; [exact Hen|]. split.
    + apply VerifyInclusion_ok_iff. split; [lia|].
      split; [now apply N.eqb_eq|].
      rewrite (inclusion_loop_steps HashBytes k _ _ _ _ Hpos), Hstart.
      rewrite inclusion_loop_unfold by exact Hpos.
      unfold inclusion_step. rewrite <- Hfn1, isOdd_odd, Hodd.
      assert (Hb : (fn1 <? N.shiftr (sub64 size 1) (N.of_nat k)) = true)
        by (apply N.ltb_lt; lia).
      rewrite Hb. exact Hfinal.
    + apply VerifyInclusion_ok_iff. split; [exact Hen|].
      split; [now apply N.eqb_eq|].
      rewrite (inclusion_loop_steps HashBytes k _ _ _ _ Hpos), Hend.
      rewrite inclusion_loop_unfold by exact Hpos.
      unfold inclusion_step. rewrite <- Hen1, isOdd_odd, Heven.
      rewrite <- Hsucc, (shiftr1_div2 (fn1 + 1)), (div2_succ_even fn1 Hodd),
        <- shiftr1_div2.
      exact Hfinal.
Qed.

Lemma VerifyInclusionBatch_first_and_last_witness :
  let H := HashInteriorNode sample_hash in
  let h0 := [x00] in let h1 := [x01] in let h2 := [x02] in let h3 := [x03] in
  let root := H (H h0 h1) (H h2 h3) in
  VerifyInclusionBatch sample_hash [h1; h2] 1 4 root [h0; H h2 h3] [h3; H h0 h1]
  = Ok tt
  /\ VerifyInclusion sample_hash h1 1 4 root [h0; H h2 h3] = Ok tt
  /\ VerifyInclusion sample_hash h2 2 4 root [h3; H h0 h1] = Ok tt.
Proof.
  cbv zeta.
  set (H := HashInteriorNode sample_hash).
  set (root := H (H [x00] [x01]) (H [x02] [x03])).
  assert (Hbatch : VerifyInclusionBatch sample_hash [[x01]; [x02]] 1 4 root
                     [[x00]; H [x02] [x03]] [[x03]; H [x00] [x01]] = Ok tt)
    by (vm_compute; reflexivity).
  split; [exact Hbatch|].
  destruct (VerifyInclusionBatch_first_and_last sample_hash _ 1 4 root _ _
              eq_refl eq_refl Hbatch)
    as (first & others & Heq & _ & _ & Hfirst & Hlast).
  injection Heq as <- <-. split; [exact Hfirst|exact Hlast].
Defined.

(* ================================================================= *)
(** * Consistency with a smaller tree *)

Lemma shiftr_size (x : N) : N.shiftr x (N.size x) = 0.
Proof.
  destruct (N.eq_dec x 0) as [->|Hx]; [reflexivity|].
  apply N.shiftr_eq_0. rewrite N.size_log2 by exact Hx. lia.
Qed.

Lemma Len64_pos (x : N) : 0 < x -> 0 < Len64 x.
Proof.
  destruct x as [|p]; [lia|]. intros _. reflexivity.
Qed.

Lemma consistencyWantLength_one (old : N) :
  0 < old -> old < 2 ^ 64 ->
  let fn := N.shiftr (old - 1) (TrailingZeros64 old) in
  consistencyWantLength old 1 = Len64 fn + (if 0 <? fn then 1 else 0).
Proof.
  intros Hpos Hold fn. unfold consistencyWantLength, pathLength.
  rewrite (sub64_one old) by assumption. fold fn.
  change (sub64 1 1) with 0. rewrite N.shiftr_0_l.
  change (add64 0 1) with 1. change (sub64 1 1) with 0.
  rewrite N.lxor_0_r. unfold Len64. rewrite shiftr_size.
  cbn [OnesCount64]. destruct (0 <? fn); lia.
Qed.

(** X13. [VerifyConsistency] does not compare the two sizes.  Asked about
    an old tree of more than one leaf and a new tree of one leaf, it
    accepts the empty path with equal roots when the old size is a power
    of two ([fn = 0]); otherwise it rejects every path that has not the
    length it computes, and for a path of that length it ends in its
    internal error about path elements left over. *)
Theorem VerifyConsistency_new_size_one (HashBytes : list byte -> Hash)
  (old : N) (oldRoot newRoot : Hash) (path : list Hash) :
  1 < old -> old < 2 ^ 64 ->
  let fn := N.shiftr (old - 1) (TrailingZeros64 old) in
  (fn = 0 ->
   (VerifyConsistency HashBytes old 1 oldRoot newRoot path = Ok tt
    <-> path = [] /\ oldRoot = newRoot))
  /\ (0 < fn ->
      N.of_nat (length path) = Len64 fn + 1 ->
      VerifyConsistency HashBytes old 1 oldRoot newRoot path = Panic)
  /\ (0 < fn ->
      N.of_nat (length path) <> Len64 fn + 1 ->
      VerifyConsistency HashBytes old 1 oldRoot newRoot path
      = Err ErrMalformedPathLength).
Proof.
  intros Hone Hold fn.
  pose proof (consistencyWantLength_one old ltac:(lia) Hold) as Hwant.
  cbv zeta in Hwant. fold fn in Hwant.
  assert (H1 : (old =? 1) = false) by (apply N.eqb_neq; lia).
  assert (H0 : (old =? 0) = false) by (apply N.eqb_neq; lia).
  unfold VerifyConsistency. rewrite H1, H0. cbv zeta.
  rewrite (sub64_one old) by lia. fold fn.
  change (sub64 1 1) with 0. rewrite N.shiftr_0_l. rewrite Hwant.
  repeat apply conj.
  - intros Hfn. rewrite Hfn. change (Len64 0 + (if 0 <? 0 then 1 else 0)) with 0.
    destruct path as [|p0 path].
    + cbn [length N.of_nat N.eqb negb consistency_loop].
      rewrite bytes_eqb_refl. cbn [negb].
      destruct (bytes_eqb oldRoot newRoot) eqn:E; cbn [negb].
      * apply bytes_eqb_eq in E. tauto.
      * apply bytes_eqb_neq in E. split; [discriminate|]. intros [_ H].
        contradiction.
    + assert (E : (N.of_nat (length (p0 :: path)) =? 0) = false)
        by (apply N.eqb_neq; cbn [length]; lia).
      rewrite E. cbn [negb]. split; [discriminate|]. intros [H _].
      discriminate H.
  - intros Hfn Hlen.
    assert (Hb : (0 <? fn) = true) by now apply N.ltb_lt.
    rewrite Hb, Hlen, N.eqb_refl. cbn [negb].
    assert (Hz : (fn =? 0) = false) by (apply N.eqb_neq; lia).
    rewrite Hz. pose proof (Len64_pos fn Hfn) as Hk.
    destruct path as [|p0 [|p1 rest]]; cbn [length] in Hlen; try lia.
    reflexivity.
  - intros Hfn Hlen.
    assert (Hb : (0 <? fn) = true) by now apply N.ltb_lt.
    rewrite Hb. apply N.eqb_neq in Hlen. rewrite Hlen. reflexivity.
Qed.

Lemma VerifyConsistency_new_size_one_witness :
  VerifyConsistency sample_hash 3 1 [x01] [x02] [[x0a]; [x0b]; [x0c]] = Panic
  /\ VerifyConsistency sample_hash 2 1 [x01] [x01] [] = Ok tt.
Proof.
  split.
  - apply (VerifyConsistency_new_size_one sample_hash 3 [x01] [x02]
             [[x0a]; [x0b]; [x0c]]); reflexivity.
  - apply (VerifyConsistency_new_size_one sample_hash 2 [x01] [x01] []);
      try reflexivity. split; reflexivity.
Defined.

(* ================================================================= *)
(** * Base64 *)

(** A property of the numbers below [n], checked one by one. *)
Lemma below_forallb (P : N -> bool) (n : nat) :
  forallb (fun i => P (N.of_nat i)) (seq 0 n) = true ->
  forall i : N, i < N.of_nat n -> P i = true.
Proof.
  intros Hall i Hi. rewrite forallb_forall in Hall.
  specialize (Hall (N.to_nat i)). rewrite N2Nat.id in Hall.
  apply Hall. apply in_seq. lia.
Qed.

Lemma base64_value_char (i : N) :
  i < 64 -> base64_value (base64_char i) = Some i.
Proof.
  intros Hi.
  pose proof (below_forallb
    (fun i => match base64_value (base64_char i) with
              | Some j => j =? i
              | None => false
              end) 64 eq_refl i Hi) as H.
  cbv beta in H. destruct (base64_value (base64_char i)); [|discriminate].
  apply N.eqb_eq in H. now subst.
Qed.

(** A character of the alphabet is none of [=], space, carriage return and
    line feed. *)
Lemma base64_char_plain (i : N) :
  i < 64 ->
  Ascii.eqb (base64_char i) PAD = false
  /\ Ascii.eqb (base64_char i) SP = false
  /\ Ascii.eqb (base64_char i) CR = false
  /\ Ascii.eqb (base64_char i) LF = false.
Proof.
  intros Hi.
  pose proof (below_forallb
    (fun i => negb (Ascii.eqb (base64_char i) PAD)
              && negb (Ascii.eqb (base64_char i) SP)
              && negb (Ascii.eqb (base64_char i) CR)
              && negb (Ascii.eqb (base64_char i) LF)) 64 eq_refl i Hi) as H.
  cbv beta in H. rewrite !andb_true_iff, !negb_true_iff in H. tauto.
Qed.

Lemma byte_of_N_to_N (x : N) (b : byte) :
  x mod 256 = Byte.to_N b -> byte_of_N x = b.
Proof.
  intros H. unfold byte_of_N. rewrite H, Byte.of_to_N. reflexivity.
Qed.

Lemma to_N_lt (b : byte) : Byte.to_N b < 256.
Proof. pose proof (Byte.to_N_bounded b). lia. Qed.

(** The four groups of six bits of a number below [2^24]. *)
Lemma sextets (v : N) :
  v < 16777216 ->
  let d1 := v / 262144 in
  let d2 := v / 4096 mod 64 in
  let d3 := v / 64 mod 64 in
  let d4 := v mod 64 in
  d1 < 64 /\ d2 < 64 /\ d3 < 64 /\ d4 < 64
  /\ d1 * 64 + d2 = v / 4096
  /\ (d1 * 64 + d2) * 64 + d3 = v / 64
  /\ ((d1 * 64 + d2) * 64 + d3) * 64 + d4 = v.
Proof.
  intros Hv d1 d2 d3 d4.
  pose proof (N.div_mod v 64 ltac:(discriminate)) as E1.
  pose proof (N.div_mod (v / 64) 64 ltac:(discriminate)) as E2.
  pose proof (N.div_mod (v / 4096) 64 ltac:(discriminate)) as E3.
  assert (Q2 : v / 64 / 64 = v / 4096) by now rewrite N.Div0.div_div.
  assert (Q3 : v / 4096 / 64 = v / 262144) by now rewrite N.Div0.div_div.
  rewrite Q2 in E2. rewrite Q3 in E3.
  assert (B1 : d1 < 64)
    by (apply N.Div0.div_lt_upper_bound; exact Hv).
  assert (B2 : d2 < 64) by (apply N.mod_lt; discriminate).
  assert (B3 : d3 < 64) by (apply N.mod_lt; discriminate).
  assert (B4 : d4 < 64) by (apply N.mod_lt; discriminate).
  subst d1 d2 d3 d4. repeat split; try assumption; lia.
Qed.

Lemma three_bytes (a b c : N) :
  a < 256 -> b < 256 -> c < 256 ->
  let v := a * 65536 + b * 256 + c in
  v < 16777216
  /\ (v / 65536) mod 256 = a /\ (v / 256) mod 256 = b /\ v mod 256 = c
  /\ v / 65536 = a /\ v / 256 = a * 256 + b.
Proof.
  intros Ha Hb Hc v.
  assert (Q1 : v / 65536 = a)
    by (symmetry; apply (N.div_unique v 65536 a (b * 256 + c)); subst v; lia).
  assert (Q2 : v / 256 = a * 256 + b)
    by (symmetry; apply (N.div_unique v 256 (a * 256 + b) c); subst v; lia).
  assert (R3 : v mod 256 = c)
    by (symmetry; apply (N.mod_unique v 256 (a * 256 + b) c); subst v; lia).
  assert (R2 : (a * 256 + b) mod 256 = b)
    by (symmetry; apply (N.mod_unique (a * 256 + b) 256 a b); lia).
  repeat split; try assumption.
  - subst v. lia.
  - rewrite Q1. now apply N.mod_small.
  - now rewrite Q2.
Qed.

Lemma base64_quanta_encode (bs : list byte) :
  base64_quanta (base64_encode bs) = Some bs.
Proof.
  enough (H : forall n (bs : list byte),
                (length bs <= n)%nat ->
                base64_quanta (base64_encode bs) = Some bs)
    by (apply (H (length bs)); lia).
  clear bs. induction n as [|n IH]; intros bs Hlen.
  - destruct bs; [reflexivity|cbn [length] in Hlen; lia].
  - destruct bs as [|b1 [|b2 [|b3 rest]]]; [reflexivity| | |].
    + (* one byte *)
      cbn [base64_encode]. cbv zeta.
      pose proof (to_N_lt b1) as H1.
      destruct (three_bytes (Byte.to_N b1) 0 0 H1) as (Hv & _ & _ & _ & Q1 & _);
        try reflexivity.
      rewrite !N.mul_0_l, !N.add_0_r in *.
      destruct (sextets _ Hv) as (B1 & B2 & _ & _ & S12 & _).
      cbn [base64_quanta].
      rewrite (base64_value_char _ B1), (base64_value_char _ B2).
      rewrite Ascii.eqb_refl. rewrite S12.
      assert (E : Byte.to_N b1 * 65536 / 4096 / 16 = Byte.to_N b1)
        by (rewrite N.Div0.div_div; exact Q1).
      rewrite E. f_equal. f_equal. apply byte_of_N_to_N.
      apply N.mod_small. exact H1.
    + (* two bytes *)
      cbn [base64_encode]. cbv zeta.
      pose proof (to_N_lt b1) as H1. pose proof (to_N_lt b2) as H2.
      destruct (three_bytes (Byte.to_N b1) (Byte.to_N b2) 0 H1 H2)
        as (Hv & R1 & R2 & _ & Q1 & Q2); try reflexivity.
      rewrite !N.add_0_r in *.
      destruct (sextets _ Hv) as (B1 & B2 & B3 & _ & _ & S123 & _).
      cbn [base64_quanta].
      rewrite (base64_value_char _ B1), (base64_value_char _ B2),
        (base64_value_char _ B3).
      destruct (base64_char_plain _ B3) as (P3 & _). rewrite P3.
      rewrite Ascii.eqb_refl. cbv zeta. rewrite S123.
      assert (E1 : (Byte.to_N b1 * 65536 + Byte.to_N b2 * 256) / 64 / 1024
                   = Byte.to_N b1) by (rewrite N.Div0.div_div; exact Q1).
      assert (E2 : (Byte.to_N b1 * 65536 + Byte.to_N b2 * 256) / 64 / 4
                   = Byte.to_N b1 * 256 + Byte.to_N b2)
        by (rewrite N.Div0.div_div; exact Q2).
      rewrite E1, E2. f_equal. f_equal; [|f_equal].
      * apply byte_of_N_to_N. now apply N.mod_small.
      * apply byte_of_N_to_N. rewrite <- Q2. exact R2.
    + (* three bytes and more *)
      cbn [base64_encode]. cbv zeta.
      pose proof (to_N_lt b1) as H1. pose proof (to_N_lt b2) as H2.
      pose proof (to_N_lt b3) as H3.
      destruct (three_bytes _ _ _ H1 H2 H3) as (Hv & R1 & R2 & R3 & _ & _).
      destruct (sextets _ Hv) as (B1 & B2 & B3 & B4 & _ & _ & S).
      cbn [base64_quanta].
      rewrite (base64_value_char _ B1), (base64_value_char _ B2),
        (base64_value_char _ B3), (base64_value_char _ B4).
      destruct (base64_char_plain _ B3) as (P3 & _).
      destruct (base64_char_plain _ B4) as (P4 & _).
      rewrite P3, P4. cbv zeta.
      rewrite IH by (cbn [length] in Hlen; lia).
      rewrite S. f_equal. f_equal; [|f_equal; [|f_equal]];
        apply byte_of_N_to_N; assumption.
Qed.

Lemma base64_encode_chars (bs : list byte) :
  forallb (fun c => negb (Ascii.eqb c SP) && negb (Ascii.eqb c CR)
                    && negb (Ascii.eqb c LF)) (base64_encode bs) = true.
Proof.
  enough (H : forall n (bs : list byte),
                (length bs <= n)%nat ->
                forallb (fun c => negb (Ascii.eqb c SP) && negb (Ascii.eqb c CR)
                                  && negb (Ascii.eqb c LF))
                  (base64_encode bs) = true)
    by (apply (H (length bs)); lia).
  clear bs.
  assert (Hc : forall i, i < 64 ->
                 negb (Ascii.eqb (base64_char i) SP)
                 && negb (Ascii.eqb (base64_char i) CR)
                 && negb (Ascii.eqb (base64_char i) LF) = true).
  { intros i Hi. destruct (base64_char_plain i Hi) as (_ & -> & -> & ->).
    reflexivity. }
  assert (Hm : forall x, x mod 64 < 64) by (intros; apply N.mod_lt; discriminate).
  induction n as [|n IH]; intros bs Hlen.
  - destruct bs; [reflexivity|cbn [length] in Hlen; lia].
  - destruct bs as [|b1 [|b2 [|b3 rest]]]; [reflexivity| | |];
      cbn [base64_encode]; cbv zeta; cbn [forallb];
      pose proof (to_N_lt b1) as H1.
    + rewrite Hc, Hc; [reflexivity|apply Hm|].
      apply N.Div0.div_lt_upper_bound. lia.
    + pose proof (to_N_lt b2) as H2.
      rewrite Hc, Hc, Hc; [reflexivity|apply Hm|apply Hm|].
      apply N.Div0.div_lt_upper_bound. lia.
    + pose proof (to_N_lt b2) as H2. pose proof (to_N_lt b3) as H3.
      rewrite Hc, Hc, Hc, Hc; [|apply Hm|apply Hm|apply Hm|].
      * apply IH. cbn [length] in Hlen. lia.
      * apply N.Div0.div_lt_upper_bound. lia.
Qed.

Lemma filter_all {A} (f : A -> bool) (l : list A) :
  forallb f l = true -> filter f l = l.
Proof.
  induction l as [|a l IH]; cbn [forallb filter]; [reflexivity|].
  intros H. apply andb_true_iff in H as [-> Hl]. now rewrite IH.
Qed.

(** What [EncodeToString] writes, [DecodeString] reads back. *)
Lemma base64_decode_encode (bs : list byte) :
  base64_decode (base64_encode bs) = Some bs.
Proof.
  unfold base64_decode. rewrite filter_all; [apply base64_quanta_encode|].
  refine (forallb_weaken _ _ _ _ (base64_encode_chars bs)).
  intros c H. rewrite !andb_true_iff, !negb_true_iff in H.
  destruct H as [[_ H1] H2]. now rewrite H1, H2.
Qed.

Lemma base64_encode_no_SP (bs : list byte) :
  no_char SP (base64_encode bs) = true.
Proof.
  refine (forallb_weaken _ _ _ _ (base64_encode_chars bs)).
  intros c H. rewrite !andb_true_iff in H. tauto.
Qed.

Lemma base64_encode_no_LF (bs : list byte) :
  no_char LF (base64_encode bs) = true.
Proof.
  refine (forallb_weaken _ _ _ _ (base64_encode_chars bs)).
  intros c H. rewrite !andb_true_iff in H. tauto.
Qed.

(* ================================================================= *)
(** * Signature lines of signed notes *)

Lemma note_line_fields (keyName b64 : text) :
  no_char SP keyName = true -> no_char SP b64 = true ->
  split_char SP (checkpoint.EM_DASH ++ [SP] ++ keyName ++ [SP] ++ b64)
  = [checkpoint.EM_DASH; keyName; b64].
Proof.
  intros Hname Hb64.
  change (checkpoint.EM_DASH ++ [SP] ++ keyName ++ [SP] ++ b64)
    with (checkpoint.EM_DASH ++ SP :: (keyName ++ SP :: b64)).
  rewrite split_char_app by reflexivity.
  rewrite (split_char_app SP keyName b64 Hname), (split_char_none SP b64 Hb64).
  reflexivity.
Qed.

Lemma writeNoteSignature_line (keyName : text) (keyId signature : list byte) :
  checkpoint.writeNoteSignature keyName keyId signature
  = (checkpoint.EM_DASH ++ [SP] ++ keyName ++ [SP]
     ++ base64_encode (keyId ++ signature)) ++ [LF].
Proof.
  unfold checkpoint.writeNoteSignature. now rewrite <- !app_assoc.
Qed.

(** What [parseNoteSignature] makes of a line [writeNoteSignature] wrote,
    with or without its line feed. *)
Lemma parseNoteSignature_written (keyName : text) (keyId signature : list byte)
  (signatureSize : nat) (tail : text) :
  no_char SP keyName = true -> length keyId = 4%nat ->
  tail = [] \/ tail = [LF] ->
  checkpoint.parseNoteSignature
    (checkpoint.EM_DASH ++ [SP] ++ keyName ++ [SP]
     ++ base64_encode (keyId ++ signature) ++ tail) signatureSize
  = if Nat.eqb (length signature) signatureSize
    then Ok (keyName, keyId, signature)
    else Err ErrUnwantedSignature.
Proof.
  intros Hname Hid Htail. unfold checkpoint.parseNoteSignature.
  assert (Hsp : no_char SP (base64_encode (keyId ++ signature) ++ tail) = true).
  { rewrite no_char_app, base64_encode_no_SP.
    destruct Htail as [->| ->]; reflexivity. }
  rewrite (note_line_fields keyName _ Hname Hsp).
  rewrite text_eqb_refl. cbn [negb].
  assert (Hdec : base64_decode (base64_encode (keyId ++ signature) ++ tail)
                 = Some (keyId ++ signature)).
  { destruct Htail as [->| ->].
    - rewrite app_nil_r. apply base64_decode_encode.
    - unfold base64_decode. rewrite filter_app. cbn [filter].
      change (negb ((LF =? CR)%char || (LF =? LF)%char)) with false.
      cbv iota. rewrite app_nil_r. apply base64_decode_encode. }
  rewrite Hdec, length_app, Hid.
  change (Nat.eqb (4 + length signature) (4 + signatureSize))
    with (Nat.eqb (length signature) signatureSize).
  destruct (Nat.eqb (length signature) signatureSize); cbn [negb];
    [|reflexivity].
  rewrite (firstn_exact 4 keyId signature Hid),
    (skipn_exact 4 keyId signature Hid). reflexivity.
Qed.

(** X14. A log signature line written by [WriteEd25519Signature] for a key
    name without a space, a four-byte key id and a 64-byte signature is
    read back by [ParseEd25519SignatureLine] asked for that key name, with
    or without the line feed; asked for another key name, or read as a
    cosignature, the line is an unwanted signature. *)
Theorem ParseEd25519SignatureLine_written (origin : text)
  (keyId : checkpoint.KeyId) (sig : Signature) :
  no_char SP origin = true -> length keyId = 4%nat -> wf_signature sig ->
  let line := checkpoint.EM_DASH ++ [SP] ++ origin ++ [SP]
              ++ base64_encode (keyId ++ sig) in
  checkpoint.WriteEd25519Signature origin keyId sig = line ++ [LF]
  /\ checkpoint.ParseEd25519SignatureLine line origin = Ok (keyId, sig)
  /\ checkpoint.ParseEd25519SignatureLine (line ++ [LF]) origin
     = Ok (keyId, sig)
  /\ (forall keyName : text,
        keyName <> origin ->
        checkpoint.ParseEd25519SignatureLine line keyName
        = Err ErrUnwantedSignature)
  /\ (forall (HashBytes : list byte -> Hash) (publicKey : PublicKey),
        checkpoint.ParseCosignature HashBytes line publicKey
        = Err ErrUnwantedSignature).
Proof.
  intros Hname Hid Hsig line.
  assert (Hparse : forall tail size,
            tail = [] \/ tail = [LF] ->
            checkpoint.parseNoteSignature (line ++ tail) size
            = if Nat.eqb (length sig) size then Ok (origin, keyId, sig)
              else Err ErrUnwantedSignature).
  { intros tail size Htail. subst line. rewrite <- !app_assoc.
    now apply parseNoteSignature_written. }
  pose proof (Hparse [] SignatureSize (or_introl eq_refl)) as H0.
  pose proof (Hparse [LF] SignatureSize (or_intror eq_refl)) as H1.
  pose proof (Hparse [] (8 + SignatureSize)%nat (or_introl eq_refl)) as H2.
  rewrite app_nil_r in H0, H2. rewrite Hsig in H0, H1, H2.
  rewrite Nat.eqb_refl in H0, H1.
  change (Nat.eqb SignatureSize (8 + SignatureSize)) with false in H2.
  cbv iota in H2.
  repeat apply conj.
  - apply writeNoteSignature_line.
  - unfold checkpoint.ParseEd25519SignatureLine. rewrite H0. cbn [bind].
    now rewrite text_eqb_refl.
  - unfold checkpoint.ParseEd25519SignatureLine. rewrite H1. cbn [bind].
    now rewrite text_eqb_refl.
  - intros keyName Hne. unfold checkpoint.ParseEd25519SignatureLine.
    rewrite H0. cbn [bind].
    destruct (text_eqb origin keyName) eqn:E; [|reflexivity].
    apply text_eqb_eq in E. congruence.
  - intros HashBytes publicKey. unfold checkpoint.ParseCosignature.
    rewrite H2. reflexivity.
Qed.

Lemma ParseEd25519SignatureLine_written_witness :
  let line := checkpoint.EM_DASH ++ [SP] ++ txt "log.example.org" ++ [SP]
              ++ base64_encode ([x01; x02; x03; x04] ++ repeat x22 64) in
  checkpoint.ParseEd25519SignatureLine line (txt "log.example.org")
  = Ok ([x01; x02; x03; x04], repeat x22 64)
  /\ checkpoint.ParseEd25519SignatureLine line (txt "other")
     = Err ErrUnwantedSignature.
Proof.
  cbv zeta.
  destruct (ParseEd25519SignatureLine_written (txt "log.example.org")
              [x01; x02; x03; x04] (repeat x22 64) eq_refl eq_refl eq_refl)
    as (_ & Hok & _ & Hother & _).
  split; [exact Hok|]. apply Hother. discriminate.
Defined.

(** X15. A cosignature line written by [WriteCosignature] for a key name
    without a space, a timestamp and a 64-byte signature is read back by
    [ParseCosignature] for the witness key whose key id is on the line:
    the cosignature carries the hash of the key, the timestamp and the
    signature.  With any other four-byte key id on the line, or read as a
    log signature line, it is an unwanted signature. *)
Theorem ParseCosignature_written (HashBytes : list byte -> Hash)
  (keyName : text) (publicKey : PublicKey) (keyId : checkpoint.KeyId)
  (timestamp : N) (sig : Signature) :
  no_char SP keyName = true -> length keyId = 4%nat ->
  wf_uint64 timestamp -> wf_signature sig ->
  let line := checkpoint.EM_DASH ++ [SP] ++ keyName ++ [SP]
              ++ base64_encode (keyId ++ PutUint64 timestamp ++ sig) in
  checkpoint.WriteCosignature keyName keyId timestamp sig = line ++ [LF]
  /\ (keyId = checkpoint.NewWitnessKeyId HashBytes keyName publicKey ->
      checkpoint.ParseCosignature HashBytes line publicKey
      = Ok {| cs_KeyHash := HashBytes publicKey; cs_Timestamp := timestamp;
              cs_Signature := sig |})
  /\ (keyId <> checkpoint.NewWitnessKeyId HashBytes keyName publicKey ->
      checkpoint.ParseCosignature HashBytes line publicKey
      = Err ErrUnwantedSignature)
  /\ (forall name : text,
        checkpoint.ParseEd25519SignatureLine line name
        = Err ErrUnwantedSignature).
Proof.
  intros Hname Hid Hts Hsig line.
  assert (Hlen : length (PutUint64 timestamp ++ sig) = (8 + SignatureSize)%nat)
    by (rewrite length_app, PutUint64_length, Hsig; reflexivity).
  assert (Hparse : forall size,
            checkpoint.parseNoteSignature line size
            = if Nat.eqb (length (PutUint64 timestamp ++ sig)) size
              then Ok (keyName, keyId, PutUint64 timestamp ++ sig)
              else Err ErrUnwantedSignature).
  { intros size.
    pose proof (parseNoteSignature_written keyName keyId
                  (PutUint64 timestamp ++ sig) size [] Hname Hid
                  (or_introl eq_refl)) as H.
    rewrite app_nil_r in H. exact H. }
  repeat apply conj.
  - apply writeNoteSignature_line.
  - intros Hkey. unfold checkpoint.ParseCosignature.
    rewrite Hparse, Hlen, Nat.eqb_refl. cbn [bind].
    unfold checkpoint.NewWitnessKeyId in Hkey. rewrite <- Hkey.
    rewrite bytes_eqb_refl. cbn [negb].
    rewrite (firstn_exact 8 _ sig (PutUint64_length timestamp)),
      (skipn_exact 8 _ sig (PutUint64_length timestamp)),
      (PutUint64_big_endian timestamp Hts). reflexivity.
  - intros Hkey. unfold checkpoint.ParseCosignature.
    rewrite Hparse, Hlen, Nat.eqb_refl. cbn [bind].
    destruct (bytes_eqb keyId _) eqn:E; [|reflexivity].
    apply bytes_eqb_eq in E. contradiction.
  - intros name. unfold checkpoint.ParseEd25519SignatureLine.
    rewrite Hparse, Hlen. reflexivity.
Qed.

Lemma ParseCosignature_written_witness :
  let name := txt "witness.example.org" in
  let pub := repeat x07 32 in
  let keyId := checkpoint.NewWitnessKeyId sample_hash name pub in
  let line := checkpoint.EM_DASH ++ [SP] ++ name ++ [SP]
              ++ base64_encode (keyId ++ PutUint64 1700000000 ++ repeat x22 64) in
  checkpoint.ParseCosignature sample_hash line pub
  = Ok {| cs_KeyHash := sample_hash pub; cs_Timestamp := 1700000000;
          cs_Signature := repeat x22 64 |}.
Proof.
  cbv zeta.
  destruct (ParseCosignature_written sample_hash (txt "witness.example.org")
              (repeat x07 32)
              (checkpoint.NewWitnessKeyId sample_hash
                 (txt "witness.example.org") (repeat x07 32))
              1700000000 (repeat x22 64) eq_refl eq_refl eq_refl eq_refl)
    as (_ & Hok & _).
  apply Hok. reflexivity.
Defined.

Lemma note_line_of_fields (line f0 f1 f2 : text) :
  split_char SP line = [f0; f1; f2] ->
  line = f0 ++ [SP] ++ f1 ++ [SP] ++ f2
  /\ no_char SP f1 = true /\ no_char SP f2 = true.
Proof.
  intros Hsplit. pose proof (join_split_char SP line) as Hjoin.
  pose proof (split_char_pieces SP line) as Hall.
  rewrite Hsplit in Hjoin, Hall. cbn [join] in Hjoin.
  apply Forall_cons_iff in Hall as [_ Hall].
  apply Forall_cons_iff in Hall as [Hf1 Hall].
  apply Forall_cons_iff in Hall as [Hf2 _].
  split; [symmetry; exact Hjoin|]. split; assumption.
Qed.

Lemma parseNoteSignature_cases (line : text) (signatureSize : nat) :
  (checkpoint.parseNoteSignature line signatureSize
   = Err ErrInvalidSignatureLine
   /\ forall name b64 : text,
        no_char SP name = true -> no_char SP b64 = true ->
        line <> checkpoint.EM_DASH ++ [SP] ++ name ++ [SP] ++ b64)
  \/ (exists name b64 : text,
        no_char SP name = true /\ no_char SP b64 = true
        /\ line = checkpoint.EM_DASH ++ [SP] ++ name ++ [SP] ++ b64
        /\ checkpoint.parseNoteSignature line signatureSize
           = match base64_decode b64 with
             | None => Err ErrCorruptInput
             | Some blob =>
                 if Nat.eqb (length blob) (4 + signatureSize)
                 then Ok (name, firstn 4 blob, skipn 4 blob)
                 else Err ErrUnwantedSignature
             end).
Proof.
  assert (Hfields : forall name b64,
            no_char SP name = true -> no_char SP b64 = true ->
            line = checkpoint.EM_DASH ++ [SP] ++ name ++ [SP] ++ b64 ->
            split_char SP line = [checkpoint.EM_DASH; name; b64])
    by (intros name b64 Hn Hb ->; now apply note_line_fields).
  unfold checkpoint.parseNoteSignature.
  destruct (split_char SP line) as [|f0 [|f1 [|f2 [|f3 more]]]] eqn:Hsplit;
    try (left; split; [reflexivity|];
         intros name b64 Hn Hb Hline;
         specialize (Hfields name b64 Hn Hb Hline); discriminate Hfields).
  destruct (note_line_of_fields _ _ _ _ Hsplit) as (Hline & H1 & H2).
  destruct (text_eqb f0 checkpoint.EM_DASH) eqn:E0; cbn [negb].
  - apply text_eqb_eq in E0. subst f0. right. exists f1, f2.
    repeat split; try assumption.
    destruct (base64_decode f2) as [blob|]; [|reflexivity].
    destruct (Nat.eqb (length blob) (4 + signatureSize)); reflexivity.
  - left. split; [reflexivity|].
    intros name b64 Hn Hb Hl. specialize (Hfields name b64 Hn Hb Hl).
    injection Hfields as -> _ _. now rewrite text_eqb_refl in E0.
Qed.

(** X16. [parseNoteSignature] returns a key name, a four-byte key id and a
    blob of the size asked for exactly from a line
    [— <name> <base64>] whose base64 text decodes to the key id followed
    by the blob.  It reports an invalid signature line exactly when the
    line is not an em dash, a name and a third field separated by single
    spaces; otherwise a failure is the base64 decoder's error or, for a
    blob of another size, the unwanted-signature error. *)
Theorem parseNoteSignature_result (line : text) (signatureSize : nat) :
  (forall (name : text) (keyId : checkpoint.KeyId) (blob : list byte),
     checkpoint.parseNoteSignature line signatureSize = Ok (name, keyId, blob) ->
     length keyId = 4%nat /\ length blob = signatureSize
     /\ no_char SP name = true
     /\ exists b64,
          no_char SP b64 = true
          /\ line = checkpoint.EM_DASH ++ [SP] ++ name ++ [SP] ++ b64
          /\ base64_decode b64 = Some (keyId ++ blob))
  /\ (checkpoint.parseNoteSignature line signatureSize
      = Err ErrInvalidSignatureLine
      <-> forall name b64 : text,
            no_char SP name = true -> no_char SP b64 = true ->
            line <> checkpoint.EM_DASH ++ [SP] ++ name ++ [SP] ++ b64)
  /\ (forall e : error,
        checkpoint.parseNoteSignature line signatureSize = Err e ->
        e = ErrInvalidSignatureLine \/ e = ErrCorruptInput
        \/ e = ErrUnwantedSignature)
  /\ checkpoint.parseNoteSignature line signatureSize <> Panic.
Proof.
  destruct (parseNoteSignature_cases line signatureSize)
    as [[Hinv Hnot]|(name0 & b64 & Hn & Hb & Hline & Hres)].
  - rewrite Hinv. split; [intros name keyId blob; discriminate|].
    split; [split; [intros _; exact Hnot|reflexivity]|].
    split; [intros e [= <-]; now left|discriminate].
  - rewrite Hres.
    assert (Hform : ~ (forall name b64 : text,
                         no_char SP name = true -> no_char SP b64 = true ->
                         line <> checkpoint.EM_DASH ++ [SP] ++ name ++ [SP]
                                 ++ b64))
      by (intros H; exact (H name0 b64 Hn Hb Hline)).
    destruct (base64_decode b64) as [blob0|] eqn:Hdec.
    + destruct (Nat.eqb (length blob0) (4 + signatureSize)) eqn:Hlen.
      * apply Nat.eqb_eq in Hlen.
        split; [|split; [split; [discriminate|intros H; contradiction]|]].
        -- assert (Hk : length (firstn 4 blob0) = 4%nat)
             by (rewrite length_firstn; lia).
           assert (Hs : length (skipn 4 blob0) = signatureSize)
             by (rewrite length_skipn; lia).
           pose proof (firstn_skipn 4 blob0) as Hcat.
           remember (firstn 4 blob0) as k0. remember (skipn 4 blob0) as s0.
           intros name keyId blob [= <- <- <-].
           split; [exact Hk|]. split; [exact Hs|]. split; [exact Hn|].
           exists b64. split; [exact Hb|]. split; [exact Hline|].
           now rewrite Hcat.
        -- split; [intros e; discriminate|discriminate].
      * split; [intros name keyId blob; discriminate|].
        split; [split; [discriminate|intros H; contradiction]|].
        split; [intros e [= <-]; tauto|discriminate].
    + split; [intros name keyId blob; discriminate|].
      split; [split; [discriminate|intros H; contradiction]|].
      split; [intros e [= <-]; tauto|discriminate].
Qed.

Lemma parseNoteSignature_result_witness :
  checkpoint.parseNoteSignature (txt "no signature here") 64
  = Err ErrInvalidSignatureLine
  /\ forall e,
       checkpoint.parseNoteSignature
         (checkpoint.EM_DASH ++ txt " name AAAA") 64 = Err e ->
       e = ErrInvalidSignatureLine \/ e = ErrCorruptInput
       \/ e = ErrUnwantedSignature.
Proof.
  split.
  - reflexivity.
  - exact (proj1 (proj2 (proj2 (parseNoteSignature_result
                                  (checkpoint.EM_DASH ++ txt " name AAAA") 64)))).
Defined.

(* ================================================================= *)
(** * Batch inclusion without wrap-around *)

(** ** The highest bit in which two indices differ *)

Lemma lxor_one_adjacent (a b : N) :
  N.lxor a b = 1 -> a < b -> N.odd a = false /\ b = a + 1.
Proof.
  intros Hx Hlt.
  pose proof (lxor_div2 a b) as Hd. pose proof (lxor_odd a b) as Ho.
  rewrite Hx in Hd, Ho. change (N.div2 1) with 0 in Hd.
  change (N.odd 1) with true in Ho.
  symmetry in Hd. apply N.lxor_eq in Hd.
  pose proof (N.div2_odd a) as Ha. pose proof (N.div2_odd b) as Hb.
  rewrite Hd in Ha.
  destruct (N.odd a), (N.odd b); cbn [xorb N.b2n] in *;
    try discriminate; split; try reflexivity; lia.
Qed.

Lemma shiftr_log2 (x : N) : x <> 0 -> N.shiftr x (N.log2 x) = 1.
Proof.
  intros Hx. rewrite N.shiftr_div_pow2.
  destruct (N.log2_spec x ltac:(lia)) as [Hlo Hhi].
  rewrite N.pow_succ_r' in Hhi.
  symmetry. apply (N.div_unique x (2 ^ N.log2 x) 1 (x - 2 ^ N.log2 x)); lia.
Qed.

Lemma top_differing_bit (fn en : N) :
  fn < en ->
  let k := Len64 (N.lxor fn en) - 1 in
  N.odd (N.shiftr fn k) = false /\ N.shiftr en k = N.shiftr fn k + 1.
Proof.
  intros Hlt k.
  assert (Hx : N.lxor fn en <> 0)
    by (intros H; apply N.lxor_eq in H; lia).
  assert (Hk : k = N.log2 (N.lxor fn en))
    by (subst k; unfold Len64; rewrite N.size_log2 by exact Hx; lia).
  apply lxor_one_adjacent.
  - rewrite <- N.shiftr_lxor, Hk. now apply shiftr_log2.
  - pose proof (shiftr_le_mono fn en k ltac:(lia)) as Hle.
    destruct (N.eq_dec (N.shiftr fn k) (N.shiftr en k)) as [Heq|Hne]; [|lia].
    exfalso.
    assert (H1 : N.shiftr (N.lxor fn en) k = 1) by (rewrite Hk; now apply shiftr_log2).
    rewrite N.shiftr_lxor, Heq, N.lxor_nilpotent in H1. discriminate H1.
Qed.

Lemma top_differing_bit_bound (fn en : N) :
  fn < en -> en < 2 ^ 64 -> Len64 (N.lxor fn en) - 1 < 64.
Proof.
  intros Hlt Hen.
  destruct (top_differing_bit fn en Hlt) as [_ Hadj]. cbv zeta in Hadj.
  set (k := Len64 (N.lxor fn en) - 1) in *.
  destruct (N.lt_ge_cases k 64) as [H|H]; [exact H|exfalso].
  assert (Hz : N.shiftr en k = 0).
  { apply N.shiftr_eq_0. destruct (N.eq_dec en 0) as [->|Hne]; [lia|].
    apply N.lt_le_trans with 64; [|exact H].
    apply N.log2_lt_pow2; lia. }
  lia.
Qed.

(** ** The split point *)

Lemma testbit_high (a i : N) : a < 2 ^ i -> N.testbit a i = false.
Proof.
  intros H. destruct (N.eq_dec a 0) as [->|Hne]; [apply N.bits_0|].
  apply N.bits_above_log2. apply N.log2_lt_pow2; lia.
Qed.

Lemma mask64 (k : N) : k < 64 -> neg64 (shl64 1 k) = 2 ^ 64 - 2 ^ k.
Proof.
  intros Hk. unfold neg64, shl64, wrap64.
  rewrite N.shiftl_1_l.
  assert (Hp : 2 ^ k < 2 ^ 64) by (apply N.pow_lt_mono_r; lia).
  assert (H0 : 0 < 2 ^ k) by (apply N.neq_0_lt_0, N.pow_nonzero; discriminate).
  rewrite (N.mod_small (2 ^ k)) by exact Hp.
  apply N.mod_small. lia.
Qed.

Lemma mask64_shiftl (k : N) :
  k < 64 -> 2 ^ 64 - 2 ^ k = N.shiftl (N.ones (64 - k)) k.
Proof.
  intros Hk. rewrite N.shiftl_mul_pow2, N.ones_equiv.
  assert (E : 2 ^ 64 = 2 ^ (64 - k) * 2 ^ k)
    by (rewrite <- N.pow_add_r; f_equal; lia).
  assert (H0 : 0 < 2 ^ (64 - k))
    by (apply N.neq_0_lt_0, N.pow_nonzero; discriminate).
  rewrite E. rewrite <- N.sub_1_r. nia.
Qed.

Lemma land_mask64 (en k : N) :
  en < 2 ^ 64 -> k < 64 ->
  N.land en (neg64 (shl64 1 k)) = N.shiftl (N.shiftr en k) k.
Proof.
  intros Hen Hk. rewrite mask64, mask64_shiftl by exact Hk.
  apply N.bits_inj. intros i. rewrite N.land_spec.
  destruct (N.lt_ge_cases i k) as [Hlow|Hhigh].
  - rewrite !N.shiftl_spec_low by exact Hlow. apply andb_false_r.
  - rewrite !N.shiftl_spec_high' by exact Hhigh.
    rewrite N.shiftr_spec'. replace (i - k + k) with i by lia.
    destruct (N.lt_ge_cases i 64) as [Hi|Hi].
    + rewrite N.ones_spec_low by lia. apply andb_true_r.
    + rewrite N.ones_spec_high by lia. rewrite andb_false_r.
      symmetry. apply testbit_high.
      apply N.lt_le_trans with (2 ^ 64); [exact Hen|].
      apply N.pow_le_mono_r; lia.
Qed.

Lemma sub64_le (a b : N) : b <= a -> a < 2 ^ 64 -> sub64 a b = a - b.
Proof.
  intros Hle Ha. unfold sub64, wrap64.
  replace (a + 2 ^ 64 - b) with ((a - b) + 1 * 2 ^ 64) by lia.
  rewrite N.Div0.mod_add. apply N.mod_small. lia.
Qed.

(** The split point lies after the first index and not after the last;
    the leaves in between are, to its left, as many as the complement of
    the low [k] bits of the first index, and to its right as many as the
    low [k] bits of the last index. *)
Lemma split_point (fn en : N) :
  fn < en -> en < 2 ^ 64 ->
  let k := Len64 (N.lxor fn en) - 1 in
  let split := N.land en (neg64 (shl64 1 k)) in
  fn < split /\ split <= en
  /\ sub64 split fn = split - fn
  /\ split - fn - 1 = 2 ^ k - 1 - fn mod 2 ^ k
  /\ en - split = en mod 2 ^ k.
Proof.
  intros Hlt Hen k split.
  destruct (top_differing_bit fn en Hlt) as [_ Hadj]. fold k in Hadj.
  pose proof (top_differing_bit_bound fn en Hlt Hen) as Hk. fold k in Hk.
  assert (Hsplit : split = (N.shiftr fn k + 1) * 2 ^ k)
    by (subst split; rewrite land_mask64 by assumption;
        now rewrite N.shiftl_mul_pow2, Hadj).
  assert (Hp : 0 < 2 ^ k) by (apply N.neq_0_lt_0, N.pow_nonzero; discriminate).
  pose proof (N.div_mod fn (2 ^ k) ltac:(lia)) as Efn.
  pose proof (N.div_mod en (2 ^ k) ltac:(lia)) as Een.
  pose proof (N.mod_lt fn (2 ^ k) ltac:(lia)) as Bfn.
  pose proof (N.mod_lt en (2 ^ k) ltac:(lia)) as Ben.
  rewrite <- !N.shiftr_div_pow2 in Efn, Een. rewrite Hadj in Een.
  clearbody split. subst split.
  set (a := N.shiftr fn k) in *. set (p := 2 ^ k) in *.
  set (r1 := fn mod p) in *. set (r2 := en mod p) in *.
  clearbody a p r1 r2.
  assert (Hle : (a + 1) * p <= en) by nia.
  assert (Hgt : fn < (a + 1) * p) by nia.
  repeat split; try assumption.
  - apply sub64_le; lia.
  - nia.
  - nia.
Qed.

(** ** Counting ones *)

Lemma OnesCount64_double (x : N) : OnesCount64 (2 * x) = OnesCount64 x.
Proof.
  rewrite (OnesCount64_step (2 * x)).
  destruct (div2_odd_unique (2 * x) x false) as [-> ->];
    [cbn [N.b2n]; lia|reflexivity].
Qed.

Lemma OnesCount64_succ_double (x : N) :
  OnesCount64 (2 * x + 1) = 1 + OnesCount64 x.
Proof.
  rewrite (OnesCount64_step (2 * x + 1)).
  destruct (div2_odd_unique (2 * x + 1) x true) as [-> ->];
    [cbn [N.b2n]; lia|reflexivity].
Qed.

Lemma mod_pow2_succ (x : N) (k : nat) :
  x mod 2 ^ N.of_nat (S k)
  = 2 * (N.div2 x mod 2 ^ N.of_nat k) + N.b2n (N.odd x).
Proof.
  rewrite Nat2N.inj_succ, N.pow_succ_r'.
  assert (Hp : 0 < 2 ^ N.of_nat k)
    by (apply N.neq_0_lt_0, N.pow_nonzero; discriminate).
  pose proof (N.div2_odd x) as Hx.
  pose proof (N.div_mod (N.div2 x) (2 ^ N.of_nat k) ltac:(lia)) as Hd.
  pose proof (N.mod_lt (N.div2 x) (2 ^ N.of_nat k) ltac:(lia)) as Hb.
  set (p := 2 ^ N.of_nat k) in *. set (r := N.div2 x mod p) in *.
  symmetry.
  apply (N.mod_unique x (2 * p) (N.div2 x / p) (2 * r + N.b2n (N.odd x))).
  - destruct (N.odd x); cbn [N.b2n]; lia.
  - lia.
Qed.

Lemma pop_last_length (r : list Hash) (m : nat) :
  length r = S m ->
  exists s r', pop_last r = Some (s, r') /\ length r' = m.
Proof.
  intros Hlen. unfold pop_last. rewrite <- length_rev in Hlen.
  destruct (rev r) as [|s below]; [discriminate|].
  exists s, (rev below). split; [reflexivity|].
  rewrite length_rev. cbn [length] in Hlen. lia.
Qed.

(** ** The two loops *)

Section BatchLoops.

Variable HashBytes : list byte -> Hash.

Lemma pow2_pos (k : N) : 0 < 2 ^ k.
Proof. apply N.neq_0_lt_0, N.pow_nonzero. discriminate. Qed.

(** The first loop ends without a panic when the start path has an
    element per level and the left range a hash per level at which the
    index is even; it then leaves the range empty. *)
Lemma batch_start_loop_total (k : nat) :
  forall (fn : N) (fr : Hash) (startPath leftRange : list Hash),
    (k <= length startPath)%nat ->
    N.of_nat (length leftRange)
    = OnesCount64 (2 ^ N.of_nat k - 1 - fn mod 2 ^ N.of_nat k) ->
    (exists e, batch_start_loop HashBytes k fn fr startPath leftRange = Err e)
    \/ (exists fr1 startPath1,
          batch_start_loop HashBytes k fn fr startPath leftRange
          = Ok (N.shiftr fn (N.of_nat k), fr1, startPath1, [])
          /\ length startPath = (k + length startPath1)%nat).
Proof.
  induction k as [|k IH]; intros fn fr startPath leftRange Hsp Hlr.
  - right. exists fr, startPath. cbn [batch_start_loop].
    change (N.of_nat 0) with 0 in *. rewrite N.shiftr_0_r.
    change (2 ^ 0) with 1 in Hlr. rewrite N.mod_1_r in Hlr.
    cbn in Hlr. destruct leftRange; [|discriminate Hlr]. split; reflexivity.
  - cbn [batch_start_loop]. rewrite isOdd_odd.
    rewrite mod_pow2_succ in Hlr.
    rewrite Nat2N.inj_succ, N.pow_succ_r' in Hlr.
    pose proof (pow2_pos (N.of_nat k)) as Hp.
    pose proof (N.mod_lt (N.div2 fn) (2 ^ N.of_nat k) ltac:(lia)) as Hb.
    rewrite <- shiftr_shiftr_succ, shiftr1_div2.
    destruct startPath as [|p0 startPath']; [cbn [length] in Hsp; lia|].
    cbn [length] in Hsp.
    destruct (N.odd fn); cbn [N.b2n] in Hlr.
    + replace (2 * 2 ^ N.of_nat k - 1
               - (2 * (N.div2 fn mod 2 ^ N.of_nat k) + 1))
        with (2 * (2 ^ N.of_nat k - 1 - N.div2 fn mod 2 ^ N.of_nat k))
        in Hlr by lia.
      rewrite OnesCount64_double in Hlr.
      destruct (IH (N.div2 fn) (HashInteriorNode HashBytes p0 fr) startPath'
                  leftRange ltac:(lia) Hlr)
        as [[e He]|(fr1 & sp1 & Hok & Hlen)].
      * left. now exists e.
      * right. exists fr1, sp1. split; [exact Hok|]. cbn [length]. lia.
    + replace (2 * 2 ^ N.of_nat k - 1
               - (2 * (N.div2 fn mod 2 ^ N.of_nat k) + 0))
        with (2 * (2 ^ N.of_nat k - 1 - N.div2 fn mod 2 ^ N.of_nat k) + 1)
        in Hlr by lia.
      rewrite OnesCount64_succ_double in Hlr.
      destruct (pop_last_length leftRange
                  (N.to_nat (OnesCount64
                     (2 ^ N.of_nat k - 1 - N.div2 fn mod 2 ^ N.of_nat k)))
                  ltac:(lia)) as (s & lr' & -> & Hlr').
      destruct (negb (bytes_eqb s p0)); [left; eauto|].
      destruct (IH (N.div2 fn) (HashInteriorNode HashBytes fr s) startPath'
                  lr' ltac:(lia) ltac:(lia))
        as [[e He]|(fr1 & sp1 & Hok & Hlen)].
      * left. now exists e.
      * right. exists fr1, sp1. split; [exact Hok|]. cbn [length]. lia.
Qed.

(** The second loop ends without a panic when the end path has the
    elements its iterations consume and the right range a hash per level
    at which the index is odd. *)
Lemma batch_end_loop_total (k : nat) :
  forall (en sn : N) (er : Hash) (endPath rightRange : list Hash),
    (steps_count k sn en <= length endPath)%nat ->
    N.of_nat (length rightRange) = OnesCount64 (en mod 2 ^ N.of_nat k) ->
    (exists e, batch_end_loop HashBytes k en sn er endPath rightRange = Err e)
    \/ (exists er1 endPath1,
          batch_end_loop HashBytes k en sn er endPath rightRange
          = Ok (N.shiftr en (N.of_nat k), N.shiftr sn (N.of_nat k), er1,
                endPath1, [])
          /\ length endPath = (steps_count k sn en + length endPath1)%nat).
Proof.
  induction k as [|k IH]; intros en sn er endPath rightRange Hep Hrr.
  - right. exists er, endPath. cbn [batch_end_loop steps_count].
    change (N.of_nat 0) with 0 in *. rewrite !N.shiftr_0_r.
    change (2 ^ 0) with 1 in Hrr. rewrite N.mod_1_r in Hrr.
    cbn in Hrr. destruct rightRange; [|discriminate Hrr]. split; reflexivity.
  - cbn [batch_end_loop steps_count] in *. rewrite isOdd_odd in *.
    rewrite mod_pow2_succ in Hrr.
    rewrite <- !shiftr_shiftr_succ, !shiftr1_div2 in *.
    destruct (N.odd en); cbn [N.b2n orb] in *.
    + rewrite OnesCount64_succ_double in Hrr.
      destruct (pop_last_length rightRange
                  (N.to_nat (OnesCount64 (N.div2 en mod 2 ^ N.of_nat k)))
                  ltac:(lia)) as (s & rr' & -> & Hrr').
      destruct endPath as [|p0 endPath']; [cbn [length] in Hep; lia|].
      cbn [length] in Hep.
      destruct (negb (bytes_eqb s p0)); [left; eauto|].
      destruct (IH (N.div2 en) (N.div2 sn) (HashInteriorNode HashBytes s er)
                  endPath' rr' ltac:(lia) ltac:(lia))
        as [[e He]|(er1 & ep1 & Hok & Hlen)].
      * left. now exists e.
      * right. exists er1, ep1. split; [exact Hok|]. cbn [length]. lia.
    + rewrite N.add_0_r, OnesCount64_double in Hrr.
      destruct (en <? sn).
      * destruct endPath as [|p0 endPath']; [cbn [length] in Hep; lia|].
        cbn [length] in Hep.
        destruct (IH (N.div2 en) (N.div2 sn) (HashInteriorNode HashBytes er p0)
                    endPath' rightRange ltac:(lia) Hrr)
          as [[e He]|(er1 & ep1 & Hok & Hlen)].
        -- left. now exists e.
        -- right. exists er1, ep1. split; [exact Hok|]. cbn [length]. lia.
      * destruct (IH (N.div2 en) (N.div2 sn) er endPath rightRange
                    ltac:(lia) Hrr)
          as [[e He]|(er1 & ep1 & Hok & Hlen)].
        -- left. now exists e.
        -- right. exists er1, ep1. split; [exact Hok|]. lia.
Qed.

End BatchLoops.

(** ** Path lengths, level by level *)

Lemma siblings_unfold (sn fn : N) :
  0 < sn ->
  siblings sn fn
  = ((if isOdd fn || (fn <? sn)%N then 1 else 0)
     + siblings (N.shiftr sn 1) (N.shiftr fn 1))%nat.
Proof.
  intros Hsn. destruct sn as [|p]; [lia|].
  rewrite siblings_step, !shiftr1_div2. reflexivity.
Qed.

Lemma siblings_steps (k : nat) :
  forall sn fn : N,
    0 < N.shiftr sn (N.of_nat k) ->
    siblings sn fn
    = (steps_count k sn fn
       + siblings (N.shiftr sn (N.of_nat k)) (N.shiftr fn (N.of_nat k)))%nat.
Proof.
  induction k as [|k IH]; intros sn fn Hpos.
  - cbn [steps_count]. change (N.of_nat 0) with 0. now rewrite !N.shiftr_0_r.
  - cbn [steps_count].
    rewrite siblings_unfold by (exact (shiftr_pos_inv _ _ Hpos)).
    rewrite <- shiftr_shiftr_succ in Hpos.
    rewrite (IH _ (N.shiftr fn 1) Hpos), !shiftr_shiftr_succ. lia.
Qed.

Lemma steps_count_left (k : nat) :
  forall sn fn : N,
    N.shiftr fn (N.of_nat k) < N.shiftr sn (N.of_nat k) ->
    steps_count k sn fn = k.
Proof.
  induction k as [|k IH]; intros sn fn Hlt; [reflexivity|].
  cbn [steps_count].
  pose proof (shiftr_lt_inv _ _ _ Hlt) as Hfs. apply N.ltb_lt in Hfs.
  rewrite Hfs, orb_true_r. rewrite <- !shiftr_shiftr_succ in Hlt.
  now rewrite (IH _ _ Hlt).
Qed.

Lemma inclusion_path_siblings (index size : N) (path : list Hash) :
  index < size -> size < 2 ^ 64 ->
  (N.of_nat (length path) =? inclusionPathLength index size) = true ->
  length path = siblings (size - 1) index.
Proof.
  intros Hlt Hsize Hlen. apply N.eqb_eq in Hlen.
  rewrite inclusionPathLength_pathLength, pathLength_pl in Hlen by lia.
  rewrite <- siblings_pl in Hlen by lia. now apply Nat2N.inj.
Qed.

Lemma VerifyInclusion_no_panic (HashBytes : list byte -> Hash)
  (leaf : Hash) (index size : N) (root : Hash) (path : list Hash) :
  size < 2 ^ 64 ->
  VerifyInclusion HashBytes leaf index size root path <> Panic.
Proof.
  intros Hsize.
  destruct (N.le_gt_cases size index) as [Hle|Hlt].
  - now rewrite VerifyInclusion_out_of_range.
  - destruct (N.eq_dec (N.of_nat (length path)) (pathLength index size))
      as [Hlen|Hlen].
    + destruct (VerifyInclusion_right_length HashBytes leaf index size root
                  path Hlt Hsize Hlen) as (r & _ & ->).
      destruct (bytes_eqb r root); discriminate.
    + now rewrite VerifyInclusion_wrong_length.
Qed.

Lemma slice_some {A} (s : list A) (lo hi : N) :
  lo <= hi -> hi <= N.of_nat (length s) ->
  exists part, slice s lo hi = Some part
               /\ N.of_nat (length part) = hi - lo.
Proof.
  intros Hlo Hhi. unfold slice.
  apply N.leb_le in Hlo as Hlo'. apply N.leb_le in Hhi as Hhi'.
  rewrite Hlo', Hhi'. cbn [andb]. eexists. split; [reflexivity|].
  rewrite length_firstn, length_skipn. lia.
Qed.

Lemma makeRange_lengths (HashBytes : list byte -> Hash) (leaves : list Hash) :
  N.of_nat (length leaves) < 2 ^ 64 ->
  N.of_nat (length (makeLeftRange HashBytes leaves))
  = OnesCount64 (N.of_nat (length leaves))
  /\ N.of_nat (length (makeRightRange HashBytes leaves))
     = OnesCount64 (N.of_nat (length leaves)).
Proof.
  intros Hlen. split.
  - unfold makeLeftRange. rewrite <- (length_rev leaves) in *.
    destruct (rev leaves) as [|h rest]; [reflexivity|].
    cbn [length] in *. rewrite range_loop_length; [f_equal|lia|reflexivity].
    lia.
  - unfold makeRightRange. destruct leaves as [|h rest]; [reflexivity|].
    cbn [length] in *. rewrite range_loop_length; [f_equal|lia|reflexivity].
    lia.
Qed.

(** The last index of a range that does not wrap around. *)
Lemma batch_end_index_small (fn len : N) :
  fn < 2 ^ 64 -> 0 < len -> fn + len <= 2 ^ 64 ->
  sub64 (add64 fn (wrap64 len)) 1 = fn + len - 1.
Proof.
  intros Hfn Hpos Hsum.
  destruct (N.eq_dec len (2 ^ 64)) as [->|Hne].
  - assert (fn = 0) by lia. subst fn. reflexivity.
  - assert (Hw : wrap64 len = len) by (unfold wrap64; apply N.mod_small; lia).
    rewrite Hw.
    destruct (N.eq_dec (fn + len) (2 ^ 64)) as [Heq|Hlt].
    + unfold add64, wrap64. rewrite Heq. reflexivity.
    + rewrite add64_small by lia. apply sub64_one; lia.
Qed.

(** ** The batch verification never indexes out of range *)

(** X17. [VerifyInclusionBatch] never panics on a range that ends inside
    the 64-bit index space: when the first index plus the number of leaves
    is at most 2^64, every slice expression, every pop of a compact range
    and every read of a path element is in bounds, and the result is
    success or an error. *)
Theorem VerifyInclusionBatch_no_panic (HashBytes : list byte -> Hash)
  (leaves : list Hash) (fn size : N) (root : Hash)
  (startPath endPath : list Hash) :
  fn < 2 ^ 64 -> size < 2 ^ 64 ->
  fn + N.of_nat (length leaves) <= 2 ^ 64 ->
  VerifyInclusionBatch HashBytes leaves fn size root startPath endPath
  <> Panic.
Proof.
  intros Hfn Hsize Hsum. unfold VerifyInclusionBatch.
  destruct leaves as [|leaf0 others]; [discriminate|].
  cbv zeta.
  set (leaves := leaf0 :: others) in *.
  assert (Hn : 0 < N.of_nat (length leaves)) by (subst leaves; cbn [length]; lia).
  rewrite (batch_end_index_small fn _ Hfn Hn Hsum).
  set (n := N.of_nat (length leaves)) in *.
  set (en := fn + n - 1).
  destruct (size <=? en) eqn:Hen; [discriminate|]. apply N.leb_gt in Hen.
  destruct others as [|leaf1 rest].
  - destruct (pathEqual startPath endPath); cbn [negb]; [|discriminate].
    now apply VerifyInclusion_no_panic.
  - assert (Hn2 : 2 <= n) by (subst n leaves; cbn [length]; lia).
    assert (Hfe : fn < en) by (subst en; lia).
    assert (Hen64 : en < 2 ^ 64) by lia.
    destruct (N.of_nat (length startPath) =? inclusionPathLength fn size)
      eqn:Hl1; cbn [negb]; [|discriminate].
    destruct (N.of_nat (length endPath) =? inclusionPathLength en size)
      eqn:Hl2; cbn [negb]; [|discriminate].
    apply inclusion_path_siblings in Hl1; [|lia|exact Hsize].
    apply inclusion_path_siblings in Hl2; [|lia|exact Hsize].
    assert (Hx : (N.lxor fn en =? 0) = false).
    { apply N.eqb_neq. intros H. apply N.lxor_eq in H. lia. }
    rewrite Hx.
    destruct (top_differing_bit fn en Hfe) as [Hodd Hadj].
    destruct (split_point fn en Hfe Hen64)
      as (Hs1 & Hs2 & Hs3 & Hleft & Hright).
    cbv zeta in Hodd, Hadj, Hs1, Hs2, Hs3, Hleft, Hright.
    set (k := Len64 (N.lxor fn en) - 1) in *.
    set (split := N.land en (neg64 (shl64 1 k))) in *.
    rewrite Hs3.
    destruct (slice_some leaves 1 (split - fn)) as (mid_left & -> & Hml);
      [lia|fold n; lia|].
    destruct (slice_some leaves (split - fn) (n - 1))
      as (mid_right & -> & Hmr); [lia|fold n; lia|].
    cbn [option_panic bind].
    destruct (makeRange_lengths HashBytes mid_left) as [Hlr _]; [lia|].
    destruct (makeRange_lengths HashBytes mid_right) as [_ Hrr]; [lia|].
    rewrite Hml in Hlr. rewrite Hmr in Hrr.
    replace (n - 1 - (split - fn)) with (en - split) in Hrr by lia.
    rewrite Hleft in Hlr. rewrite Hright in Hrr.
    rewrite <- (N2Nat.id k) in Hlr, Hrr, Hodd, Hadj.
    set (K := N.to_nat k) in *.
    assert (Hsn : sub64 size 1 = size - 1) by (apply sub64_one; lia).
    rewrite Hsn. set (sn := size - 1) in *.
    assert (Hle : N.shiftr en (N.of_nat K) <= N.shiftr sn (N.of_nat K))
      by (apply shiftr_le_mono; lia).
    assert (Hpos : 0 < N.shiftr sn (N.of_nat K)) by lia.
    rewrite (siblings_steps K sn fn Hpos) in Hl1.
    rewrite (steps_count_left K sn fn) in Hl1 by lia.
    rewrite (siblings_steps K sn en Hpos) in Hl2.
    rewrite (siblings_unfold _ (N.shiftr fn (N.of_nat K)) Hpos) in Hl1.
    rewrite (siblings_unfold _ (N.shiftr en (N.of_nat K)) Hpos) in Hl2.
    assert (Hb1 : (N.shiftr fn (N.of_nat K) <? N.shiftr sn (N.of_nat K)) = true)
      by (apply N.ltb_lt; lia).
    assert (Hb2 : isOdd (N.shiftr en (N.of_nat K)) = true).
    { rewrite isOdd_odd, Hadj, N.add_1_r, N.odd_succ, <- N.negb_odd, Hodd.
      reflexivity. }
    rewrite Hb1, orb_true_r in Hl1. rewrite Hb2 in Hl2. cbn [orb] in Hl2.
    destruct (batch_start_loop_total HashBytes K fn leaf0 startPath
                (makeLeftRange HashBytes mid_left) ltac:(lia) Hlr)
      as [(e & ->)|(fr1 & sp1 & -> & Hsp)]; [discriminate|].
    cbn [bind].
    destruct (batch_end_loop_total HashBytes K en sn (last leaves leaf0)
                endPath (makeRightRange HashBytes mid_right) ltac:(lia) Hrr)
      as [(e & ->)|(er1 & ep1 & -> & Hep)]; [discriminate|].
    cbn [bind].
    assert (Hadd : add64 (N.shiftr fn (N.of_nat K)) 1
                   = N.shiftr en (N.of_nat K)).
    { rewrite Hadj. apply add64_small.
      pose proof (shiftr_le_mono en en (N.of_nat K) ltac:(lia)).
      assert (N.shiftr en (N.of_nat K) <= en)
        by (rewrite N.shiftr_div_pow2; apply N.Div0.div_le_upper_bound;
            pose proof (pow2_pos (N.of_nat K)); nia).
      lia. }
    rewrite Hadd, N.eqb_refl, isOdd_odd, Hodd.
    rewrite isEven_even, <- isOdd_odd, Hb2.
    cbn [negb orb length]. change (0 <? N.of_nat 0) with false. cbv iota.
    destruct sp1 as [|s0 startRest]; [cbn [length] in *; lia|].
    destruct (bytes_eqb s0 er1); cbn [negb]; [|discriminate].
    destruct ep1 as [|e0 endRest]; [cbn [length] in *; lia|].
    destruct (bytes_eqb e0 fr1); cbn [negb]; [|discriminate].
    destruct (pathEqual startRest endRest); cbn [negb]; [|discriminate].
    apply VerifyInclusion_no_panic. unfold add64, wrap64.
    apply N.mod_lt. discriminate.
Qed.

Lemma VerifyInclusionBatch_no_panic_witness :
  let H := HashInteriorNode sample_hash in
  let h0 := [x00] in let h1 := [x01] in let h2 := [x02] in let h3 := [x03] in
  1 < 2 ^ 64 /\ 4 < 2 ^ 64 /\ 1 + N.of_nat (length [h1; h2; h3]) <= 2 ^ 64
  /\ VerifyInclusionBatch sample_hash [h1; h2; h3] 1 4
       (H (H h0 h1) (H h2 h3)) [h0; H h2 h3] [h2; H h0 h1]
     <> Panic.
Proof.
  cbv zeta.
  split; [reflexivity|]. split; [reflexivity|].
  split; [cbn [length N.of_nat]; lia|].
  apply VerifyInclusionBatch_no_panic;
    [reflexivity|reflexivity|cbn [length N.of_nat]; lia].
Defined.
